(** * ament_copyright: the header parser of [ament_copyright/parser.py]

    A shallow embedding of the copyright/license header parser and the
    theorems that settle what its specification says about it.

    Conventions of the embedding.
    - A Python [str] is a [list ascii]; a character is one of the 256 code
      points of Latin-1 (the classes [\s], [\d] and the boundaries of
      [str.splitlines] are the ones Python uses on that range).
    - Offsets into a string are [nat]; [str.find] returns [option nat]
      ([None] for Python's [-1]).  The spans of a regular-expression match
      are pairs of [Z], as [match.span] returns [(-1, -1)] for a group that
      did not take part in the match.
    - A function that can raise returns a [result]; a [while] loop carries
      fuel and returns [OutOfFuel] when it is used up (the theorems of the
      second part show the fuel the functions pass is never used up). *)

From Stdlib Require Import Ascii String Bool Arith ZArith Lia List.
Import ListNotations.

(** ** Strings *)

Definition str := list ascii.

Definition txt (s : string) : str := list_ascii_of_string s.

Definition LF : ascii := "010"%char.
Definition CR : ascii := "013"%char.

Fixpoint str_eqb (a b : str) : bool :=
  match a, b with
  | [], [] => true
  | x :: a', y :: b' => Ascii.eqb x y && str_eqb a' b'
  | _, _ => false
  end.

(** [s[a:b]], [s[a:]] and [s[:b]] for offsets that are not negative: Python
    clamps both bounds to the length and yields the empty string when
    [b <= a]. *)
Definition slice (s : str) (a b : nat) : str := firstn (b - a) (skipn a s).
Definition slice_from (s : str) (a : nat) : str := skipn a s.
Definition slice_to (s : str) (b : nat) : str := firstn b s.

(** The same with Python integers: a negative bound counts from the end. *)
Definition norm_index (s : str) (i : Z) : nat :=
  if (i <? 0)%Z then Z.to_nat (Z.max 0 (i + Z.of_nat (length s))) else Z.to_nat i.

Definition zslice (s : str) (a b : Z) : str := slice s (norm_index s a) (norm_index s b).
Definition zslice_from (s : str) (a : Z) : str := slice_from s (norm_index s a).
Definition zslice_to (s : str) (b : Z) : str := slice_to s (norm_index s b).

Fixpoint prefixb (sub s : str) : bool :=
  match sub, s with
  | [], _ => true
  | x :: sub', y :: s' => Ascii.eqb x y && prefixb sub' s'
  | _ :: _, [] => false
  end.

(** [find_aux sub s i]: [s] is the text from offset [i] on. *)
Fixpoint find_aux (sub s : str) (i : nat) : option nat :=
  if prefixb sub s then Some i
  else match s with
       | [] => None
       | _ :: s' => find_aux sub s' (S i)
       end.

(** [content.find(sub, start)] *)
Definition find (content sub : str) (start : nat) : option nat :=
  if length content <? start then None else find_aux sub (skipn start content) start.

(** [sub in s] *)
Definition contains (sub s : str) : bool :=
  match find s sub 0 with Some _ => true | None => false end.

(** ['\n'.join(lines)] *)
Fixpoint join (sep : str) (lines : list str) : str :=
  match lines with
  | [] => []
  | [l] => l
  | l :: ls => l ++ sep ++ join sep ls
  end.

(** The line boundaries of [str.splitlines] below code point 256, [\r] apart:
    [\n], [\v], [\f], [\x1c], [\x1d], [\x1e] and [\x85]. *)
Definition is_linebreak (c : ascii) : bool :=
  match nat_of_ascii c with
  | 10 | 11 | 12 | 28 | 29 | 30 | 133 => true
  | _ => false
  end.

(** [cur] is the line read so far, last character first. *)
Fixpoint splitlines_aux (cur : str) (s : str) : list str :=
  match s with
  | [] => match cur with [] => [] | _ => [rev cur] end
  | c :: s' =>
      if Ascii.eqb c CR then
        match s' with
        | c' :: s'' =>
            if Ascii.eqb c' LF then rev cur :: splitlines_aux [] s''
            else rev cur :: splitlines_aux [] s'
        | [] => rev cur :: splitlines_aux [] s'
        end
      else if is_linebreak c then rev cur :: splitlines_aux [] s'
      else splitlines_aux (c :: cur) s'
  end.

(** [s.splitlines()] *)
Definition splitlines (s : str) : list str := splitlines_aux [] s.

(** ** Exceptions and loops *)

(** [ReadError] stands for what [open] and [read] raise on a path that
    exists and cannot be read as text: an [OSError] such as
    [IsADirectoryError] or [PermissionError], or [UnicodeDecodeError]. *)
Inductive exn := IndexError | TypeError | ReadError.

Inductive result (A : Type) :=
| Ok (a : A)
| Raise (e : exn)
| OutOfFuel.

Arguments Ok {A} a.
Arguments Raise {A} e.
Arguments OutOfFuel {A}.

Definition bind {A B} (x : result A) (f : A -> result B) : result B :=
  match x with
  | Ok a => f a
  | Raise e => Raise e
  | OutOfFuel => OutOfFuel
  end.

Notation "x <- e1 ;; e2" := (bind e1 (fun x => e2))
  (at level 61, e1 at next level, right associativity).

(** ** Lines *)

Definition add_found (i : option nat) (indices : list nat) : list nat :=
  match i with
  | Some n => n :: indices
  | None => indices
  end.

Definition found_at (i : option nat) (n : nat) : bool :=
  match i with
  | Some k => k =? n
  | None => false
  end.

Definition get_index_of_next_line (content : str) (index : nat) : nat :=
  let index_n := find content [LF] index in
  let index_r := find content [CR] index in
  let index_rn := find content [CR; LF] index in
  let indices := add_found index_n (add_found index_r (add_found index_rn [])) in
  match indices with
  | [] => length content
  | i :: others =>
      let index := fold_right Nat.min i others in
      if found_at index_rn index then index + 2 else index + 1
  end.

Definition is_empty_line (content : str) (index : nat) : bool :=
  get_index_of_next_line content index =? index + 1.

Fixpoint scan_past_empty_lines_loop (fuel : nat) (content : str) (index : nat)
  : result nat :=
  match fuel with
  | 0 => OutOfFuel
  | S fuel' =>
      if is_empty_line content index
      then scan_past_empty_lines_loop fuel' content (get_index_of_next_line content index)
      else Ok index
  end.

Definition scan_past_empty_lines (content : str) (index : nat) : result nat :=
  scan_past_empty_lines_loop (S (length content)) content index.

(** [content[index]] raises [IndexError] past the end; the slice does not. *)
Definition is_comment_line (content : str) (index : nat) : result bool :=
  match nth_error content index with
  | None => Raise IndexError
  | Some c =>
      Ok (Ascii.eqb c "#" || str_eqb (slice content index (index + 1)) (txt "//"))
  end.

Definition is_coding_line (content : str) (index : nat) : bool :=
  let end_index := get_index_of_next_line content index in
  let line := slice content index end_index in
  contains (txt "coding=") line || contains (txt "coding:") line.

Definition is_shebang_line (content : str) (index : nat) : bool :=
  str_eqb (slice content index (index + 2)) (txt "#!").

Fixpoint scan_past_coding_and_shebang_lines_loop (fuel : nat) (content : str)
  (index : nat) : result nat :=
  match fuel with
  | 0 => OutOfFuel
  | S fuel' =>
      c <- is_comment_line content index ;;
      if c && (is_coding_line content index || is_shebang_line content index)
      then scan_past_coding_and_shebang_lines_loop fuel' content
             (get_index_of_next_line content index)
      else Ok index
  end.

Definition scan_past_coding_and_shebang_lines (content : str) : result nat :=
  scan_past_coding_and_shebang_lines_loop (S (length content)) content 0.

(** ** Regular expressions

    The two patterns of the parser are run by a backtracking matcher with the
    priorities of Python's [re]: alternatives left to right, repetitions
    greedy, the search started at the leftmost offset that matches.  The
    matcher is written in continuation-passing style: [k] is what remains to
    be matched, and a branch that fails gives control back to the last
    choice. *)

Record mstate := MState {
  pos : nat;                         (* offset of the next character *)
  prev : option ascii;               (* the character before it, if any *)
  rest : str;                        (* the text from [pos] on *)
  caps : list (nat * (nat * nat))    (* groups closed so far, last first *)
}.

Inductive outcome :=
| Matched (st : mstate)
| NoMatch
| Exhausted.

Inductive regex :=
| Eps
| Cls (p : ascii -> bool)            (* one character of a class *)
| Seq (a b : regex)
| Alt (a b : regex)                  (* [a|b] *)
| Star (a : regex)                   (* [a*], greedy *)
| Group (n : nat) (a : regex)        (* capturing group number [n] *)
| Bol                                (* [^] with re.MULTILINE *)
| Eol.                               (* [$] with re.MULTILINE *)

Definition orelse (a : outcome) (b : unit -> outcome) : outcome :=
  match a with
  | NoMatch => b tt
  | _ => a
  end.

Definition at_bol (st : mstate) : bool :=
  match prev st with
  | None => true
  | Some c => Ascii.eqb c LF
  end.

Definition at_eol (st : mstate) : bool :=
  match rest st with
  | [] => true
  | c :: _ => Ascii.eqb c LF
  end.

Definition step (st : mstate) (c : ascii) (cs : str) : mstate :=
  MState (S (pos st)) (Some c) cs (caps st).

Definition close_group (n : nat) (start : nat) (st : mstate) : mstate :=
  MState (pos st) (prev st) (rest st) ((n, (start, pos st)) :: caps st).

(** One more iteration of the body if it consumes something, else [k]. *)
Fixpoint star_loop (body : (mstate -> outcome) -> mstate -> outcome)
  (k : mstate -> outcome) (fuel : nat) (st : mstate) : outcome :=
  match fuel with
  | 0 => Exhausted
  | S fuel' =>
      orelse
        (body (fun st' =>
                 if length (rest st') <? length (rest st)
                 then star_loop body k fuel' st'
                 else NoMatch) st)
        (fun _ => k st)
  end.

Fixpoint rmatch (r : regex) (k : mstate -> outcome) (st : mstate) : outcome :=
  match r with
  | Eps => k st
  | Cls p =>
      match rest st with
      | c :: cs => if p c then k (step st c cs) else NoMatch
      | [] => NoMatch
      end
  | Seq a b => rmatch a (rmatch b k) st
  | Alt a b => orelse (rmatch a k st) (fun _ => rmatch b k st)
  | Star a => star_loop (rmatch a) k (S (length (rest st))) st
  | Group n a => rmatch a (fun st' => k (close_group n (pos st) st')) st
  | Bol => if at_bol st then k st else NoMatch
  | Eol => if at_eol st then k st else NoMatch
  end.

(** Try the offsets from [pos0] on, leftmost first. *)
Fixpoint search_from (r : regex) (p : option ascii) (s : str) (pos0 : nat)
  : outcome :=
  orelse (rmatch r Matched (MState pos0 p s []))
    (fun _ => match s with
              | [] => NoMatch
              | c :: s' => search_from r (Some c) s' (S pos0)
              end).

Definition char_before (content : str) (index : nat) : option ascii :=
  match index with
  | 0 => None
  | S i => nth_error content i
  end.

(** [regex.search(content, index)]; [index] is clamped to the length. *)
Definition search (r : regex) (content : str) (index : nat) : outcome :=
  let index := Nat.min index (length content) in
  search_from r (char_before content index) (skipn index content) index.

Fixpoint lookup_group (n : nat) (c : list (nat * (nat * nat))) : option (nat * nat) :=
  match c with
  | [] => None
  | (g, sp) :: c' => if g =? n then Some sp else lookup_group n c'
  end.

(** [match.span(n)] *)
Definition span (st : mstate) (n : nat) : Z * Z :=
  match lookup_group n (caps st) with
  | Some (a, b) => (Z.of_nat a, Z.of_nat b)
  | None => ((-1)%Z, (-1)%Z)
  end.

(** [match.start(n)] and [match.group(n)] of a group that took part. *)
Definition group_start (st : mstate) (n : nat) : Z := fst (span st n).

Definition group_text (content : str) (st : mstate) (n : nat) : option str :=
  match lookup_group n (caps st) with
  | Some (a, b) => Some (slice content a b)
  | None => None
  end.

(** Derived forms. *)
Definition lit (s : str) : regex :=
  fold_right (fun c r => Seq (Cls (Ascii.eqb c)) r) Eps s.
Definition opt (r : regex) : regex := Alt r Eps.
Definition plus (r : regex) : regex := Seq r (Star r).
Definition rep4 (r : regex) : regex := Seq r (Seq r (Seq r r)).

(** [\d], [\s] and [[^\n\r]] below code point 256. *)
Definition is_digit (c : ascii) : bool :=
  (48 <=? nat_of_ascii c) && (nat_of_ascii c <=? 57).

Definition is_space (c : ascii) : bool :=
  match nat_of_ascii c with
  | 9 | 10 | 11 | 12 | 13 | 28 | 29 | 30 | 31 | 32 | 133 | 160 => true
  | _ => false
  end.

Definition not_nl_cr (c : ascii) : bool :=
  negb (Ascii.eqb c LF) && negb (Ascii.eqb c CR).

(** The pattern of [_search_copyright_information], piece by piece: start of
    line; at most one character other than a line feed or carriage return;
    any white space; group 1, the word Copyright; white space; group 2, a
    year or year range followed by any number of (comma, any white space,
    year or year range); white space; group 3, one or more characters other
    than a line feed or carriage return; end of line.  A year is four
    digits, a year range two years around a dash, and the year is tried
    before the year range. *)
Definition year : regex := rep4 (Cls is_digit).
Definition year_range : regex := Seq year (Seq (lit (txt "-")) year).
Definition year_or_year_range : regex := Alt year year_range.

Definition years_more : regex :=
  Seq (lit (txt ",")) (Seq (Star (Cls is_space)) year_or_year_range).

Definition years_list : regex := Seq year_or_year_range (Star years_more).

Definition copyright_pattern : regex :=
  Seq Bol
 (Seq (opt (Cls not_nl_cr))
 (Seq (Star (Cls is_space))
 (Seq (Group 1 (lit (txt "Copyright")))
 (Seq (plus (Cls is_space))
 (Seq (Group 2 years_list)
 (Seq (plus (Cls is_space))
 (Seq (Group 3 (plus (Cls not_nl_cr)))
      Eol))))))).

Definition span3 := (option (Z * Z) * option (Z * Z) * option (Z * Z))%type.

Definition _search_copyright_information (content : str) : result span3 :=
  match search copyright_pattern content 0 with
  | Exhausted => OutOfFuel
  | NoMatch => Ok (None, None, None)
  | Matched m => Ok (Some (span m 1), Some (span m 2), Some (span m 3))
  end.

(** The pattern of [get_comment_block]: start of line, then group 1, a
    hash sign or two slashes. *)
Definition comment_pattern : regex :=
  Seq Bol (Group 1 (Alt (lit (txt "#")) (lit (txt "//")))).

Fixpoint get_comment_block_loop (fuel : nat) (content comment_token : str)
  (end_index : nat) : result nat :=
  match fuel with
  | 0 => OutOfFuel
  | S fuel' =>
      let end_index := get_index_of_next_line content end_index in
      if negb (str_eqb (slice content end_index (end_index + length comment_token))
                       comment_token)
      then Ok end_index
      else get_comment_block_loop fuel' content comment_token end_index
  end.

Definition get_comment_block (content : str) (index : nat)
  : result (option str * option nat) :=
  match search comment_pattern content index with
  | Exhausted => OutOfFuel
  | NoMatch => Ok (None, None)
  | Matched m =>
      match group_text content m 1 with
      | None => Raise TypeError
      | Some comment_token =>
          let start_index := Z.to_nat (group_start m 1) in
          end_index <- get_comment_block_loop (S (length content)) content
                         comment_token start_index ;;
          let block := slice content start_index end_index in
          let lines := splitlines block in
          let lines := map (fun line => slice_from line (length comment_token + 1)) lines in
          Ok (Some (join [LF] lines), Some (start_index + length comment_token + 1))
      end
  end.

(** ** File descriptors *)

Inductive filetype := SOURCE_FILETYPE | CONTRIBUTING_FILETYPE | LICENSE_FILETYPE.

(** The attributes of [FileDescriptor] and of its three subclasses; [None]
    is Python's [None].  A [ContributingDescriptor] has no copyright
    attribute: its three copyright fields stay [None]. *)
Record FileDescriptor := Descriptor {
  file_type : filetype;
  file_exists : bool;
  content : option str;
  copyright_name : option str;
  copyright_years : option str;
  copyright_identifier : option str;
  license_identifier : option str
}.

Definition set_content (d : FileDescriptor) (v : option str) : FileDescriptor :=
  Descriptor (file_type d) (file_exists d) v (copyright_name d) (copyright_years d)
    (copyright_identifier d) (license_identifier d).

Definition set_copyright_name (d : FileDescriptor) (v : option str) : FileDescriptor :=
  Descriptor (file_type d) (file_exists d) (content d) v (copyright_years d)
    (copyright_identifier d) (license_identifier d).

Definition set_copyright_years (d : FileDescriptor) (v : option str) : FileDescriptor :=
  Descriptor (file_type d) (file_exists d) (content d) (copyright_name d) v
    (copyright_identifier d) (license_identifier d).

Definition set_copyright_identifier (d : FileDescriptor) (v : option str)
  : FileDescriptor :=
  Descriptor (file_type d) (file_exists d) (content d) (copyright_name d)
    (copyright_years d) v (license_identifier d).

Definition set_license_identifier (d : FileDescriptor) (v : option str)
  : FileDescriptor :=
  Descriptor (file_type d) (file_exists d) (content d) (copyright_name d)
    (copyright_years d) (copyright_identifier d) v.

(** [__init__]: [file_exists] is what [os.path.exists(path)] answers.  The
    [__init__] of [ContributingDescriptor] creates [license_identifier]
    only: for that type the three copyright fields of the record stand for
    attributes the object does not have, and no code reads them. *)
Definition new_descriptor (t : filetype) (file_exists : bool) : FileDescriptor :=
  Descriptor t file_exists None None None None None.

Definition SourceDescriptor := new_descriptor SOURCE_FILETYPE.
Definition ContributingDescriptor := new_descriptor CONTRIBUTING_FILETYPE.
Definition LicenseDescriptor := new_descriptor LICENSE_FILETYPE.

(** [read]: [text] is what reading the file at [path] returns. *)
Definition read (d : FileDescriptor) (text : str) : FileDescriptor :=
  if negb (file_exists d) then d else set_content d (Some text).

(** An entry of [get_licenses()]; the three templates it carries. *)
Record LicenseEntryPoint := License {
  file_header : str;
  license_file : str;
  contributing_file : str
}.

Inductive license_part := part_file_header | part_license_file | part_contributing_file.

(** [getattr(license, license_part)] *)
Definition getattr (l : LicenseEntryPoint) (p : license_part) : str :=
  match p with
  | part_file_header => file_header l
  | part_license_file => license_file l
  | part_contributing_file => contributing_file l
  end.

Definition placeholder : str := txt "{copyright}".

Section Registries.

(** What the module imports from the package and [src/] does not hold: the
    sentinel and the two registries, dictionaries in their iteration
    order. *)
Variable UNKNOWN_IDENTIFIER : str.
Variable copyright_names : list (str * str).
Variable licenses : list (str * LicenseEntryPoint).

(** The [for ... else] of [identify_copyright]. *)
Fixpoint identify_copyright_loop (items : list (str * str)) (name : option str)
  : str :=
  match items with
  | [] => UNKNOWN_IDENTIFIER
  | (identifier, n) :: items' =>
      if match name with
         | Some cn => str_eqb cn n
         | None => false
         end
      then identifier
      else identify_copyright_loop items' name
  end.

Definition identify_copyright (d : FileDescriptor) : FileDescriptor :=
  set_copyright_identifier d
    (Some (identify_copyright_loop copyright_names (copyright_name d))).

(** The [for ... else] of [identify_license]. *)
Fixpoint identify_license_loop (items : list (str * LicenseEntryPoint))
  (content : option str) (part : license_part) : str :=
  match items with
  | [] => UNKNOWN_IDENTIFIER
  | (name, license) :: items' =>
      if match content with
         | Some c => str_eqb (getattr license part) c
         | None => false
         end
      then name
      else identify_license_loop items' content part
  end.

Definition identify_license (d : FileDescriptor) (content : option str)
  (part : license_part) : FileDescriptor :=
  set_license_identifier d (Some (identify_license_loop licenses content part)).

(** Subscripting a span that is [None] raises [TypeError]. *)
Definition subscript (sp : option (Z * Z)) : result (Z * Z) :=
  match sp with
  | Some s => Ok s
  | None => Raise TypeError
  end.

Definition SourceDescriptor_parse (d : FileDescriptor) (text : str)
  : result FileDescriptor :=
  let d := read d text in
  match content d with
  | None | Some [] => Ok d
  | Some content =>
      index <- scan_past_coding_and_shebang_lines content ;;
      index <- scan_past_empty_lines content index ;;
      found <- get_comment_block content index ;;
      match fst found with
      | None | Some [] => Ok d
      | Some block =>
          spans <- _search_copyright_information block ;;
          let '(copyright_span, years_span, name_span) := spans in
          match copyright_span with
          | None => Ok d
          | Some _ =>
              ys <- subscript years_span ;;
              let d := set_copyright_years d (Some (zslice block (fst ys) (snd ys))) in
              ns <- subscript name_span ;;
              let d := set_copyright_name d (Some (zslice block (fst ns) (snd ns))) in
              let d := identify_copyright d in
              let content := placeholder ++ zslice_from block (snd ns) in
              Ok (identify_license d (Some content) part_file_header)
          end
      end
  end.

Definition ContributingDescriptor_parse (d : FileDescriptor) (text : str)
  : result FileDescriptor :=
  let d := read d text in
  match content d with
  | None | Some [] => Ok d
  | Some content => Ok (identify_license d (Some content) part_contributing_file)
  end.

(** Returns the new content and the descriptor it has written to. *)
Definition _replace_copyright_with_placeholder (content : str)
  (file_descriptor : FileDescriptor) : result (option str * FileDescriptor) :=
  spans <- _search_copyright_information content ;;
  let '(copyright_span, years_span, name_span) := spans in
  match copyright_span with
  | None => Ok (None, file_descriptor)
  | Some cs =>
      ys <- subscript years_span ;;
      let d := set_copyright_years file_descriptor
                 (Some (zslice content (fst ys) (snd ys))) in
      ns <- subscript name_span ;;
      let d := set_copyright_name d (Some (zslice content (fst ns) (snd ns))) in
      Ok (Some (zslice_to content (fst cs) ++ placeholder
                ++ zslice_from content (snd ns)), d)
  end.

Definition LicenseDescriptor_parse (d : FileDescriptor) (text : str)
  : result FileDescriptor :=
  let d := read d text in
  match content d with
  | None | Some [] => Ok d
  | Some content =>
      let d := identify_copyright d in
      replaced <- _replace_copyright_with_placeholder content d ;;
      let '(content, d) := replaced in
      Ok (identify_license d content part_license_file)
  end.

(** [parse_file] once [determine_filetype] has answered. *)
Definition parse_as (t : filetype) (file_exists : bool) (text : str)
  : result FileDescriptor :=
  match t with
  | SOURCE_FILETYPE => SourceDescriptor_parse (SourceDescriptor file_exists) text
  | CONTRIBUTING_FILETYPE =>
      ContributingDescriptor_parse (ContributingDescriptor file_exists) text
  | LICENSE_FILETYPE => LicenseDescriptor_parse (LicenseDescriptor file_exists) text
  end.

End Registries.

(** * Paths and the choice of the classifier *)

(** [s.rfind(sub)]: the highest offset at which [sub] starts, [-1] when it
    starts nowhere.  [s] is the text from offset [i] on and [last] the
    highest offset found before [i]. *)
Fixpoint rfind_aux (sub s : str) (i : nat) (last : Z) : Z :=
  let last' := if prefixb sub s then Z.of_nat i else last in
  match s with
  | [] => last'
  | _ :: s' => rfind_aux sub s' (S i) last'
  end.

Definition rfind (s sub : str) : Z := rfind_aux sub s 0 (-1)%Z.

Definition sep : str := txt "/".

(** [os.path.basename] of [posixpath]:
    [i = p.rfind(sep) + 1; return p[i:]]. *)
Definition basename (p : str) : str := zslice_from p (rfind p sep + 1).

(** [s.rstrip(c)] for a single character [c]. *)
Fixpoint lstrip (c : ascii) (s : str) : str :=
  match s with
  | [] => []
  | x :: s' => if Ascii.eqb x c then lstrip c s' else s
  end.

Definition rstrip (s : str) (c : ascii) : str := rev (lstrip c (rev s)).

(** [os.path.dirname] of [posixpath]:
    [i = p.rfind(sep) + 1; head = p[:i]]; the slashes that end [head] are
    removed unless [head] is made of slashes only. *)
Definition dirname (p : str) : str :=
  let head := zslice_to p (rfind p sep + 1) in
  match head with
  | [] => head
  | _ :: _ =>
      if negb (str_eqb head (repeat "/"%char (length head)))
      then rstrip head "/"%char
      else head
  end.

(** [ALL_FILETYPES] is a dictionary of the package, from each file type to
    the file name that selects it, [None] for a type no name selects; it is
    a parameter here, in the order of its items. *)
Fixpoint determine_filetype_loop (items : list (filetype * option str))
  (basename : str) : filetype :=
  match items with
  | [] => SOURCE_FILETYPE
  | (filetype, filename) :: items' =>
      if match filename with
         | Some filename => str_eqb basename filename
         | None => false
         end
      then filetype
      else determine_filetype_loop items' basename
  end.

Definition determine_filetype (ALL_FILETYPES : list (filetype * option str))
  (path : str) : filetype :=
  determine_filetype_loop ALL_FILETYPES (basename path).

(** What the file system holds at a path: nothing, a file that [read]
    returns the text of, or something [open] or [read] fail on (a directory,
    a file without read permission, bytes that do not decode). *)
Inductive file_at :=
| Missing
| Readable (text : str)
| Unreadable.

(** [parse_file].  The three types of the package are the only values
    [determine_filetype] answers, so a descriptor is made for each.  Every
    [parse] starts with [self.read()], which opens the file when it exists:
    what [open] or [read] raise leaves [parse] and [parse_file] before
    anything else is done. *)
Definition parse_file (UNKNOWN_IDENTIFIER : str)
  (copyright_names : list (str * str))
  (licenses : list (str * LicenseEntryPoint))
  (ALL_FILETYPES : list (filetype * option str))
  (fs : str -> file_at) (path : str) : result FileDescriptor :=
  let filetype := determine_filetype ALL_FILETYPES path in
  match fs path with
  | Missing =>
      parse_as UNKNOWN_IDENTIFIER copyright_names licenses filetype false []
  | Readable text =>
      parse_as UNKNOWN_IDENTIFIER copyright_names licenses filetype true text
  | Unreadable => Raise ReadError
  end.

(** * The report of [ament_clang_tidy] *)

(** [find_error_message]: [data[data.rfind(':') + 2:]]. *)
Definition find_error_message (data : str) : str :=
  zslice_from data (rfind data (txt ":") + 2).

(** The extensions [main] looks for. *)
Definition extensions : list str :=
  [txt "c"; txt "cc"; txt "cpp"; txt "cxx"; txt "h"; txt "hh"; txt "hpp";
   txt "hxx"].

(** [(?:a|b|...)] for ['|'.join] of the words. *)
Fixpoint alternatives (words : list str) : regex :=
  match words with
  | [] => Eps
  | [w] => lit w
  | w :: words' => Alt (lit w) (alternatives words')
  end.

(** The dot of a pattern compiled without [re.DOTALL]. *)
Definition not_nl (c : ascii) : bool := negb (Ascii.eqb c LF).

(** [error_re]: a slash, any characters, a dot and an extension in group 1,
    then a colon, digits in group 2, a colon, digits in group 3 and a
    colon. *)
Definition error_re (extensions : list str) : regex :=
  Seq (Group 1 (Seq (lit (txt "/"))
               (Seq (Star (Cls not_nl))
               (Seq (lit (txt "."))
                    (alternatives extensions)))))
 (Seq (lit (txt ":"))
 (Seq (Group 2 (plus (Cls is_digit)))
 (Seq (lit (txt ":"))
 (Seq (Group 3 (plus (Cls is_digit)))
      (lit (txt ":")))))).

(** The dictionary [data]: a key that is not set is [None]. *)
Record error_data := ErrorData {
  line_no : option str;
  offset_in_line : option str;
  error_msg : option str;
  code_correct_rec : option str
}.

Definition no_data : error_data := ErrorData None None None None.

(** [report] is a [defaultdict(list)], kept in the order its keys came in. *)
Definition report_type := list (str * list error_data).

(** [report[file].append(entry)] *)
Fixpoint report_append (report : report_type) (file : str) (entry : error_data)
  : report_type :=
  match report with
  | [] => [(file, [entry])]
  | (f, errors) :: report' =>
      if str_eqb f file then (f, errors ++ [entry]) :: report'
      else (f, errors) :: report_append report' file entry
  end.

(** What the loop of [main] over the outputs carries along. *)
Record report_state := ReportState {
  report : report_type;
  current_file : option str;
  data : error_data
}.

Definition initial_report_state : report_state := ReportState [] None no_data.

(** The body of the loop over the lines of one output. *)
Definition report_line (error_re : regex) (st : report_state) (line : str)
  : result report_state :=
  match search error_re line 0 with
  | Matched m =>
      let new_file := group_text line m 1 in
      let '(report, data) :=
        match current_file st with
        | Some file => (report_append (report st) file (data st), no_data)
        | None => (report st, data st)
        end in
      Ok (ReportState report new_file
            (ErrorData (group_text line m 2) (group_text line m 3)
               (Some (find_error_message line)) (code_correct_rec data)))
  | NoMatch =>
      let before :=
        match code_correct_rec (data st) with
        | Some s => s
        | None => []
        end in
      Ok (ReportState (report st) (current_file st)
            (ErrorData (line_no (data st)) (offset_in_line (data st))
               (error_msg (data st)) (Some (before ++ line ++ [LF]))))
  | Exhausted => OutOfFuel
  end.

Fixpoint report_lines (error_re : regex) (st : report_state) (lines : list str)
  : result report_state :=
  match lines with
  | [] => Ok st
  | line :: lines' =>
      st' <- report_line error_re st line ;;
      report_lines error_re st' lines'
  end.

(** One output: its lines, then the entry that is added at its end. *)
Definition report_output (error_re : regex) (st : report_state) (output : str)
  : result report_state :=
  st' <- report_lines error_re st (splitlines output) ;;
  Ok match current_file st' with
     | Some file =>
         ReportState (report_append (report st') file (data st'))
           (current_file st') (data st')
     | None => st'
     end.

Fixpoint report_outputs (error_re : regex) (st : report_state)
  (outputs : list str) : result report_state :=
  match outputs with
  | [] => Ok st
  | output :: outputs' =>
      st' <- report_output error_re st output ;;
      report_outputs error_re st' outputs'
  end.

(** The report [main] hands to [get_xunit_content]. *)
Definition build_report (outputs : list str) : result report_type :=
  st <- report_outputs (error_re extensions) initial_report_state outputs ;;
  Ok (report st).

(** The two counters of [get_xunit_content]. *)
Definition test_count (report : report_type) : nat :=
  list_sum (map (fun r => Nat.max (length (snd r)) 1) report).

Definition error_count (report : report_type) : nat :=
  list_sum (map (fun r => length (snd r)) report).

(** [s.endswith(suffix)] *)
Definition endswith (s suffix : str) : bool := prefixb (rev suffix) (rev s).

(** The name of the test suite, as [main] derives it from the path of the
    xunit file. *)
Definition testname (xunit_file : str) : str :=
  let folder_name := basename (dirname xunit_file) in
  let file_name := basename xunit_file in
  let suffix := txt ".xml" in
  let file_name :=
    if endswith file_name suffix then
      let file_name := zslice file_name 0 (- Z.of_nat (length suffix)) in
      let suffix := txt ".xunit" in
      if endswith file_name suffix
      then zslice file_name 0 (- Z.of_nat (length suffix))
      else file_name
    else file_name in
  folder_name ++ txt "." ++ file_name.

(** * Notions of the specification *)

(** What one step of [get_index_of_next_line] does, read off the text: [p]
    is the offset of the first line feed or carriage return from [index]
    on. *)
Definition one_line_step (content : str) (index r : nat) : Prop :=
  ((forall q c, index <= q -> nth_error content q = Some c -> c <> LF /\ c <> CR)
   /\ r = length content)
  \/ exists p,
       index <= p
       /\ (forall q c, index <= q < p -> nth_error content q = Some c ->
                       c <> LF /\ c <> CR)
       /\ ((nth_error content p = Some LF /\ r = p + 1)
           \/ (nth_error content p = Some CR
               /\ nth_error content (S p) = Some LF /\ r = p + 2)
           \/ (nth_error content p = Some CR
               /\ nth_error content (S p) <> Some LF /\ r = p + 1)).


(** ** Sample inputs *)

Definition crlf_then_x : str := [CR; LF; "x"%char].
Definition lf_then_x : str := [LF; "x"%char].

Definition slash_coding_file : str :=
  txt "// -*- coding: utf-8 -*-" ++ [LF] ++ txt "int x;".
Definition hash_coding_file : str :=
  txt "# -*- coding: utf-8 -*-" ++ [LF] ++ txt "x = 1".

(** ** What a pattern can match

    [reach r st st'] : matching [r] from the state [st] can end in [st'],
    whatever the priorities. *)
Inductive reach : regex -> mstate -> mstate -> Prop :=
| reach_eps st : reach Eps st st
| reach_cls p st c cs :
    rest st = c :: cs -> p c = true -> reach (Cls p) st (step st c cs)
| reach_seq a b st st1 st2 :
    reach a st st1 -> reach b st1 st2 -> reach (Seq a b) st st2
| reach_alt_l a b st st' : reach a st st' -> reach (Alt a b) st st'
| reach_alt_r a b st st' : reach b st st' -> reach (Alt a b) st st'
| reach_star_stop a st : reach (Star a) st st
| reach_star_more a st st1 st2 :
    reach a st st1 -> reach (Star a) st1 st2 -> reach (Star a) st st2
| reach_group n a st st' :
    reach a st st' -> reach (Group n a) st (close_group n (pos st) st')
| reach_bol st : at_bol st = true -> reach Bol st st
| reach_eol st : at_eol st = true -> reach Eol st st.

(** The state after the characters [w] have been read. *)
Fixpoint advance (st : mstate) (w : str) : mstate :=
  match w with
  | [] => st
  | c :: w' => advance (step st c (tl (rest st))) w'
  end.

(** A pattern without capturing group. *)
Fixpoint no_group (r : regex) : bool :=
  match r with
  | Eps | Cls _ | Bol | Eol => true
  | Seq a b | Alt a b => no_group a && no_group b
  | Star a => no_group a
  | Group _ _ => false
  end.

(** The least number of characters a match of the pattern reads. *)
Fixpoint min_len (r : regex) : nat :=
  match r with
  | Eps | Bol | Eol => 0
  | Cls _ => 1
  | Seq a b => min_len a + min_len b
  | Alt a b => Nat.min (min_len a) (min_len b)
  | Star _ => 0
  | Group _ a => min_len a
  end.

(** The state [st] is at offset [pos st] of [content]. *)
Definition in_text (content : str) (st : mstate) : Prop :=
  rest st = skipn (pos st) content /\ pos st <= length content.

(** ** Well-formed copyright statements *)

(** A year: four digits. *)
Definition is_year (y : str) : bool :=
  match y with
  | [a; b; c; d] => is_digit a && is_digit b && is_digit c && is_digit d
  | _ => false
  end.

Inductive year_token :=
| Year (y : str)
| YearRange (y1 y2 : str).

Definition token_ok (t : year_token) : bool :=
  match t with
  | Year y => is_year y
  | YearRange y1 y2 => is_year y1 && is_year y2
  end.

Definition token_text (t : year_token) : str :=
  match t with
  | Year y => y
  | YearRange y1 y2 => y1 ++ txt "-" ++ y2
  end.

(** The tokens after the first: each comes after a comma and white space. *)
Definition more_ok (more : list (str * year_token)) : bool :=
  forallb (fun e => forallb is_space (fst e) && token_ok (snd e)) more.

Fixpoint more_text (more : list (str * year_token)) : str :=
  match more with
  | [] => []
  | (sep, t) :: more' => txt "," ++ sep ++ token_text t ++ more_text more'
  end.

Definition years_text (t : year_token) (more : list (str * year_token)) : str :=
  token_text t ++ more_text more.

(** Non-empty white space. *)
Definition is_spacing (w : str) : bool :=
  match w with
  | [] => false
  | _ => forallb is_space w
  end.

(** A holder name: it does not start with white space and stays on its
    line. *)
Definition is_holder_name (name : str) : bool :=
  match name with
  | [] => false
  | c :: _ => negb (is_space c) && forallb not_nl_cr name
  end.

(** What may follow the statement: nothing, or a line feed and more text. *)
Definition ends_line (tail : str) : bool :=
  match tail with
  | [] => true
  | c :: _ => Ascii.eqb c LF
  end.

Definition copyright_statement (ws1 : str) (t : year_token)
  (more : list (str * year_token)) (ws2 name : str) : str :=
  txt "Copyright" ++ ws1 ++ years_text t more ++ ws2 ++ name.

(** [s] starts with the character [c]. *)
Definition starts_with (c : ascii) (s : str) : bool :=
  match s with
  | [] => false
  | x :: _ => Ascii.eqb x c
  end.

Definition jane_doe_2019 : str := txt "Copyright 2019 Jane Doe".
Definition jane_doe_range : str := txt "Copyright 2015-2019 Jane Doe".
Definition jane_doe_list : str := txt "Copyright 2015, 2017, 2019 Jane Doe".
Definition notice_tail : str :=
  txt "Copyright 2015 Foo Corp" ++ [LF] ++ txt "Licensed under the terms.".

(** ** Sample registries and files *)

Definition unknown : str := txt "unknown".

Definition sample_names : list (str * str) := [(txt "foo", txt "Foo Corp")].

Definition sample_license : LicenseEntryPoint :=
  License (placeholder ++ [LF] ++ txt "Licensed under the terms.")
          (txt "Terms" ++ [LF] ++ placeholder ++ [LF] ++ txt "All rights reserved.")
          (txt "Contributions are under the terms.").

Definition sample_licenses : list (str * LicenseEntryPoint) :=
  [(txt "terms", sample_license)].

Definition foo_license_file : str :=
  txt "Terms" ++ [LF] ++ txt "Copyright 2015 Foo Corp" ++ [LF]
    ++ txt "All rights reserved.".

Definition foo_source_file : str :=
  txt "# Copyright 2015 Foo Corp" ++ [LF] ++ txt "# Licensed under the terms."
    ++ [LF].

Definition plain_license_file : str := txt "No statement in this file.".

Definition notice_source_file : str :=
  txt "# Notice" ++ [LF] ++ txt "# Copyright 2015 Foo Corp" ++ [LF]
    ++ txt "# Licensed under the terms." ++ [LF].

Definition notice_block : str :=
  txt "Notice" ++ [LF] ++ txt "Copyright 2015 Foo Corp" ++ [LF]
    ++ txt "Licensed under the terms.".

(** ** Presenting a text as the comment block of a source file *)

Inductive marker := Hash | Slashes.

Definition marker_text (k : marker) : str :=
  match k with
  | Hash => txt "#"
  | Slashes => txt "//"
  end.

(** Each line after the marker and a space, each line ended by a line
    feed. *)
Fixpoint comment_text (k : marker) (lines : list str) : str :=
  match lines with
  | [] => []
  | l :: ls => (marker_text k ++ txt " " ++ l) ++ LF :: comment_text k ls
  end.

(** A character that ends a line for [str.splitlines]. *)
Definition is_boundary (c : ascii) : bool := is_linebreak c || Ascii.eqb c CR.

Definition single_line (s : str) : bool := forallb (fun c => negb (is_boundary c)) s.

(** The template with its first placeholder replaced by [statement]. *)
Fixpoint substitute (template statement : str) : str :=
  match template with
  | [] => []
  | c :: template' =>
      if prefixb placeholder template
      then statement ++ skipn (length placeholder) template
      else c :: substitute template' statement
  end.

Definition notice_license : LicenseEntryPoint :=
  License (txt "Notice" ++ [LF] ++ placeholder ++ [LF]
             ++ txt "Licensed under the terms.")
          (txt "Terms") (txt "Contributions").

Definition foo_statement : str := txt "Copyright 2015 Foo Corp".

Definition foo_statement_and_more : str :=
  txt "Copyright 2015 Foo Corp" ++ [LF] ++ txt "All rights reserved.".

Definition reserved_source_file : str :=
  comment_text Hash
    [txt "Copyright 2015 Foo Corp"; txt "All rights reserved.";
     txt "Licensed under the terms."].

(** * Notions used by the further properties *)

(** The character before the text [s'] when [pre] has been read after [p]. *)
Definition last_before (p : option ascii) (pre : str) : option ascii :=
  match rev pre with
  | [] => p
  | c :: _ => Some c
  end.

(** The offset [q] is the start of a line of [content]. *)
Definition line_start (content : str) (q : nat) : bool :=
  match char_before content q with
  | None => true
  | Some c => Ascii.eqb c LF
  end.

(** The marker that starts the text [s], if one does: the hash sign is tried
    before the two slashes. *)
Definition marker_of (s : str) : option str :=
  if prefixb (txt "#") s then Some (txt "#")
  else if prefixb (txt "//") s then Some (txt "//")
  else None.

(** A line that starts with a comment marker starts at [q]. *)
Definition comment_line_at (content : str) (q : nat) : bool :=
  line_start content q
  && match marker_of (skipn q content) with Some _ => true | None => false end.

(** A result moved by [n] offsets. *)
Definition shift_result (n : nat) (r : result nat) : result nat :=
  match r with
  | Ok i => Ok (n + i)
  | Raise e => Raise e
  | OutOfFuel => OutOfFuel
  end.

(** A line the Preamble Scanner skips, given without its terminator: it
    starts with a hash sign and holds an encoding declaration or starts with
    the interpreter mark.  The test for the declaration reads the line with
    its terminator. *)
Definition is_preamble_line (l : str) : bool :=
  starts_with "#" l
  && (contains (txt "coding=") (l ++ [LF]) || contains (txt "coding:") (l ++ [LF])
      || prefixb (txt "#!") l).

(** Lines, each ended by a line feed. *)
Fixpoint lines_text (lines : list str) : str :=
  match lines with
  | [] => []
  | l :: ls => l ++ LF :: lines_text ls
  end.

(** ** Further sample inputs *)

Definition slash_block_file : str :=
  comment_text Slashes [txt "first"; txt "second"] ++ txt "# other marker".

Definition script_file : str :=
  lines_text [txt "#!/usr/bin/env python3"; txt "# -*- coding: utf-8 -*-"]
    ++ txt "# Copyright 2019 Jane Doe" ++ [LF].

Definition shebang_only_file : str := lines_text [txt "#!/bin/sh"].

Definition crlf_statement_file : str := txt "Copyright 2019 Jane Doe" ++ [CR; LF].

(** The part of the copyright pattern that follows the word. *)
Definition after_word : regex :=
  Seq (plus (Cls is_space))
 (Seq (Group 2 years_list)
 (Seq (plus (Cls is_space))
 (Seq (Group 3 (plus (Cls not_nl_cr)))
      Eol))).

(** The text [pre] is empty or ends with a line feed. *)
Definition ends_with_line_feed (pre : str) : bool :=
  match rev pre with
  | [] => true
  | c :: _ => Ascii.eqb c LF
  end.

(** ** Notions used by the properties of paths and of the report *)

(** The text [p] is empty or ends with a slash: what comes before the last
    components of a path. *)
Definition is_directory_prefix (p : str) : bool :=
  match rev p with
  | [] => true
  | c :: _ => Ascii.eqb c "/"%char
  end.

(** A file system without any file, and one that holds one thing. *)
Definition no_file : str -> file_at := fun _ => Missing.

Definition one_file (path : str) (f : file_at) : str -> file_at :=
  fun p => if str_eqb p path then f else Missing.

Definition sample_filetypes : list (filetype * option str) :=
  [(SOURCE_FILETYPE, None);
   (CONTRIBUTING_FILETYPE, Some (txt "CONTRIBUTING.md"));
   (LICENSE_FILETYPE, Some (txt "LICENSE"))].

(** The line holds a location the pattern of the report finds. *)
Definition is_error_line (re : regex) (line : str) : bool :=
  match search re line 0 with
  | Matched _ => true
  | _ => false
  end.

(** The number of such lines in an output, and in all outputs. *)
Definition error_lines (re : regex) (output : str) : nat :=
  length (filter (is_error_line re) (splitlines output)).

Definition total_error_lines (re : regex) (outputs : list str) : nat :=
  list_sum (map (error_lines re) outputs).

(** A file has been met. *)
Definition file_seen (st : report_state) : bool :=
  match current_file st with
  | Some _ => true
  | None => false
  end.

(** No file of the report has an empty list. *)
Definition no_empty_list (report : report_type) : Prop :=
  forall file errors, In (file, errors) report -> errors <> [].

(** The files of the report that have no error. *)
Definition files_without_error (report : report_type) : nat :=
  length (filter (fun r => match snd r with [] => true | _ => false end) report).

Definition warning_line : str :=
  txt "/ws/src/pkg/src/node.cpp:12:5: warning: use nullptr [modernize-use-nullptr]".

Definition warning_output : str :=
  warning_line ++ [LF] ++ txt "  int *p = 0;" ++ [LF].

Definition clean_output : str := txt "1 warning generated." ++ [LF].

(** ** The license a string selects *)

(** [id] is what comparing the string [s] with the part [part] of each
    registered license, in registry order, assigns: the key of the first
    license whose part equals [s], and the sentinel when no part does. *)
Definition first_license_with (U : str)
  (licenses : list (str * LicenseEntryPoint)) (part : license_part) (s : str)
  (id : option str) : Prop :=
  (exists before key lic after,
     licenses = before ++ (key, lic) :: after
     /\ getattr lic part = s
     /\ (forall e, In e before -> getattr (snd e) part <> s)
     /\ id = Some key)
  \/ ((forall e, In e licenses -> getattr (snd e) part <> s)
      /\ id = Some U).

(** What follows the first line of a text whose lines are [l :: rest_lines]. *)
Definition after_first_line (rest_lines : list str) : str :=
  match rest_lines with
  | [] => []
  | _ => [LF] ++ join [LF] rest_lines
  end.

(** A license whose license file holds a line before the placeholder, and a
    registry with it. *)
Definition notice_file_license : LicenseEntryPoint :=
  License (txt "Header")
          (txt "Notice" ++ [LF] ++ txt "{copyright}" ++ [LF]
             ++ txt "Licensed under the terms.")
          (txt "Contributions").

Definition two_licenses : list (str * LicenseEntryPoint) :=
  [(txt "terms", sample_license); (txt "notice", notice_file_license)].

Definition one_character_file : str := txt "x".

(** * Properties *)

(** ** Strings *)

Lemma str_eqb_eq (a b : str) : str_eqb a b = true <-> a = b.
Proof.
  revert b; induction a as [|x a IH]; intros [|y b]; simpl; split;
    try congruence; try reflexivity.
  - intros H. apply andb_true_iff in H as [Hx Hab].
    apply Ascii.eqb_eq in Hx. apply IH in Hab. congruence.
  - intros H. injection H as -> ->.
    rewrite Ascii.eqb_refl. simpl. now apply IH.
Qed.

Lemma str_eqb_refl (a : str) : str_eqb a a = true.
Proof. now apply str_eqb_eq. Qed.

Lemma str_eqb_neq (a b : str) : str_eqb a b = false <-> a <> b.
Proof.
  split.
  - intros H E. apply str_eqb_eq in E. congruence.
  - intros H. destruct (str_eqb a b) eqn:E; [|reflexivity].
    apply str_eqb_eq in E. contradiction.
Qed.

Lemma prefixb_app (sub t : str) : prefixb sub (sub ++ t) = true.
Proof.
  induction sub as [|x sub IH]; simpl; [reflexivity|].
  now rewrite Ascii.eqb_refl.
Qed.

Lemma prefixb_true (sub s : str) :
  prefixb sub s = true -> exists t, s = sub ++ t.
Proof.
  revert s; induction sub as [|x sub IH]; intros s H.
  - now exists s.
  - destruct s as [|y s]; simpl in H; [discriminate|].
    apply andb_true_iff in H as [Hx Hs].
    apply Ascii.eqb_eq in Hx. destruct (IH _ Hs) as [t ->].
    exists t. now subst.
Qed.

Lemma skipn_cons_nth (s : str) (q : nat) (c : ascii) (t : str) :
  skipn q s = c :: t -> nth_error s q = Some c /\ skipn (S q) s = t.
Proof.
  revert s; induction q as [|q IH]; intros [|x s] H; simpl in *; try discriminate.
  - now injection H as -> ->.
  - now apply IH.
Qed.

Lemma nth_skipn_cons (s : str) (q : nat) (c : ascii) :
  nth_error s q = Some c -> skipn q s = c :: skipn (S q) s.
Proof.
  revert s; induction q as [|q IH]; intros [|x s] H; simpl in *; try discriminate.
  - now injection H as ->.
  - now apply IH.
Qed.

(** A substring of one character occurs where that character is. *)
Lemma prefixb_one (c : ascii) (s : str) (q : nat) :
  prefixb [c] (skipn q s) = true <-> nth_error s q = Some c.
Proof.
  split.
  - intros H. destruct (prefixb_true _ _ H) as [t Ht].
    now apply skipn_cons_nth in Ht.
  - intros H. rewrite (nth_skipn_cons _ _ _ H). simpl.
    now rewrite Ascii.eqb_refl.
Qed.

Lemma prefixb_two (c d : ascii) (s : str) (q : nat) :
  prefixb [c; d] (skipn q s) = true
  <-> nth_error s q = Some c /\ nth_error s (S q) = Some d.
Proof.
  split.
  - intros H. destruct (prefixb_true _ _ H) as [t Ht]. simpl in Ht.
    apply skipn_cons_nth in Ht as [H1 H2].
    apply skipn_cons_nth in H2 as [H2 _]. now split.
  - intros [H1 H2]. rewrite (nth_skipn_cons _ _ _ H1), (nth_skipn_cons _ _ _ H2).
    simpl. now rewrite !Ascii.eqb_refl.
Qed.

Lemma find_aux_some (sub s : str) (i j : nat) :
  find_aux sub s i = Some j ->
  i <= j /\ j - i <= length s /\ prefixb sub (skipn (j - i) s) = true
  /\ forall q, q < j - i -> prefixb sub (skipn q s) = false.
Proof.
  revert i; induction s as [|x s IH]; intros i H; simpl in H.
  - destruct (prefixb sub []) eqn:E; [|discriminate].
    injection H as <-. rewrite Nat.sub_diag. simpl.
    repeat split; auto; intros; lia.
  - destruct (prefixb sub (x :: s)) eqn:E.
    + injection H as <-. rewrite Nat.sub_diag. simpl.
      repeat split; auto; try lia; intros; lia.
    + apply IH in H as (H1 & H2 & H3 & H4).
      replace (j - i) with (S (j - S i)) by lia. simpl.
      repeat split; try lia; auto.
      intros [|q] Hq; simpl; [assumption|]. apply H4. lia.
Qed.

Lemma find_aux_none (sub s : str) (i : nat) :
  find_aux sub s i = None -> forall q, prefixb sub (skipn q s) = false.
Proof.
  revert i; induction s as [|x s IH]; intros i H q; simpl in H.
  - destruct (prefixb sub []) eqn:E; [discriminate|].
    now destruct q.
  - destruct (prefixb sub (x :: s)) eqn:E; [discriminate|].
    destruct q; simpl; [assumption|]. eapply IH; eassumption.
Qed.

(** [find] returns the first offset from [start] on where [sub] occurs. *)
Lemma find_some (content sub : str) (start j : nat) :
  find content sub start = Some j ->
  start <= j <= length content
  /\ prefixb sub (skipn j content) = true
  /\ forall q, start <= q < j -> prefixb sub (skipn q content) = false.
Proof.
  unfold find. destruct (length content <? start) eqn:E; [discriminate|].
  apply Nat.ltb_ge in E. intros H.
  apply find_aux_some in H as (H1 & H2 & H3 & H4).
  rewrite length_skipn in H2. rewrite skipn_skipn in H3.
  replace (j - start + start) with j in H3 by lia.
  repeat split; try lia; auto.
  intros q Hq. specialize (H4 (q - start)).
  rewrite skipn_skipn in H4. replace (q - start + start) with q in H4 by lia.
  apply H4. lia.
Qed.

Lemma find_none (content sub : str) (start : nat) :
  find content sub start = None ->
  forall q, start <= q <= length content -> prefixb sub (skipn q content) = false.
Proof.
  unfold find. destruct (length content <? start) eqn:E.
  - apply Nat.ltb_lt in E. intros _ q Hq. lia.
  - intros H q Hq. pose proof (find_aux_none _ _ _ H (q - start)) as H'.
    rewrite skipn_skipn in H'. now replace (q - start + start) with q in H' by lia.
Qed.

Lemma find_one_some (content : str) (c : ascii) (start j : nat) :
  find content [c] start = Some j ->
  start <= j /\ nth_error content j = Some c
  /\ forall q, start <= q < j -> nth_error content q <> Some c.
Proof.
  intros H. apply find_some in H as (H1 & H2 & H3).
  split; [lia|]. split; [now apply prefixb_one|].
  intros q Hq Hc. apply prefixb_one in Hc. rewrite H3 in Hc by assumption.
  discriminate.
Qed.

Lemma find_one_none (content : str) (c : ascii) (start : nat) :
  find content [c] start = None ->
  forall q, start <= q -> nth_error content q <> Some c.
Proof.
  intros H q Hq Hc.
  assert (q < length content) by (apply nth_error_Some; congruence).
  pose proof (find_none _ _ _ H q ltac:(lia)) as H'.
  apply prefixb_one in Hc. congruence.
Qed.

Lemma find_two_some (content : str) (c d : ascii) (start j : nat) :
  find content [c; d] start = Some j ->
  start <= j /\ nth_error content j = Some c /\ nth_error content (S j) = Some d
  /\ forall q, start <= q < j ->
       ~ (nth_error content q = Some c /\ nth_error content (S q) = Some d).
Proof.
  intros H. apply find_some in H as (H1 & H2 & H3).
  apply prefixb_two in H2 as [H2 H2'].
  repeat split; try lia; auto.
  intros q Hq Hc. apply prefixb_two in Hc. rewrite H3 in Hc by assumption.
  discriminate.
Qed.

Lemma find_two_none (content : str) (c d : ascii) (start : nat) :
  find content [c; d] start = None ->
  forall q, start <= q ->
    ~ (nth_error content q = Some c /\ nth_error content (S q) = Some d).
Proof.
  intros H q Hq Hc.
  assert (q < length content) by (apply nth_error_Some; destruct Hc; congruence).
  pose proof (find_none _ _ _ H q ltac:(lia)) as H'.
  apply prefixb_two in Hc. congruence.
Qed.

(** ** The line-advance step *)

Ltac no_terminator HLF HCR :=
  let q := fresh "q" in
  let ch := fresh "ch" in
  let Hq := fresh "Hq" in
  let Hn := fresh "Hn" in
  intros q ch Hq Hn; split; intros ->;
  [ apply (HLF q) | apply (HCR q) ]; solve [assumption | lia].

Lemma get_index_of_next_line_step (content : str) (index : nat) :
  one_line_step content index (get_index_of_next_line content index).
Proof.
  unfold get_index_of_next_line, one_line_step.
  destruct (find content [LF] index) as [a|] eqn:Ha;
    [apply find_one_some in Ha as (Ha1 & Ha2 & Ha3)
    |pose proof (find_one_none _ _ _ Ha) as Ha3];
  (destruct (find content [CR] index) as [b|] eqn:Hb;
    [apply find_one_some in Hb as (Hb1 & Hb2 & Hb3)
    |pose proof (find_one_none _ _ _ Hb) as Hb3]);
  (destruct (find content [CR; LF] index) as [c|] eqn:Hc;
    [apply find_two_some in Hc as (Hc1 & Hc2 & Hc2' & Hc3)
    |pose proof (find_two_none _ _ _ _ Hc) as Hc3]);
  simpl.
  - (* \n, \r and \r\n all occur *)
    assert (b <= c)
      by (destruct (le_lt_dec b c); [assumption|exfalso; apply (Hb3 c); auto; lia]).
    assert (a <> b) by (intros ->; rewrite Ha2 in Hb2; discriminate).
    right. destruct (Nat.eqb_spec c (Nat.min b (Nat.min c a))) as [E|E].
    + exists c. assert (c = b) by lia. subst b. assert (c < a) by lia.
      split; [lia|]. split; [no_terminator Ha3 Hb3|].
      right; left. repeat split; auto; lia.
    + destruct (le_lt_dec a b).
      * exists a. split; [lia|]. split; [no_terminator Ha3 Hb3|].
        left. split; auto; lia.
      * exists b. split; [lia|]. split; [no_terminator Ha3 Hb3|].
        right; right. repeat split; auto; try lia.
        intros Hn. apply (Hc3 b); auto; lia.
  - (* \n and \r, no \r\n *)
    assert (a <> b) by (intros ->; rewrite Ha2 in Hb2; discriminate).
    right. destruct (le_lt_dec a b).
    + exists a. split; [lia|]. split; [no_terminator Ha3 Hb3|].
      left. split; auto; lia.
    + exists b. split; [lia|]. split; [no_terminator Ha3 Hb3|].
      right; right. repeat split; auto; try lia.
      intros Hn. apply (Hc3 b); auto; lia.
  - (* \r\n without \r: impossible *)
    exfalso. apply (Hb3 c); auto; lia.
  - (* \n only *)
    right. exists a. split; [lia|]. split; [no_terminator Ha3 Hb3|].
    left. split; auto; lia.
  - (* \r and \r\n, no \n *)
    assert (b <= c)
      by (destruct (le_lt_dec b c); [assumption|exfalso; apply (Hb3 c); auto; lia]).
    right. destruct (Nat.eqb_spec c (Nat.min c b)) as [E|E].
    + exists c. assert (c = b) by lia. subst b.
      split; [lia|]. split; [no_terminator Ha3 Hb3|].
      right; left. repeat split; auto; lia.
    + exfalso. apply (Ha3 (S c)); auto; lia.
  - (* \r only *)
    right. exists b. split; [lia|]. split; [no_terminator Ha3 Hb3|].
    right; right. repeat split; auto; try lia.
    intros Hn. apply (Ha3 (S b)); auto; lia.
  - (* \r\n without \r: impossible *)
    exfalso. apply (Hb3 c); auto; lia.
  - (* no terminator *)
    left. split; [|reflexivity].
    no_terminator Ha3 Hb3.
Qed.

Lemma nth_error_lt (content : str) (q : nat) (c : ascii) :
  nth_error content q = Some c -> q < length content.
Proof. intros H. apply nth_error_Some. congruence. Qed.

Lemma get_index_of_next_line_le (content : str) (index : nat) :
  get_index_of_next_line content index <= length content.
Proof.
  destruct (get_index_of_next_line_step content index)
    as [[_ ->]|(p & _ & _ & [[H ->]|[(H & H' & ->)|(H & _ & ->)]])];
    try apply nth_error_lt in H; try apply nth_error_lt in H'; lia.
Qed.

Lemma get_index_of_next_line_gt (content : str) (index : nat) :
  index < length content -> index < get_index_of_next_line content index.
Proof.
  intros Hlt.
  destruct (get_index_of_next_line_step content index)
    as [[_ ->]|(p & Hp & _ & [[_ ->]|[(_ & _ & ->)|(_ & _ & ->)]])]; lia.
Qed.

(** The step from an offset that holds a terminator. *)
Lemma next_line_at_terminator (content : str) (index : nat) (c : ascii) :
  nth_error content index = Some c -> c = LF \/ c = CR ->
  get_index_of_next_line content index =
    if Ascii.eqb c CR && match nth_error content (S index) with
                         | Some d => Ascii.eqb d LF
                         | None => false
                         end
    then index + 2 else index + 1.
Proof.
  intros Hc Hterm.
  destruct (get_index_of_next_line_step content index)
    as [[Hno _]|(p & Hp & Hno & Hcase)].
  - exfalso. destruct (Hno index c (le_n _) Hc). tauto.
  - assert (p = index) as ->.
    { destruct (Nat.eq_dec p index); [assumption|exfalso].
      destruct (Hno index c ltac:(lia) Hc). tauto. }
    destruct Hcase as [[H ->]|[(H & H' & ->)|(H & H' & ->)]];
      rewrite H in Hc; injection Hc as <-.
    + reflexivity.
    + rewrite H'. reflexivity.
    + destruct (nth_error content (S index)) as [d|]; [|reflexivity].
      destruct (Ascii.eqb_spec d LF) as [->|]; [congruence|reflexivity].
Qed.

(** The step over a line that holds no terminator before offset [p]. *)
Lemma next_line_skip (content : str) (index p : nat) :
  index <= p ->
  (forall q, index <= q < p ->
     nth_error content q <> Some LF /\ nth_error content q <> Some CR) ->
  get_index_of_next_line content index = get_index_of_next_line content p.
Proof.
  intros Hle Hfree.
  assert (Hsame : forall sub c t, sub = c :: t -> (c = LF \/ c = CR) ->
            find content sub index = find content sub p).
  { intros sub c t -> Hc. unfold find.
    destruct (length content <? p) eqn:Ep.
    - apply Nat.ltb_lt in Ep.
      destruct (length content <? index) eqn:Ei; [reflexivity|].
      apply Nat.ltb_ge in Ei.
      destruct (find_aux (c :: t) (skipn index content) index) as [j|] eqn:Ej;
        [|reflexivity].
      exfalso. apply find_aux_some in Ej as (H1 & H2 & H3 & _).
      rewrite skipn_skipn in H3. apply prefixb_true in H3 as [u Hu].
      apply skipn_cons_nth in Hu as [Hu _].
      assert (j - index + index < length content) by (eapply nth_error_lt; eauto).
      destruct (Hfree (j - index + index) ltac:(lia)) as [F1 F2].
      destruct Hc as [->| ->]; contradiction.
    - apply Nat.ltb_ge in Ep.
      replace (length content <? index) with false
        by (symmetry; apply Nat.ltb_ge; lia).
      clear Ep. induction Hle as [|p Hle IH]; [reflexivity|].
      rewrite IH by (intros; apply Hfree; lia).
      destruct (Hfree p ltac:(lia)) as [F1 F2].
      destruct (skipn p content) as [|x u] eqn:Eu.
      + assert (Hnil : skipn (S p) content = []).
        { apply skipn_all2. assert (length (skipn p content) = 0) by now rewrite Eu.
          rewrite length_skipn in H. lia. }
        rewrite Hnil. reflexivity.
      + apply skipn_cons_nth in Eu as [Hx Hu]. rewrite Hu.
        simpl find_aux at 1.
        destruct (Ascii.eqb_spec c x) as [->|]; [|reflexivity].
        destruct Hc as [->| ->]; contradiction. }
  unfold get_index_of_next_line.
  rewrite (Hsame [LF] LF [] eq_refl (or_introl eq_refl)).
  rewrite (Hsame [CR] CR [] eq_refl (or_intror eq_refl)).
  rewrite (Hsame [CR; LF] CR [LF] eq_refl (or_intror eq_refl)).
  reflexivity.
Qed.

Lemma is_empty_line_iff (content : str) (index : nat) :
  is_empty_line content index = true
  <-> get_index_of_next_line content index = index + 1.
Proof. apply Nat.eqb_eq. Qed.

Lemma scan_past_empty_lines_loop_total (content : str) (fuel index : nat) :
  length content - index < fuel ->
  exists r, scan_past_empty_lines_loop fuel content index = Ok r
            /\ index <= r /\ is_empty_line content r = false.
Proof.
  revert index; induction fuel as [|fuel IH]; intros index Hf; [lia|].
  simpl. destruct (is_empty_line content index) eqn:E.
  - apply is_empty_line_iff in E.
    pose proof (get_index_of_next_line_le content index).
    destruct (IH (get_index_of_next_line content index) ltac:(lia))
      as (r & Hr & Hle & He).
    exists r. repeat split; auto; lia.
  - exists index. auto.
Qed.

Lemma scan_past_empty_lines_total (content : str) (index : nat) :
  exists r, scan_past_empty_lines content index = Ok r
            /\ index <= r /\ is_empty_line content r = false.
Proof. apply scan_past_empty_lines_loop_total. lia. Qed.

Lemma scan_past_coding_and_shebang_lines_loop_fuel (content : str)
  (fuel index : nat) :
  length content - index < fuel ->
  scan_past_coding_and_shebang_lines_loop fuel content index <> OutOfFuel.
Proof.
  revert index; induction fuel as [|fuel IH]; intros index Hf; [lia|].
  simpl. unfold is_comment_line.
  destruct (nth_error content index) as [c|] eqn:Ec; simpl; [|discriminate].
  apply nth_error_lt in Ec.
  destruct (_ && _); [|discriminate].
  apply IH. pose proof (get_index_of_next_line_gt content index Ec). lia.
Qed.

Lemma scan_past_coding_and_shebang_lines_fuel (content : str) :
  scan_past_coding_and_shebang_lines content <> OutOfFuel.
Proof. apply scan_past_coding_and_shebang_lines_loop_fuel. lia. Qed.

(** A last line of one character and no terminator passes the test of
    [is_empty_line] as well: the step goes to the length of the content. *)
Lemma is_empty_line_last_character (content : str) (index : nat) (c : ascii) :
  nth_error content index = Some c -> c <> LF -> c <> CR ->
  S index = length content ->
  is_empty_line content index = true.
Proof.
  intros Hc Hn Hr Hlen. apply is_empty_line_iff.
  destruct (get_index_of_next_line_step content index)
    as [[_ ->]|(p & Hp & _ & Hcase)]; [lia|].
  exfalso.
  assert (Hlt : p < length content).
  { destruct Hcase as [[H _]|[(H & _)|(H & _)]]; now apply nth_error_lt in H. }
  assert (p = index) by lia. subst p.
  destruct Hcase as [[H _]|[(H & _)|(H & _)]]; congruence.
Qed.

(** ** The matcher *)

Lemma orelse_matched (a : outcome) (b : unit -> outcome) (m : mstate) :
  orelse a b = Matched m ->
  a = Matched m \/ (a = NoMatch /\ b tt = Matched m).
Proof. destruct a; simpl; intros H; auto; discriminate. Qed.

Lemma orelse_exhausted (a : outcome) (b : unit -> outcome) :
  orelse a b = Exhausted ->
  a = Exhausted \/ (a = NoMatch /\ b tt = Exhausted).
Proof. destruct a; simpl; intros H; auto; discriminate. Qed.

(** The matcher calls its continuation on states that are no longer than the
    one it starts from, so two continuations that agree there are
    interchangeable. *)
Lemma star_loop_ext (body : (mstate -> outcome) -> mstate -> outcome) :
  (forall k k' st,
      (forall st', length (rest st') <= length (rest st) -> k st' = k' st') ->
      body k st = body k' st) ->
  forall fuel k k' st,
    (forall st', length (rest st') <= length (rest st) -> k st' = k' st') ->
    star_loop body k fuel st = star_loop body k' fuel st.
Proof.
  intros Hbody fuel; induction fuel as [|fuel IH]; intros k k' st Hk;
    [reflexivity|].
  simpl. rewrite (Hk st (le_n _)). f_equal.
  apply Hbody. intros st' Hle.
  destruct (length (rest st') <? length (rest st)) eqn:E; [|reflexivity].
  apply IH. intros st'' Hle'. apply Hk. lia.
Qed.

Lemma rmatch_ext (r : regex) :
  forall k k' st,
    (forall st', length (rest st') <= length (rest st) -> k st' = k' st') ->
    rmatch r k st = rmatch r k' st.
Proof.
  induction r as [|p|a IHa b IHb|a IHa b IHb|a IHa|n a IHa| |];
    intros k k' st Hk; cbn [rmatch].
  - apply Hk; lia.
  - destruct (rest st) as [|c cs] eqn:E; [reflexivity|].
    destruct (p c); [|reflexivity]. apply Hk. simpl. lia.
  - apply IHa. intros st' Hle. apply IHb. intros st'' Hle'. apply Hk. lia.
  - rewrite (IHa k k' st Hk), (IHb k k' st Hk). reflexivity.
  - apply star_loop_ext; assumption.
  - apply IHa. intros st' Hle. apply Hk. simpl. lia.
  - destruct (at_bol st); [apply Hk; lia|reflexivity].
  - destruct (at_eol st); [apply Hk; lia|reflexivity].
Qed.

(** Fuel beyond the length of the remaining text changes nothing. *)
Lemma star_loop_fuel (a : regex) (k : mstate -> outcome) :
  forall f1 f2 st,
    length (rest st) < f1 -> length (rest st) < f2 ->
    star_loop (rmatch a) k f1 st = star_loop (rmatch a) k f2 st.
Proof.
  induction f1 as [|f1 IH]; intros f2 st H1 H2; [lia|].
  destruct f2 as [|f2]; [lia|]. simpl. f_equal.
  apply rmatch_ext. intros st' Hle.
  destruct (length (rest st') <? length (rest st)) eqn:E; [|reflexivity].
  apply Nat.ltb_lt in E. apply IH; lia.
Qed.

(** The equation of the greedy star. *)
Lemma rmatch_star (a : regex) (k : mstate -> outcome) (st : mstate) :
  rmatch (Star a) k st =
    orelse
      (rmatch a (fun st' => if length (rest st') <? length (rest st)
                            then rmatch (Star a) k st' else NoMatch) st)
      (fun _ => k st).
Proof.
  transitivity (star_loop (rmatch a) k (S (length (rest st))) st);
    [reflexivity|].
  cbn [star_loop]. f_equal. apply rmatch_ext. intros st' Hle.
  destruct (length (rest st') <? length (rest st)) eqn:E; [|reflexivity].
  apply Nat.ltb_lt in E.
  change (rmatch (Star a) k st')
    with (star_loop (rmatch a) k (S (length (rest st'))) st').
  apply star_loop_fuel; lia.
Qed.

(** The matcher never runs out of fuel by itself. *)
Lemma star_loop_exhausted (a : regex) (k : mstate -> outcome) :
  (forall k st, rmatch a k st = Exhausted ->
     exists st', length (rest st') <= length (rest st) /\ k st' = Exhausted) ->
  forall fuel st,
    length (rest st) < fuel ->
    star_loop (rmatch a) k fuel st = Exhausted ->
    exists st', length (rest st') <= length (rest st) /\ k st' = Exhausted.
Proof.
  intros Ha fuel; induction fuel as [|fuel IH]; intros st Hf H; [lia|].
  simpl in H. apply orelse_exhausted in H as [H|[_ H]].
  - apply Ha in H as (st1 & Hle & H).
    destruct (length (rest st1) <? length (rest st)) eqn:E; [|discriminate].
    apply Nat.ltb_lt in E.
    apply IH in H as (st2 & Hle2 & H); [|lia].
    exists st2. split; [lia|assumption].
  - exists st. split; [lia|assumption].
Qed.

Lemma rmatch_exhausted (r : regex) :
  forall k st, rmatch r k st = Exhausted ->
    exists st', length (rest st') <= length (rest st) /\ k st' = Exhausted.
Proof.
  induction r as [|p|a IHa b IHb|a IHa b IHb|a IHa|n a IHa| |];
    intros k st H; cbn [rmatch] in H.
  - exists st. auto.
  - destruct (rest st) as [|c cs] eqn:E; [discriminate|].
    destruct (p c); [|discriminate].
    exists (step st c cs). split; [simpl; lia|assumption].
  - apply IHa in H as (st1 & Hle & H). apply IHb in H as (st2 & Hle2 & H).
    exists st2. split; [lia|assumption].
  - apply orelse_exhausted in H as [H|[_ H]]; [apply IHa|apply IHb]; assumption.
  - eapply star_loop_exhausted; eauto.
  - apply IHa in H as (st1 & Hle & H).
    exists (close_group n (pos st) st1). auto.
  - destruct (at_bol st); [|discriminate]. exists st. auto.
  - destruct (at_eol st); [|discriminate]. exists st. auto.
Qed.

Lemma search_from_not_exhausted (r : regex) (s : str) :
  forall p pos0, search_from r p s pos0 <> Exhausted.
Proof.
  induction s as [|c s IH]; intros p pos0 H; simpl in H;
    apply orelse_exhausted in H as [H|[_ H]];
    try (apply rmatch_exhausted in H as (st' & _ & H)); try discriminate.
  now apply IH in H.
Qed.

Lemma search_not_exhausted (r : regex) (content : str) (index : nat) :
  search r content index <> Exhausted.
Proof. apply search_from_not_exhausted. Qed.

(** Every match the matcher reports is a match of the pattern. *)
Lemma star_loop_sound (a : regex) (k : mstate -> outcome) (m : mstate) :
  (forall k st, rmatch a k st = Matched m ->
     exists st', reach a st st' /\ k st' = Matched m) ->
  forall fuel st,
    star_loop (rmatch a) k fuel st = Matched m ->
    exists st', reach (Star a) st st' /\ k st' = Matched m.
Proof.
  intros Ha fuel; induction fuel as [|fuel IH]; intros st H; [discriminate|].
  simpl in H. apply orelse_matched in H as [H|[_ H]].
  - apply Ha in H as (st1 & Hr & H).
    destruct (length (rest st1) <? length (rest st)); [|discriminate].
    apply IH in H as (st2 & Hr2 & H).
    exists st2. split; [econstructor; eassumption|assumption].
  - exists st. split; [constructor|assumption].
Qed.

Lemma rmatch_sound (r : regex) (m : mstate) :
  forall k st, rmatch r k st = Matched m ->
    exists st', reach r st st' /\ k st' = Matched m.
Proof.
  induction r as [|p|a IHa b IHb|a IHa b IHb|a IHa|n a IHa| |];
    intros k st H; cbn [rmatch] in H.
  - exists st. split; [constructor|assumption].
  - destruct (rest st) as [|c cs] eqn:E; [discriminate|].
    destruct (p c) eqn:Ep; [|discriminate].
    exists (step st c cs). split; [now constructor|assumption].
  - apply IHa in H as (st1 & Hr & H). apply IHb in H as (st2 & Hr2 & H).
    exists st2. split; [econstructor; eassumption|assumption].
  - apply orelse_matched in H as [H|[_ H]].
    + apply IHa in H as (st1 & Hr & H). exists st1.
      split; [now apply reach_alt_l|assumption].
    + apply IHb in H as (st1 & Hr & H). exists st1.
      split; [now apply reach_alt_r|assumption].
  - eapply star_loop_sound; eauto.
  - apply IHa in H as (st1 & Hr & H).
    exists (close_group n (pos st) st1). split; [now constructor|assumption].
  - destruct (at_bol st) eqn:E; [|discriminate].
    exists st. split; [now constructor|assumption].
  - destruct (at_eol st) eqn:E; [|discriminate].
    exists st. split; [now constructor|assumption].
Qed.

(** ** What a match reads and records *)

Lemma reach_consumes (r : regex) (st st' : mstate) :
  reach r st st' ->
  exists w, rest st = w ++ rest st' /\ pos st' = pos st + length w.
Proof.
  induction 1 as [st|p st c cs E Hp|a b st st1 st2 _ IH1 _ IH2
                  |a b st st' _ IH|a b st st' _ IH|a st
                  |a st st1 st2 _ IH1 _ IH2|n a st st' _ IH|st Hb|st He].
  - exists []. simpl. split; [reflexivity|lia].
  - exists [c]. simpl. split; [assumption|lia].
  - destruct IH1 as (w1 & E1 & P1), IH2 as (w2 & E2 & P2).
    exists (w1 ++ w2). rewrite length_app, <- app_assoc, <- E2.
    split; [assumption|lia].
  - assumption.
  - assumption.
  - exists []. simpl. split; [reflexivity|lia].
  - destruct IH1 as (w1 & E1 & P1), IH2 as (w2 & E2 & P2).
    exists (w1 ++ w2). rewrite length_app, <- app_assoc, <- E2.
    split; [assumption|lia].
  - assumption.
  - exists []. simpl. split; [reflexivity|lia].
  - exists []. simpl. split; [reflexivity|lia].
Qed.

Lemma reach_min_len (r : regex) (st st' : mstate) :
  reach r st st' -> pos st + min_len r <= pos st'.
Proof.
  induction 1; simpl in *; lia.
Qed.

Lemma reach_no_group (r : regex) (st st' : mstate) :
  reach r st st' -> no_group r = true -> caps st' = caps st.
Proof.
  induction 1 as [st|p st c cs E Hp|a b st st1 st2 _ IH1 _ IH2
                  |a b st st' _ IH|a b st st' _ IH|a st
                  |a st st1 st2 _ IH1 _ IH2|n a st st' _ IH|st Hb|st He];
    simpl; intros Hg; try reflexivity; try discriminate.
  - apply andb_true_iff in Hg as [Ha Hb]. rewrite IH2, IH1; auto.
  - apply andb_true_iff in Hg as [Ha Hb]. auto.
  - apply andb_true_iff in Hg as [Ha Hb]. auto.
  - rewrite IH2, IH1; auto.
Qed.

Lemma reach_in_text (content : str) (r : regex) (st st' : mstate) :
  in_text content st -> reach r st st' ->
  in_text content st' /\ pos st <= pos st'
  /\ rest st = slice content (pos st) (pos st') ++ rest st'.
Proof.
  intros [Hrest Hpos] Hr.
  destruct (reach_consumes _ _ _ Hr) as (w & Ew & Pw).
  assert (Hlen : length (skipn (pos st) content) = length w + length (rest st'))
    by (rewrite <- Hrest, Ew; apply length_app).
  rewrite length_skipn in Hlen.
  assert (Hskip : skipn (pos st') content = rest st').
  { rewrite Pw, Nat.add_comm, <- skipn_skipn, <- Hrest, Ew.
    rewrite skipn_app, skipn_all, Nat.sub_diag. reflexivity. }
  repeat split; auto; try lia.
  unfold slice. rewrite <- Hrest, Ew, Pw.
  replace (pos st + length w - pos st) with (length w) by lia.
  rewrite firstn_app, firstn_all, Nat.sub_diag. simpl.
  now rewrite app_nil_r.
Qed.

Lemma reach_seq_inv (a b : regex) (st st2 : mstate) :
  reach (Seq a b) st st2 -> exists st1, reach a st st1 /\ reach b st1 st2.
Proof. inversion 1; subst; eauto. Qed.

Lemma reach_group_inv (n : nat) (a : regex) (st st2 : mstate) :
  reach (Group n a) st st2 ->
  exists st1, reach a st st1 /\ st2 = close_group n (pos st) st1.
Proof. inversion 1; subst; eauto. Qed.

Lemma reach_eol_inv (st st' : mstate) :
  reach Eol st st' -> st' = st /\ at_eol st = true.
Proof. inversion 1; subst; auto. Qed.

Lemma reach_bol_inv (st st' : mstate) :
  reach Bol st st' -> st' = st /\ at_bol st = true.
Proof. inversion 1; subst; auto. Qed.

Lemma reach_cls_inv (p : ascii -> bool) (st st' : mstate) :
  reach (Cls p) st st' ->
  exists c cs, rest st = c :: cs /\ p c = true /\ st' = step st c cs.
Proof. inversion 1; subst; eauto. Qed.

Lemma reach_alt_inv (a b : regex) (st st' : mstate) :
  reach (Alt a b) st st' -> reach a st st' \/ reach b st st'.
Proof. inversion 1; subst; auto. Qed.

(** A literal reads itself. *)
Lemma reach_lit (s : str) :
  forall st st', reach (lit s) st st' ->
    rest st = s ++ rest st' /\ pos st' = pos st + length s.
Proof.
  induction s as [|c s IH]; intros st st' H; simpl in H.
  - inversion H; subst. simpl. split; [reflexivity|lia].
  - apply reach_seq_inv in H as (st1 & H1 & H2).
    apply reach_cls_inv in H1 as (x & cs & E & Hx & ->).
    apply Ascii.eqb_eq in Hx. subst x.
    apply IH in H2 as [H2 P2]. simpl in *. rewrite E, H2.
    split; [reflexivity|lia].
Qed.

(** A repeated class reads characters of the class. *)
Lemma reach_star_cls (p : ascii -> bool) (st st' : mstate) :
  reach (Star (Cls p)) st st' ->
  exists w, rest st = w ++ rest st' /\ pos st' = pos st + length w
            /\ forallb p w = true.
Proof.
  remember (Star (Cls p)) as r eqn:Er.
  induction 1 as [ | | | | |a st|a st st1 st2 H1 _ _ IH2| | | ];
    try discriminate.
  - exists []. simpl. repeat split; auto; lia.
  - injection Er as ->. destruct (IH2 eq_refl) as (w & Ew & Pw & Hw).
    apply reach_cls_inv in H1 as (c & cs & E & Hc & ->).
    exists (c :: w). simpl in *. rewrite E, Ew, Hc.
    repeat split; auto; lia.
Qed.

Lemma reach_plus_cls (p : ascii -> bool) (st st' : mstate) :
  reach (plus (Cls p)) st st' ->
  exists w, rest st = w ++ rest st' /\ pos st' = pos st + length w
            /\ forallb p w = true /\ w <> [].
Proof.
  intros H. apply reach_seq_inv in H as (st1 & H1 & H2).
  apply reach_cls_inv in H1 as (c & cs & E & Hc & ->).
  apply reach_star_cls in H2 as (w & Ew & Pw & Hw).
  exists (c :: w). simpl in *. rewrite E, Ew, Hc.
  repeat split; auto; try lia. discriminate.
Qed.

(** A successful search has matched the pattern at some offset. *)
Lemma search_from_matched (r : regex) (m : mstate) (s : str) :
  forall p pos0, search_from r p s pos0 = Matched m ->
    exists pre s' p', s = pre ++ s'
      /\ rmatch r Matched (MState (pos0 + length pre) p' s' []) = Matched m.
Proof.
  induction s as [|c s IH]; intros p pos0 H; simpl in H;
    apply orelse_matched in H as [H|[_ H]]; try discriminate.
  - exists [], [], p. simpl. rewrite Nat.add_0_r. auto.
  - exists [], (c :: s), p. simpl. rewrite Nat.add_0_r. auto.
  - apply IH in H as (pre & s' & p' & -> & H).
    exists (c :: pre), s', p'. simpl.
    replace (pos0 + S (length pre)) with (S pos0 + length pre) by lia. auto.
Qed.

Lemma search_matched_at (r : regex) (content : str) (index : nat) (m : mstate) :
  search r content index = Matched m ->
  exists st0, in_text content st0 /\ caps st0 = [] /\ reach r st0 m.
Proof.
  unfold search. intros H.
  set (i := Nat.min index (length content)) in H.
  assert (Hi : i <= length content) by (unfold i; lia).
  apply search_from_matched in H as (pre & s' & p' & E & H).
  apply rmatch_sound in H as (st' & Hr & Hm). injection Hm as <-.
  assert (L : length (skipn i content) = length pre + length s')
    by (rewrite E; apply length_app).
  rewrite length_skipn in L.
  exists (MState (i + length pre) p' s' []). repeat split; auto.
  - simpl. rewrite Nat.add_comm, <- skipn_skipn, E.
    now rewrite skipn_app, skipn_all, Nat.sub_diag.
  - simpl. lia.
Qed.

(** ** The copyright pattern, read backwards from a match *)

Lemma in_text_close_group (content : str) (n start : nat) (st : mstate) :
  in_text content st -> in_text content (close_group n start st).
Proof. intros H. exact H. Qed.

Lemma slice_unique (content : str) (st st' : mstate) (w : str) :
  rest st = slice content (pos st) (pos st') ++ rest st' ->
  rest st = w ++ rest st' ->
  slice content (pos st) (pos st') = w.
Proof. intros H1 H2. rewrite H1 in H2. now apply app_inv_tail in H2. Qed.

Lemma plus_cls_segment (content : str) (p : ascii -> bool) (st st' : mstate) :
  in_text content st -> reach (plus (Cls p)) st st' ->
  in_text content st' /\ pos st < pos st' /\ caps st' = caps st
  /\ forallb p (slice content (pos st) (pos st')) = true.
Proof.
  intros Hi Hr.
  destruct (reach_in_text _ _ _ _ Hi Hr) as (Hi' & Hle & Hs).
  destruct (reach_plus_cls _ _ _ Hr) as (w & Ew & Pw & Hw & Hne).
  rewrite (slice_unique _ _ _ _ Hs Ew).
  repeat split; try apply Hi'; auto.
  - destruct w; [contradiction|simpl in Pw; lia].
  - now apply (reach_no_group _ _ _ Hr).
Qed.

Lemma norm_index_of_nat (s : str) (n : nat) : norm_index s (Z.of_nat n) = n.
Proof.
  unfold norm_index. destruct (Z.ltb_spec (Z.of_nat n) 0); lia.
Qed.

Lemma zslice_of_nat (s : str) (a b : nat) :
  zslice s (Z.of_nat a) (Z.of_nat b) = slice s a b.
Proof. unfold zslice. now rewrite !norm_index_of_nat. Qed.

Lemma zslice_from_of_nat (s : str) (a : nat) :
  zslice_from s (Z.of_nat a) = slice_from s a.
Proof. unfold zslice_from. now rewrite norm_index_of_nat. Qed.

(** The shape of every match of the copyright pattern. *)
Lemma copyright_pattern_match (content : str) (st0 m : mstate) :
  in_text content st0 -> caps st0 = [] ->
  reach copyright_pattern st0 m ->
  exists a b c d e,
    caps m = [(3, (d, e)); (2, (b, c)); (1, (a, a + 9))]
    /\ slice content a (a + 9) = txt "Copyright"
    /\ a + 9 < b /\ b + 4 <= c /\ c < d /\ d < e /\ e <= length content
    /\ forallb is_space (slice content (a + 9) b) = true
    /\ forallb is_space (slice content c d) = true
    /\ forallb not_nl_cr (slice content d e) = true
    /\ (e = length content \/ nth_error content e = Some LF).
Proof.
  intros Hi0 Hc0 H. unfold copyright_pattern in H.
  apply reach_seq_inv in H as (s1 & H1 & H).
  apply reach_bol_inv in H1 as [-> _].
  apply reach_seq_inv in H as (s2 & H2 & H).
  apply reach_seq_inv in H as (s3 & H3 & H).
  apply reach_seq_inv in H as (s4 & H4 & H).
  apply reach_seq_inv in H as (s5 & H5 & H).
  apply reach_seq_inv in H as (s6 & H6 & H).
  apply reach_seq_inv in H as (s7 & H7 & H).
  apply reach_seq_inv in H as (s8 & H8 & H).
  apply reach_eol_inv in H as [-> He].
  apply reach_group_inv in H4 as (t4 & H4 & ->).
  apply reach_group_inv in H6 as (t6 & H6 & ->).
  apply reach_group_inv in H8 as (t8 & H8 & ->).
  (* the offsets *)
  destruct (reach_in_text _ _ _ _ Hi0 H2) as (Hi2 & _ & _).
  destruct (reach_in_text _ _ _ _ Hi2 H3) as (Hi3 & _ & _).
  destruct (reach_in_text _ _ _ _ Hi3 H4) as (Hi4 & _ & Hs4).
  destruct (reach_lit _ _ _ H4) as [E4 P4].
  pose proof (slice_unique _ _ _ _ Hs4 E4) as Hword.
  pose proof (in_text_close_group content 1 (pos s3) t4 Hi4) as Hi4'.
  destruct (plus_cls_segment _ _ _ _ Hi4' H5) as (Hi5 & Hlt5 & Hc5 & Hw5).
  destruct (reach_in_text _ _ _ _ Hi5 H6) as (Hi6 & _ & _).
  pose proof (reach_min_len _ _ _ H6) as Hmin6.
  pose proof (in_text_close_group content 2 (pos s5) t6 Hi6) as Hi6'.
  destruct (plus_cls_segment _ _ _ _ Hi6' H7) as (Hi7 & Hlt7 & Hc7 & Hw7).
  destruct (plus_cls_segment _ _ _ _ Hi7 H8) as (Hi8 & Hlt8 & Hc8 & Hw8).
  (* the groups *)
  assert (Hcaps2 : caps s2 = []) by (rewrite (reach_no_group _ _ _ H2); auto).
  assert (Hcaps3 : caps s3 = [])
    by (rewrite (reach_no_group _ _ _ H3); auto).
  assert (Hcaps4 : caps t4 = [])
    by (rewrite (reach_no_group _ _ _ H4); auto).
  assert (Hcaps6 : caps t6 = caps s5)
    by (apply (reach_no_group _ _ _ H6); reflexivity).
  simpl in Hc5, Hc7, Hlt5, Hlt7, Hw5, Hw7, Hmin6. simpl in P4.
  exists (pos s3), (pos s5), (pos t6), (pos s7), (pos t8).
  replace (pos s3 + 9) with (pos t4) by lia.
  split.
  { simpl. rewrite Hc8, Hc7, Hcaps6, Hc5, Hcaps4. reflexivity. }
  repeat split; auto; try lia.
  - apply Hi8.
  - destruct Hi8 as [Hrest Hle]. unfold at_eol in He. simpl in He.
    destruct (rest t8) as [|x xs] eqn:Ex.
    + left. assert (L : length (skipn (pos t8) content) = 0)
        by now rewrite <- Hrest.
      rewrite length_skipn in L. lia.
    + right. apply Ascii.eqb_eq in He. subst x.
      symmetry in Hrest. now apply skipn_cons_nth in Hrest.
Qed.

(** ** The copyright pattern, run forwards on a statement *)

Lemma advance_app (w1 w2 : str) :
  forall st, advance st (w1 ++ w2) = advance (advance st w1) w2.
Proof. induction w1 as [|c w1 IH]; intros st; simpl; [reflexivity|apply IH]. Qed.

Lemma advance_rest (w : str) :
  forall st t, rest st = w ++ t -> rest (advance st w) = t.
Proof.
  induction w as [|c w IH]; intros st t H; simpl; [assumption|].
  apply IH. simpl. now rewrite H.
Qed.

Lemma advance_pos (w : str) :
  forall st, pos (advance st w) = pos st + length w.
Proof.
  induction w as [|c w IH]; intros st; simpl; [lia|].
  rewrite IH. simpl. lia.
Qed.

Lemma advance_caps (w : str) :
  forall st, caps (advance st w) = caps st.
Proof.
  induction w as [|c w IH]; intros st; simpl; [reflexivity|].
  now rewrite IH.
Qed.

Lemma rmatch_seq (a b : regex) (k : mstate -> outcome) (st : mstate) :
  rmatch (Seq a b) k st = rmatch a (rmatch b k) st.
Proof. reflexivity. Qed.

Lemma rmatch_alt (a b : regex) (k : mstate -> outcome) (st : mstate) :
  rmatch (Alt a b) k st = orelse (rmatch a k st) (fun _ => rmatch b k st).
Proof. reflexivity. Qed.

Lemma rmatch_group (n : nat) (a : regex) (k : mstate -> outcome) (st : mstate) :
  rmatch (Group n a) k st
  = rmatch a (fun st' => k (close_group n (pos st) st')) st.
Proof. reflexivity. Qed.

Lemma rmatch_cls (p : ascii -> bool) (k : mstate -> outcome) (st : mstate)
  (c : ascii) (t : str) :
  rest st = c :: t -> p c = true ->
  rmatch (Cls p) k st = k (advance st [c]).
Proof. intros E Hp. simpl. now rewrite E, Hp. Qed.

Lemma rmatch_cls_fail (p : ascii -> bool) (k : mstate -> outcome) (st : mstate) :
  match rest st with [] => true | c :: _ => negb (p c) end = true ->
  rmatch (Cls p) k st = NoMatch.
Proof.
  simpl. destruct (rest st) as [|c t]; [reflexivity|].
  intros H. apply negb_true_iff in H. now rewrite H.
Qed.

Lemma rmatch_lit (s : str) (k : mstate -> outcome) :
  forall st t, rest st = s ++ t -> rmatch (lit s) k st = k (advance st s).
Proof.
  induction s as [|c s IH]; intros st t E; [reflexivity|].
  change (lit (c :: s)) with (Seq (Cls (Ascii.eqb c)) (lit s)).
  rewrite rmatch_seq, (rmatch_cls _ _ st c (s ++ t) E (Ascii.eqb_refl c)).
  simpl advance at 1.
  rewrite (IH _ t); [reflexivity|]. simpl. now rewrite E.
Qed.

Lemma rmatch_lit_fail (c : ascii) (s : str) (k : mstate -> outcome)
  (st : mstate) :
  match rest st with [] => true | x :: _ => negb (Ascii.eqb c x) end = true ->
  rmatch (lit (c :: s)) k st = NoMatch.
Proof.
  intros H. change (lit (c :: s)) with (Seq (Cls (Ascii.eqb c)) (lit s)).
  rewrite rmatch_seq. now apply rmatch_cls_fail.
Qed.

(** A greedy repetition of a class reads the whole run when what follows
    accepts it. *)
Lemma rmatch_star_cls (p : ascii -> bool) (k : mstate -> outcome) (m : mstate)
  (w : str) :
  forall st t,
    rest st = w ++ t -> forallb p w = true ->
    match t with [] => true | c :: _ => negb (p c) end = true ->
    k (advance st w) = Matched m ->
    rmatch (Star (Cls p)) k st = Matched m.
Proof.
  induction w as [|c w IH]; intros st t E Hw Ht Hk; rewrite rmatch_star.
  - simpl in E. rewrite rmatch_cls_fail by now rewrite E.
    simpl. assumption.
  - simpl in Hw. apply andb_true_iff in Hw as [Hc Hw].
    rewrite (rmatch_cls _ _ st c (w ++ t) E Hc).
    assert (Er : rest (advance st [c]) = w ++ t) by (simpl; now rewrite E).
    rewrite Er, E.
    replace (length (w ++ t) <? length ((c :: w) ++ t)) with true
      by (symmetry; apply Nat.ltb_lt; simpl; lia).
    rewrite (IH _ t Er Hw Ht); [reflexivity|].
    now rewrite <- advance_app.
Qed.

Lemma rmatch_plus_cls (p : ascii -> bool) (k : mstate -> outcome) (m : mstate)
  (w : str) (st : mstate) (t : str) :
  rest st = w ++ t -> w <> [] -> forallb p w = true ->
  match t with [] => true | c :: _ => negb (p c) end = true ->
  k (advance st w) = Matched m ->
  rmatch (plus (Cls p)) k st = Matched m.
Proof.
  intros E Hne Hw Ht Hk. destruct w as [|c w]; [contradiction|].
  simpl in Hw. apply andb_true_iff in Hw as [Hc Hw].
  unfold plus. rewrite rmatch_seq, (rmatch_cls _ _ st c (w ++ t) E Hc).
  apply (rmatch_star_cls p k m w _ t);
    [simpl; now rewrite E|assumption|assumption|now rewrite <- advance_app].
Qed.

Lemma is_year_inv (y : str) :
  is_year y = true ->
  exists a b c d, y = [a; b; c; d]
    /\ is_digit a = true /\ is_digit b = true
    /\ is_digit c = true /\ is_digit d = true.
Proof.
  destruct y as [|a [|b [|c [|d [|e y]]]]]; cbn [is_year]; try discriminate.
  intros H. apply andb_true_iff in H as [H Hd].
  apply andb_true_iff in H as [H Hc]. apply andb_true_iff in H as [Ha Hb].
  exists a, b, c, d. repeat split; assumption.
Qed.

Lemma rmatch_year (y : str) (k : mstate -> outcome) (st : mstate) (t : str) :
  is_year y = true -> rest st = y ++ t ->
  rmatch year k st = k (advance st y).
Proof.
  intros Hy E. apply is_year_inv in Hy as (a & b & c & d & -> & Ha & Hb & Hc & Hd).
  unfold year, rep4.
  rewrite rmatch_seq, (rmatch_cls _ _ st a _ E Ha).
  rewrite rmatch_seq, (rmatch_cls _ _ _ b ([c; d] ++ t))
    by (simpl; rewrite ?E; auto).
  rewrite rmatch_seq, (rmatch_cls _ _ _ c ([d] ++ t))
    by (simpl; rewrite ?E; auto).
  rewrite (rmatch_cls _ _ _ d t) by (simpl; rewrite ?E; auto).
  reflexivity.
Qed.

Lemma digit_not_space (c : ascii) : is_digit c = true -> is_space c = false.
Proof.
  destruct c as [[|] [|] [|] [|] [|] [|] [|] [|]]; vm_compute; congruence.
Qed.

Lemma token_text_head (t : year_token) :
  token_ok t = true ->
  exists c u, token_text t = c :: u /\ is_space c = false.
Proof.
  destruct t as [y|y1 y2]; simpl; intros H.
  - apply is_year_inv in H as (a & b & c & d & -> & Ha & _).
    exists a, [b; c; d]. split; [reflexivity|now apply digit_not_space].
  - apply andb_true_iff in H as [H _].
    apply is_year_inv in H as (a & b & c & d & -> & Ha & _).
    eexists a, _. split; [reflexivity|now apply digit_not_space].
Qed.

Lemma starts_with_cons (c : ascii) (s : str) :
  starts_with c s = true -> exists t, s = c :: t.
Proof.
  destruct s as [|x t]; simpl; [discriminate|].
  intros H. apply Ascii.eqb_eq in H. subst. eauto.
Qed.

(** One year token: the year is tried first, and given up for the year range
    when what follows rejects the dash. *)
Lemma rmatch_token (t : year_token) (k : mstate -> outcome) (m : mstate)
  (st : mstate) (u : str) :
  token_ok t = true -> rest st = token_text t ++ u ->
  (forall st', starts_with "-" (rest st') = true -> k st' = NoMatch) ->
  k (advance st (token_text t)) = Matched m ->
  rmatch year_or_year_range k st = Matched m.
Proof.
  intros Hok E Hdash Hk. unfold year_or_year_range. rewrite rmatch_alt.
  destruct t as [y|y1 y2]; simpl in Hok, E, Hk.
  - rewrite (rmatch_year y k st u Hok E), Hk. reflexivity.
  - apply andb_true_iff in Hok as [H1 H2].
    rewrite <- app_assoc in E.
    rewrite (rmatch_year y1 k st _ H1 E).
    pose proof (advance_rest y1 st _ E) as E1.
    rewrite Hdash by (rewrite E1; reflexivity).
    cbn [orelse]. unfold year_range.
    rewrite rmatch_seq, (rmatch_year y1 _ st _ H1 E).
    rewrite rmatch_seq, (rmatch_lit (txt "-") _ _ (y2 ++ u) E1).
    pose proof (advance_rest (txt "-") _ _ E1) as E2.
    rewrite (rmatch_year y2 _ _ u H2 E2).
    now rewrite <- !advance_app.
Qed.

(** The further tokens: the repetition reads them all. *)
Lemma rmatch_years_more (k : mstate -> outcome) (m : mstate) :
  (forall st', starts_with "-" (rest st') = true -> k st' = NoMatch) ->
  forall more st u,
    more_ok more = true -> rest st = more_text more ++ u ->
    starts_with "," u = false ->
    k (advance st (more_text more)) = Matched m ->
    rmatch (Star years_more) k st = Matched m.
Proof.
  intros Hdash more; induction more as [|[sep t] more IH];
    intros st u Hok E Hu Hk; rewrite rmatch_star.
  - simpl in E, Hk. unfold years_more at 1.
    rewrite rmatch_seq, (rmatch_lit_fail "," []).
    + simpl. assumption.
    + rewrite E. destruct u as [|x u]; [reflexivity|].
      simpl in Hu. rewrite Ascii.eqb_sym. now rewrite Hu.
  - simpl in Hok. apply andb_true_iff in Hok as [Hst Hok].
    apply andb_true_iff in Hst as [Hsep Ht].
    simpl in E. rewrite <- !app_assoc in E.
    destruct (token_text_head t Ht) as (c & tt & Ett & Hc).
    unfold years_more at 1.
    rewrite rmatch_seq, (rmatch_lit (txt ",") _ st _ E).
    pose proof (advance_rest (txt ",") st _ E) as E1.
    rewrite rmatch_seq.
    assert (Hgoal :
      rmatch (Star (Cls is_space))
        (rmatch year_or_year_range
           (fun st' => if length (rest st') <? length (rest st)
                       then rmatch (Star years_more) k st' else NoMatch))
        (advance st (txt ",")) = Matched m).
    { apply (rmatch_star_cls is_space _ m sep _ _ E1 Hsep).
      - rewrite Ett. simpl. now rewrite Hc.
      - pose proof (advance_rest sep _ _ E1) as E2.
        apply (rmatch_token t _ m _ _ Ht E2).
        + intros st' Hs.
          destruct (length (rest st') <? length (rest st)); [|reflexivity].
          rewrite rmatch_star. unfold years_more at 1.
          rewrite rmatch_seq, (rmatch_lit_fail "," []).
          * simpl. now apply Hdash.
          * apply starts_with_cons in Hs as [r' ->]. reflexivity.
        + pose proof (advance_rest (token_text t) _ _ E2) as E3.
          rewrite E3, E.
          replace (length (more_text more ++ u) <? _) with true.
          * apply (IH _ u Hok E3 Hu).
            rewrite <- !advance_app. exact Hk.
          * symmetry. apply Nat.ltb_lt.
            cbn [length]. rewrite !length_app. lia. }
    rewrite Hgoal. reflexivity.
Qed.

Lemma rmatch_years_list (k : mstate -> outcome) (m : mstate) (t : year_token)
  (more : list (str * year_token)) (st : mstate) (u : str) :
  (forall st', starts_with "-" (rest st') = true -> k st' = NoMatch) ->
  token_ok t = true -> more_ok more = true ->
  rest st = years_text t more ++ u ->
  starts_with "," u = false ->
  k (advance st (years_text t more)) = Matched m ->
  rmatch years_list k st = Matched m.
Proof.
  intros Hdash Ht Hmore E Hu Hk. unfold years_list. rewrite rmatch_seq.
  unfold years_text in E. rewrite <- app_assoc in E.
  apply (rmatch_token t _ m st _ Ht E).
  - intros st' Hs. rewrite rmatch_star. unfold years_more at 1.
    rewrite rmatch_seq, (rmatch_lit_fail "," []).
    + simpl. now apply Hdash.
    + apply starts_with_cons in Hs as [r' ->]. reflexivity.
  - pose proof (advance_rest (token_text t) _ _ E) as E1.
    apply (rmatch_years_more k m Hdash more _ u Hmore E1 Hu).
    now rewrite <- advance_app.
Qed.

Lemma rmatch_eps (k : mstate -> outcome) (st : mstate) :
  rmatch Eps k st = k st.
Proof. reflexivity. Qed.

Lemma rmatch_bol (k : mstate -> outcome) (st : mstate) :
  at_bol st = true -> rmatch Bol k st = k st.
Proof. intros H. simpl. now rewrite H. Qed.

Lemma rmatch_eol (k : mstate -> outcome) (st : mstate) :
  at_eol st = true -> rmatch Eol k st = k st.
Proof. intros H. simpl. now rewrite H. Qed.

Lemma search_from_first (r : regex) (p : option ascii) (s : str) (pos0 : nat)
  (m : mstate) :
  rmatch r Matched (MState pos0 p s []) = Matched m ->
  search_from r p s pos0 = Matched m.
Proof. intros H. destruct s; simpl; now rewrite H. Qed.

Lemma is_spacing_inv (w : str) :
  is_spacing w = true ->
  w <> [] /\ forallb is_space w = true
  /\ exists c u, w = c :: u /\ is_space c = true.
Proof.
  destruct w as [|c u]; [discriminate|]. intros H.
  split; [discriminate|]. split; [exact H|].
  exists c, u. split; [reflexivity|].
  simpl in H. now apply andb_true_iff in H as [H _].
Qed.

Lemma space_not_comma (c : ascii) :
  is_space c = true -> Ascii.eqb c "," = false.
Proof.
  destruct c as [[|] [|] [|] [|] [|] [|] [|] [|]]; vm_compute; congruence.
Qed.

Lemma is_holder_name_inv (name : str) :
  is_holder_name name = true ->
  name <> [] /\ forallb not_nl_cr name = true
  /\ exists c u, name = c :: u /\ is_space c = false.
Proof.
  destruct name as [|c u]; [discriminate|]. intros H.
  unfold is_holder_name in H. apply andb_true_iff in H as [Hc Hn].
  split; [discriminate|]. split; [exact Hn|].
  exists c, u. split; [reflexivity|now apply negb_true_iff].
Qed.

(** The match of the pattern on a statement at the start of the text: the
    three groups are the word, the years and the name. *)
Lemma copyright_statement_search (ws1 : str) (t : year_token)
  (more : list (str * year_token)) (ws2 name tail : str) :
  is_spacing ws1 = true -> token_ok t = true -> more_ok more = true ->
  is_spacing ws2 = true -> is_holder_name name = true ->
  ends_line tail = true ->
  exists m,
    search copyright_pattern
      (copyright_statement ws1 t more ws2 name ++ tail) 0 = Matched m
    /\ caps m =
         [(3, (9 + length ws1 + length (years_text t more) + length ws2,
               9 + length ws1 + length (years_text t more) + length ws2
               + length name));
          (2, (9 + length ws1,
               9 + length ws1 + length (years_text t more)));
          (1, (0, 9))].
Proof.
  intros Hws1 Ht Hmore Hws2 Hname Htail.
  destruct (is_spacing_inv _ Hws1) as (Hne1 & Hsp1 & _).
  destruct (is_spacing_inv _ Hws2) as (Hne2 & Hsp2 & c2 & u2 & Ews2 & Hc2).
  destruct (is_holder_name_inv _ Hname) as (Hnen & Hnn & cn & un & Ename & Hcn).
  assert (Hyears : exists cy uy, years_text t more = cy :: uy
                                 /\ is_space cy = false).
  { destruct (token_text_head t Ht) as (c & u & E & Hc).
    exists c, (u ++ more_text more). unfold years_text. now rewrite E. }
  destruct Hyears as (cy & uy & Eyears & Hcy).
  set (content := copyright_statement ws1 t more ws2 name ++ tail).
  set (st0 := MState 0 None content []).
  assert (E0 : rest st0
               = txt "Copyright" ++ ws1 ++ years_text t more ++ ws2 ++ name ++ tail).
  { unfold st0, content, copyright_statement. cbn [rest].
    now rewrite <- !app_assoc. }
  set (s1 := close_group 1 (pos st0) (advance st0 (txt "Copyright"))).
  assert (E1 : rest s1 = ws1 ++ years_text t more ++ ws2 ++ name ++ tail)
    by (apply (advance_rest (txt "Copyright") st0 _ E0)).
  set (s2 := advance s1 ws1).
  pose proof (advance_rest ws1 s1 _ E1) as E2. fold s2 in E2.
  set (s3 := close_group 2 (pos s2) (advance s2 (years_text t more))).
  assert (E3 : rest s3 = ws2 ++ name ++ tail)
    by (apply (advance_rest (years_text t more) s2 _ E2)).
  set (s4 := advance s3 ws2).
  pose proof (advance_rest ws2 s3 _ E3) as E4. fold s4 in E4.
  set (s5 := close_group 3 (pos s4) (advance s4 name)).
  assert (E5 : rest s5 = tail) by (apply (advance_rest name s4 _ E4)).
  exists s5. split.
  - unfold search. change (Nat.min 0 (length content)) with 0.
    change (skipn 0 content) with content.
    apply search_from_first. fold st0.
    unfold copyright_pattern.
    rewrite rmatch_seq, rmatch_bol by reflexivity.
    rewrite rmatch_seq. unfold opt. rewrite rmatch_alt.
    (* the optional character first takes the C, and the word fails *)
    rewrite (rmatch_cls not_nl_cr _ st0 "C" _ E0 eq_refl).
    assert (Efail : rest (advance st0 ["C"%char])
                    = txt "opyright" ++ ws1 ++ years_text t more ++ ws2
                      ++ name ++ tail)
      by (apply (advance_rest ["C"%char] st0); exact E0).
    rewrite rmatch_seq, rmatch_star.
    rewrite rmatch_cls_fail by (rewrite Efail; reflexivity).
    cbn [orelse].
    rewrite rmatch_seq, rmatch_group, (rmatch_lit_fail "C" (txt "opyright"))
      by (rewrite Efail; reflexivity).
    cbn [orelse]. rewrite rmatch_eps, rmatch_seq.
    (* it then takes nothing *)
    apply (rmatch_star_cls is_space _ s5 [] st0 _ E0 eq_refl eq_refl).
    cbn [advance].
    rewrite rmatch_seq, rmatch_group, (rmatch_lit (txt "Copyright") _ st0 _ E0).
    fold s1. rewrite rmatch_seq.
    apply (rmatch_plus_cls is_space _ s5 ws1 s1 _ E1 Hne1 Hsp1).
    { rewrite Eyears. simpl. now rewrite Hcy. }
    fold s2. rewrite rmatch_seq, rmatch_group.
    apply (rmatch_years_list _ s5 t more s2 (ws2 ++ name ++ tail)).
    + intros st' Hs. apply starts_with_cons in Hs as [r' Hs].
      rewrite rmatch_seq. unfold plus. rewrite rmatch_seq.
      apply rmatch_cls_fail. cbn [close_group rest]. now rewrite Hs.
    + exact Ht.
    + exact Hmore.
    + exact E2.
    + rewrite Ews2. simpl. now apply space_not_comma.
    + fold s3. rewrite rmatch_seq.
      apply (rmatch_plus_cls is_space _ s5 ws2 s3 _ E3 Hne2 Hsp2).
      { rewrite Ename. simpl. now rewrite Hcn. }
      fold s4. rewrite rmatch_seq, rmatch_group.
      apply (rmatch_plus_cls not_nl_cr _ s5 name s4 _ E4 Hnen Hnn).
      { destruct tail as [|x tl]; [reflexivity|].
        simpl in Htail. apply Ascii.eqb_eq in Htail. now subst x. }
      fold s5. apply rmatch_eol. unfold at_eol. rewrite E5. exact Htail.
  - unfold s5, s4, s3, s2, s1, st0.
    cbn [caps close_group pos].
    rewrite !advance_caps. cbn [caps close_group pos].
    rewrite !advance_caps. cbn [caps close_group pos].
    rewrite !advance_caps. cbn [caps close_group pos].
    rewrite !advance_pos. cbn [caps close_group pos].
    rewrite !advance_pos. cbn [caps close_group pos].
    change (length (txt "Copyright")) with 9.
    repeat f_equal; lia.
Qed.

(** ** The spans of a statement *)

Lemma slice_app_mid (p w q : str) (a b : nat) :
  a = length p -> b = length p + length w ->
  slice (p ++ w ++ q) a b = w.
Proof.
  intros -> ->. unfold slice.
  rewrite skipn_app, skipn_all, Nat.sub_diag. simpl.
  replace (length p + length w - length p) with (length w) by lia.
  rewrite firstn_app, firstn_all, Nat.sub_diag. simpl. apply app_nil_r.
Qed.

Lemma slice_from_app (p q : str) (n : nat) :
  n = length p -> slice_from (p ++ q) n = q.
Proof.
  intros ->. unfold slice_from.
  now rewrite skipn_app, skipn_all, Nat.sub_diag.
Qed.

Lemma search_copyright_of_caps (content : str) (m : mstate)
  (a a' b b' c c' : nat) :
  search copyright_pattern content 0 = Matched m ->
  caps m = [(3, (c, c')); (2, (b, b')); (1, (a, a'))] ->
  _search_copyright_information content =
    Ok (Some (Z.of_nat a, Z.of_nat a'), Some (Z.of_nat b, Z.of_nat b'),
        Some (Z.of_nat c, Z.of_nat c')).
Proof.
  intros Hs Hc. unfold _search_copyright_information, span.
  rewrite Hs, Hc. reflexivity.
Qed.

(** The spans of a statement followed by the end of its line. *)
Lemma copyright_statement_spans (ws1 : str) (t : year_token)
  (more : list (str * year_token)) (ws2 name tail : str) :
  is_spacing ws1 = true -> token_ok t = true -> more_ok more = true ->
  is_spacing ws2 = true -> is_holder_name name = true ->
  ends_line tail = true ->
  let content := copyright_statement ws1 t more ws2 name ++ tail in
  exists b c d e : nat,
    _search_copyright_information content =
      Ok (Some (0%Z, 9%Z), Some (Z.of_nat b, Z.of_nat c),
          Some (Z.of_nat d, Z.of_nat e))
    /\ slice content b c = years_text t more
    /\ slice content d e = name
    /\ slice_from content e = tail.
Proof.
  intros Hws1 Ht Hmore Hws2 Hname Htail content.
  destruct (copyright_statement_search ws1 t more ws2 name tail
              Hws1 Ht Hmore Hws2 Hname Htail) as (m & Hs & Hc).
  fold content in Hs.
  do 4 eexists. split; [exact (search_copyright_of_caps _ _ _ _ _ _ _ _ Hs Hc)|].
  unfold content, copyright_statement.
  repeat split.
  - rewrite <- !app_assoc, (app_assoc (txt "Copyright") ws1).
    apply slice_app_mid; rewrite ?length_app; simpl; lia.
  - rewrite <- !app_assoc.
    rewrite (app_assoc ws1), (app_assoc (ws1 ++ _)), (app_assoc (txt "Copyright")).
    apply slice_app_mid; rewrite ?length_app; simpl; lia.
  - apply slice_from_app. rewrite !length_app. simpl. lia.
Qed.

(** ** The classifiers *)

Lemma search_copyright_total (content : str) :
  _search_copyright_information content = Ok (None, None, None)
  \/ exists cs ys ns,
       _search_copyright_information content = Ok (Some cs, Some ys, Some ns).
Proof.
  unfold _search_copyright_information.
  destruct (search copyright_pattern content 0) eqn:Hs; eauto.
  now apply search_not_exhausted in Hs.
Qed.

Lemma identify_copyright_loop_none (U : str) (names : list (str * str)) :
  identify_copyright_loop U names None = U.
Proof. induction names as [|[i n] names IH]; [reflexivity|exact IH]. Qed.

Lemma identify_license_loop_none (U : str)
  (licenses : list (str * LicenseEntryPoint)) (part : license_part) :
  identify_license_loop U licenses None part = U.
Proof. induction licenses as [|[i n] licenses IH]; [reflexivity|exact IH]. Qed.

Lemma LicenseDescriptor_parse_found
  (U : str) (names : list (str * str)) (licenses : list (str * LicenseEntryPoint))
  (c : ascii) (text : str) (cs ys ns : Z * Z) :
  _search_copyright_information (c :: text) = Ok (Some cs, Some ys, Some ns) ->
  LicenseDescriptor_parse U names licenses (LicenseDescriptor true) (c :: text)
  = Ok (Descriptor LICENSE_FILETYPE true (Some (c :: text))
          (Some (zslice (c :: text) (fst ns) (snd ns)))
          (Some (zslice (c :: text) (fst ys) (snd ys)))
          (Some U)
          (Some (identify_license_loop U licenses
                   (Some (zslice_to (c :: text) (fst cs) ++ placeholder
                          ++ zslice_from (c :: text) (snd ns)))
                   part_license_file))).
Proof.
  intros Hs. unfold LicenseDescriptor_parse, _replace_copyright_with_placeholder.
  cbn [read LicenseDescriptor new_descriptor file_exists negb set_content content].
  rewrite Hs. cbn [bind subscript].
  unfold identify_license, identify_copyright.
  cbn [copyright_name set_copyright_identifier set_copyright_years
       set_copyright_name set_license_identifier file_type file_exists content
       copyright_years copyright_identifier license_identifier].
  rewrite identify_copyright_loop_none. reflexivity.
Qed.

Lemma LicenseDescriptor_parse_not_found
  (U : str) (names : list (str * str)) (licenses : list (str * LicenseEntryPoint))
  (c : ascii) (text : str) :
  _search_copyright_information (c :: text) = Ok (None, None, None) ->
  LicenseDescriptor_parse U names licenses (LicenseDescriptor true) (c :: text)
  = Ok (Descriptor LICENSE_FILETYPE true (Some (c :: text)) None None
          (Some U) (Some U)).
Proof.
  intros Hs. unfold LicenseDescriptor_parse, _replace_copyright_with_placeholder.
  cbn [read LicenseDescriptor new_descriptor file_exists negb set_content content].
  rewrite Hs. cbn [bind subscript].
  unfold identify_license, identify_copyright.
  cbn [copyright_name set_copyright_identifier set_copyright_years
       set_copyright_name set_license_identifier file_type file_exists content
       copyright_years copyright_identifier license_identifier].
  rewrite identify_copyright_loop_none, identify_license_loop_none.
  reflexivity.
Qed.

Lemma SourceDescriptor_parse_found
  (U : str) (names : list (str * str)) (licenses : list (str * LicenseEntryPoint))
  (c : ascii) (text : str) (index index' : nat) (b : ascii) (block : str)
  (off : option nat) (cs ys ns : Z * Z) :
  scan_past_coding_and_shebang_lines (c :: text) = Ok index ->
  scan_past_empty_lines (c :: text) index = Ok index' ->
  get_comment_block (c :: text) index' = Ok (Some (b :: block), off) ->
  _search_copyright_information (b :: block) = Ok (Some cs, Some ys, Some ns) ->
  SourceDescriptor_parse U names licenses (SourceDescriptor true) (c :: text)
  = Ok (Descriptor SOURCE_FILETYPE true (Some (c :: text))
          (Some (zslice (b :: block) (fst ns) (snd ns)))
          (Some (zslice (b :: block) (fst ys) (snd ys)))
          (Some (identify_copyright_loop U names
                   (Some (zslice (b :: block) (fst ns) (snd ns)))))
          (Some (identify_license_loop U licenses
                   (Some (placeholder ++ zslice_from (b :: block) (snd ns)))
                   part_file_header))).
Proof.
  intros H1 H2 H3 H4. unfold SourceDescriptor_parse.
  cbn [read SourceDescriptor new_descriptor file_exists negb set_content content].
  rewrite H1. cbn [bind]. rewrite H2. cbn [bind]. rewrite H3. cbn [bind fst].
  rewrite H4. reflexivity.
Qed.

(** ** Comment blocks *)

Lemma nth_error_app_at (a b : str) (i : nat) :
  nth_error (a ++ b) (length a + i) = nth_error b i.
Proof.
  rewrite nth_error_app2 by lia. f_equal. lia.
Qed.

Lemma single_line_no_terminator (line : str) (q : nat) (c : ascii) :
  single_line line = true -> nth_error line q = Some c ->
  c <> LF /\ c <> CR.
Proof.
  intros Hs Hn. apply nth_error_In in Hn.
  unfold single_line in Hs. rewrite forallb_forall in Hs.
  specialize (Hs c Hn). apply negb_true_iff in Hs.
  unfold is_boundary in Hs. apply orb_false_iff in Hs as [H1 H2].
  split; intros ->; discriminate.
Qed.

(** The step over a line that ends with a line feed. *)
Lemma next_line_of_line (pre line rest : str) :
  single_line line = true ->
  get_index_of_next_line (pre ++ line ++ LF :: rest) (length pre)
  = length pre + length line + 1.
Proof.
  intros Hs.
  rewrite (next_line_skip _ (length pre) (length pre + length line)).
  - rewrite (next_line_at_terminator _ _ LF).
    + reflexivity.
    + rewrite nth_error_app_at.
      replace (length line) with (length line + 0) by lia.
      now rewrite nth_error_app_at.
    + now left.
  - lia.
  - intros q Hq.
    replace q with (length pre + (q - length pre)) by lia.
    rewrite nth_error_app_at, nth_error_app1 by lia.
    destruct (nth_error line (q - length pre)) as [c|] eqn:E.
    + destruct (single_line_no_terminator _ _ _ Hs E).
      split; congruence.
    + split; discriminate.
Qed.

Lemma prefixb_firstn (s x : str) :
  prefixb s x = str_eqb (firstn (length s) x) s.
Proof.
  revert x; induction s as [|c s IH]; intros [|y x]; simpl; try reflexivity.
  rewrite IH, (Ascii.eqb_sym c y). reflexivity.
Qed.

Lemma slice_app_at (pre x : str) (n : nat) :
  slice (pre ++ x) (length pre) (length pre + n) = firstn n x.
Proof.
  unfold slice. rewrite skipn_app, skipn_all, Nat.sub_diag. simpl.
  f_equal. lia.
Qed.

Lemma comment_text_length (k : marker) (lines : list str) :
  length lines <= length (comment_text k lines).
Proof.
  induction lines as [|l ls IH]; simpl; [lia|].
  rewrite length_app. simpl. lia.
Qed.

Lemma single_line_marker (k : marker) (l : str) :
  single_line l = true -> single_line (marker_text k ++ txt " " ++ l) = true.
Proof.
  intros H. unfold single_line. rewrite !forallb_app.
  destruct k; simpl; exact H.
Qed.

(** The loop of [get_comment_block] runs to the end of the comment lines. *)
Lemma get_comment_block_loop_lines (k : marker) (code : str) :
  prefixb (marker_text k) code = false ->
  forall lines pre fuel,
    lines <> [] -> length lines <= fuel ->
    forallb single_line lines = true ->
    get_comment_block_loop fuel (pre ++ comment_text k lines ++ code)
      (marker_text k) (length pre)
    = Ok (length pre + length (comment_text k lines)).
Proof.
  intros Hcode lines; induction lines as [|l ls IH];
    intros pre fuel Hne Hf Hs; [contradiction|].
  destruct fuel as [|fuel]; [simpl in Hf; lia|].
  simpl in Hs. apply andb_true_iff in Hs as [Hl Hs].
  cbn [get_comment_block_loop comment_text].
  set (line := marker_text k ++ txt " " ++ l).
  rewrite <- (app_assoc line), <- app_comm_cons.
  rewrite (next_line_of_line pre line _ (single_line_marker k l Hl)).
  replace (pre ++ line ++ LF :: comment_text k ls ++ code)
    with ((pre ++ line ++ [LF]) ++ comment_text k ls ++ code)
    by (rewrite <- !app_assoc; reflexivity).
  replace (length pre + length line + 1) with (length (pre ++ line ++ [LF]))
    by (rewrite !length_app; simpl; lia).
  rewrite slice_app_at, <- prefixb_firstn.
  destruct ls as [|l' ls'].
  - simpl comment_text. cbn [app]. rewrite Hcode. cbn [negb].
    f_equal. rewrite !length_app. simpl. lia.
  - replace (prefixb (marker_text k) (comment_text k (l' :: ls') ++ code))
      with true.
    + cbn [negb]. rewrite IH.
      * f_equal. rewrite !length_app. simpl. rewrite !length_app. simpl. lia.
      * discriminate.
      * simpl in Hf. simpl. lia.
      * exact Hs.
    + symmetry. cbn [comment_text]. rewrite <- !app_assoc. apply prefixb_app.
Qed.

Lemma splitlines_aux_line (line : str) :
  forall cur rest,
    single_line line = true ->
    splitlines_aux cur (line ++ LF :: rest)
    = (rev cur ++ line) :: splitlines_aux [] rest.
Proof.
  induction line as [|c line IH]; intros cur rest Hs.
  - simpl. now rewrite app_nil_r.
  - simpl in Hs. apply andb_true_iff in Hs as [Hc Hs].
    apply negb_true_iff in Hc. unfold is_boundary in Hc.
    apply orb_false_iff in Hc as [Hc1 Hc2].
    simpl. rewrite Hc1, Hc2, (IH (c :: cur) rest Hs). simpl.
    now rewrite <- app_assoc.
Qed.

Lemma splitlines_comment_text (k : marker) (lines : list str) :
  forallb single_line lines = true ->
  splitlines (comment_text k lines)
  = map (fun l => marker_text k ++ txt " " ++ l) lines.
Proof.
  unfold splitlines. induction lines as [|l ls IH]; intros Hs; [reflexivity|].
  simpl in Hs. apply andb_true_iff in Hs as [Hl Hs].
  cbn [comment_text map].
  rewrite (splitlines_aux_line _ [] _ (single_line_marker k l Hl)).
  simpl rev. cbn [app]. now rewrite (IH Hs).
Qed.

Lemma strip_marker (k : marker) (lines : list str) :
  map (fun line => slice_from line (length (marker_text k) + 1))
      (map (fun l => marker_text k ++ txt " " ++ l) lines)
  = lines.
Proof.
  rewrite map_map. rewrite <- (map_id lines) at 2.
  apply map_ext. intros l. destruct k; reflexivity.
Qed.

Lemma search_comment_marker (k : marker) (x : str) :
  exists m,
    search comment_pattern (marker_text k ++ x) 0 = Matched m
    /\ caps m = [(1, (0, length (marker_text k)))].
Proof.
  destruct k; eexists; (split; [reflexivity|reflexivity]).
Qed.

Lemma join_cons (sep l : str) (ls : list str) :
  join sep (l :: ls)
  = l ++ match ls with [] => [] | _ => sep ++ join sep ls end.
Proof. destruct ls; simpl; [now rewrite app_nil_r|reflexivity]. Qed.

(** The comment block of a file that starts with comment lines. *)
Lemma get_comment_block_comment_text (k : marker) (lines : list str)
  (code : str) :
  lines <> [] -> forallb single_line lines = true ->
  prefixb (marker_text k) code = false ->
  get_comment_block (comment_text k lines ++ code) 0
  = Ok (Some (join [LF] lines), Some (length (marker_text k) + 1)).
Proof.
  intros Hne Hs Hcode.
  set (content := comment_text k lines ++ code).
  assert (Hhead : exists x, content = marker_text k ++ x).
  { unfold content. destruct lines as [|l ls]; [contradiction|].
    cbn [comment_text]. rewrite <- !app_assoc. eauto. }
  destruct Hhead as [x Hx].
  destruct (search_comment_marker k x) as (m & Hm & Hc).
  rewrite <- Hx in Hm.
  unfold get_comment_block. rewrite Hm.
  unfold group_text, group_start, span. rewrite Hc. cbn [lookup_group Nat.eqb fst].
  assert (Htok : slice content 0 (length (marker_text k)) = marker_text k).
  { rewrite Hx. unfold slice. rewrite Nat.sub_0_r. cbn [skipn].
    now rewrite firstn_app, firstn_all, Nat.sub_diag, app_nil_r. }
  rewrite Htok. change (Z.to_nat (Z.of_nat 0)) with 0.
  pose proof (get_comment_block_loop_lines k code Hcode lines []
                (S (length content)) Hne) as Hloop.
  cbn [app length] in Hloop. fold content in Hloop.
  rewrite Hloop.
  - cbn [bind]. do 3 f_equal.
    assert (Hblock : slice content 0 (0 + length (comment_text k lines))
                     = comment_text k lines).
    { unfold slice, content. rewrite Nat.sub_0_r. cbn [skipn]. cbn [Nat.add].
      now rewrite firstn_app, firstn_all, Nat.sub_diag, app_nil_r. }
    rewrite Hblock, (splitlines_comment_text k lines Hs), strip_marker.
    reflexivity.
  - pose proof (comment_text_length k lines). unfold content.
    rewrite length_app. lia.
  - exact Hs.
Qed.

(** ** The scanners on a file that starts with a comment line *)

Lemma is_comment_line_eq (content : str) (index : nat) :
  is_comment_line content index =
    match nth_error content index with
    | Some c => Ok (Ascii.eqb c "#")
    | None => Raise IndexError
    end.
Proof.
  unfold is_comment_line.
  destruct (nth_error content index) as [c|]; [|reflexivity].
  f_equal. replace (str_eqb _ _) with false; [apply orb_false_r|].
  symmetry. apply str_eqb_neq. intros E.
  assert (L : length (slice content index (index + 1)) <= 1).
  { unfold slice. rewrite length_firstn. lia. }
  rewrite E in L. simpl in L. lia.
Qed.

Lemma scan_coding_comment_text (k : marker) (lines : list str) (code : str) :
  lines <> [] ->
  (k = Hash -> is_coding_line (comment_text k lines ++ code) 0 = false) ->
  scan_past_coding_and_shebang_lines (comment_text k lines ++ code) = Ok 0.
Proof.
  intros Hne Hcoding. destruct lines as [|l ls]; [contradiction|].
  unfold scan_past_coding_and_shebang_lines.
  cbn [scan_past_coding_and_shebang_lines_loop].
  rewrite is_comment_line_eq. destruct k.
  - rewrite (Hcoding eq_refl). reflexivity.
  - reflexivity.
Qed.

Lemma scan_empty_comment_text (k : marker) (lines : list str) (code : str) :
  lines <> [] -> forallb single_line lines = true ->
  scan_past_empty_lines (comment_text k lines ++ code) 0 = Ok 0.
Proof.
  intros Hne Hs. destruct lines as [|l ls]; [contradiction|].
  simpl in Hs. apply andb_true_iff in Hs as [Hl _].
  unfold scan_past_empty_lines. cbn [scan_past_empty_lines_loop].
  replace (is_empty_line (comment_text k (l :: ls) ++ code) 0) with false;
    [reflexivity|].
  symmetry. unfold is_empty_line. apply Nat.eqb_neq.
  cbn [comment_text]. rewrite <- !app_assoc, <- app_comm_cons.
  pose proof (next_line_of_line [] (marker_text k ++ txt " " ++ l)
                (comment_text k ls ++ code) (single_line_marker k l Hl)) as H.
  cbn [app length] in H. rewrite <- !app_assoc in H. rewrite H.
  rewrite !length_app. destruct k; simpl; lia.
Qed.

(** The first registry entry with a given file header decides. *)
Lemma identify_license_loop_first (U : str)
  (before after : list (str * LicenseEntryPoint)) (lname : str)
  (lic : LicenseEntryPoint) :
  forallb (fun e => negb (str_eqb (file_header (snd e)) (file_header lic)))
          before = true ->
  identify_license_loop U (before ++ (lname, lic) :: after)
    (Some (file_header lic)) part_file_header = lname.
Proof.
  induction before as [|[n l] before IH]; intros H; simpl.
  - now rewrite str_eqb_refl.
  - simpl in H. apply andb_true_iff in H as [H1 H2].
    apply negb_true_iff in H1. rewrite H1. now apply IH.
Qed.

Lemma substitute_at_start (x statement : str) :
  substitute (placeholder ++ x) statement = statement ++ x.
Proof. reflexivity. Qed.

(** ** The classifiers always come back *)

Lemma get_comment_block_loop_total (content tok : str) :
  tok <> [] ->
  forall fuel e,
    length content - get_index_of_next_line content e < fuel ->
    exists r, get_comment_block_loop fuel content tok e = Ok r.
Proof.
  intros Htok fuel; induction fuel as [|fuel IH]; intros e Hf; [lia|].
  cbn [get_comment_block_loop].
  set (e' := get_index_of_next_line content e) in *.
  destruct (str_eqb (slice content e' (e' + length tok)) tok) eqn:E;
    cbn [negb]; [|eauto].
  apply str_eqb_eq in E.
  assert (He' : e' < length content).
  { destruct (le_lt_dec (length content) e') as [Hge|]; [|assumption].
    exfalso. apply Htok. rewrite <- E. unfold slice.
    now rewrite skipn_all2, firstn_nil. }
  apply IH. pose proof (get_index_of_next_line_gt content e' He'). lia.
Qed.

(** The marker found by [get_comment_block] is one of the two. *)
Lemma comment_pattern_match (content : str) (st0 m : mstate) :
  in_text content st0 -> caps st0 = [] -> reach comment_pattern st0 m ->
  exists a b,
    caps m = [(1, (a, b))]
    /\ (slice content a b = txt "#" \/ slice content a b = txt "//").
Proof.
  intros Hi Hc H. unfold comment_pattern in H.
  apply reach_seq_inv in H as (s1 & H1 & H).
  apply reach_bol_inv in H1 as [-> _].
  apply reach_group_inv in H as (s2 & H & ->).
  destruct (reach_in_text _ _ _ _ Hi H) as (_ & _ & Hs).
  exists (pos st0), (pos s2). split.
  - simpl. rewrite (reach_no_group _ _ _ H eq_refl), Hc. reflexivity.
  - apply reach_alt_inv in H as [H|H]; apply reach_lit in H as [H _];
      [left|right]; exact (slice_unique _ _ _ _ Hs H).
Qed.

(** [get_comment_block] returns a block and an offset, or neither; it does
    not raise. *)
Lemma get_comment_block_total (content : str) (index : nat) :
  get_comment_block content index = Ok (None, None)
  \/ exists block start,
       get_comment_block content index = Ok (Some block, Some start).
Proof.
  unfold get_comment_block.
  destruct (search comment_pattern content index) as [m| |] eqn:Hs.
  - right. apply search_matched_at in Hs as (st0 & Hi & Hc & Hr).
    destruct (comment_pattern_match content st0 m Hi Hc Hr)
      as (a & b & Hcaps & Htok).
    unfold group_text, group_start, span. rewrite Hcaps.
    cbn [lookup_group Nat.eqb fst].
    set (tok := slice content a b) in *.
    assert (Hne : tok <> []) by (destruct Htok as [-> | ->]; discriminate).
    destruct (get_comment_block_loop_total content tok Hne
                (S (length content)) (Z.to_nat (Z.of_nat a))) as [r Hr'].
    { pose proof (get_index_of_next_line_le content (Z.to_nat (Z.of_nat a))).
      lia. }
    rewrite Hr'. cbn [bind]. eauto.
  - now left.
  - now apply search_not_exhausted in Hs.
Qed.

Lemma scan_past_coding_and_shebang_lines_loop_result (content : str)
  (fuel index : nat) :
  length content - index < fuel ->
  (exists r, scan_past_coding_and_shebang_lines_loop fuel content index = Ok r)
  \/ scan_past_coding_and_shebang_lines_loop fuel content index
     = Raise IndexError.
Proof.
  revert index; induction fuel as [|fuel IH]; intros index Hf; [lia|].
  cbn [scan_past_coding_and_shebang_lines_loop]. rewrite is_comment_line_eq.
  destruct (nth_error content index) as [c|] eqn:Ec; cbn [bind]; [|now right].
  apply nth_error_lt in Ec.
  destruct (_ && _); [|eauto].
  apply IH. pose proof (get_index_of_next_line_gt content index Ec). lia.
Qed.

(** The Source-File Classifier returns a descriptor, or raises the
    [IndexError] of the comment-line test. *)
Lemma SourceDescriptor_parse_result
  (U : str) (names : list (str * str)) (licenses : list (str * LicenseEntryPoint))
  (present : bool) (text : str) :
  (exists d,
     SourceDescriptor_parse U names licenses (SourceDescriptor present) text
     = Ok d)
  \/ SourceDescriptor_parse U names licenses (SourceDescriptor present) text
     = Raise IndexError.
Proof.
  unfold SourceDescriptor_parse.
  destruct present; cbn [read SourceDescriptor new_descriptor file_exists
                             negb set_content content]; [|eauto].
  destruct text as [|c text]; [eauto|].
  destruct (scan_past_coding_and_shebang_lines_loop_result (c :: text)
              (S (length (c :: text))) 0 ltac:(lia)) as [[i Hi]|Hi];
    unfold scan_past_coding_and_shebang_lines; rewrite Hi; cbn [bind];
    [|now right].
  destruct (scan_past_empty_lines_total (c :: text) i) as (i' & Hi' & _).
  rewrite Hi'. cbn [bind].
  destruct (get_comment_block_total (c :: text) i')
    as [Hb|(block & start & Hb)]; rewrite Hb; cbn [bind fst]; [eauto|].
  destruct block as [|b block]; [eauto|].
  destruct (search_copyright_total (b :: block)) as [Hs|(cs & ys & ns & Hs)];
    rewrite Hs; cbn [bind subscript]; eauto.
Qed.

(** A file that ends with its interpreter line: the scanner reads past the
    last character. *)
Lemma scanner_raises_past_last_line :
  scan_past_coding_and_shebang_lines (txt "#!/bin/sh" ++ [LF]) = Raise IndexError.
Proof. reflexivity. Qed.

(** ** Where a search starts *)

Lemma last_before_cons (p : option ascii) (c : ascii) (pre : str) :
  last_before (Some c) pre = last_before p (c :: pre).
Proof.
  unfold last_before. simpl. destruct (rev pre) as [|x r] eqn:E; reflexivity.
Qed.

(** A search answers with the match at the leftmost offset that has one. *)
Lemma search_from_leftmost (r : regex) (m : mstate) (s : str) :
  forall p pos0, search_from r p s pos0 = Matched m ->
    exists pre s', s = pre ++ s'
      /\ rmatch r Matched (MState (pos0 + length pre) (last_before p pre) s' [])
         = Matched m
      /\ forall pre1 pre2, pre = pre1 ++ pre2 -> pre2 <> [] ->
           rmatch r Matched
             (MState (pos0 + length pre1) (last_before p pre1) (pre2 ++ s') [])
           = NoMatch.
Proof.
  induction s as [|c s IH]; intros p pos0 H; simpl in H;
    apply orelse_matched in H as [H|[Hn H]]; try discriminate.
  - exists [], []. simpl. rewrite Nat.add_0_r. repeat split; auto.
    intros pre1 pre2 E Hne. destruct pre1; destruct pre2; try discriminate.
    contradiction.
  - exists [], (c :: s). simpl. rewrite Nat.add_0_r. repeat split; auto.
    intros pre1 pre2 E Hne. destruct pre1; destruct pre2; try discriminate.
    contradiction.
  - apply IH in H as (pre & s' & -> & H & Hbefore).
    exists (c :: pre), s'. rewrite <- last_before_cons. simpl.
    replace (pos0 + S (length pre)) with (S pos0 + length pre) by lia.
    repeat split; auto.
    intros pre1 pre2 E Hne. destruct pre1 as [|x pre1].
    + simpl in E. subst pre2. simpl. rewrite Nat.add_0_r. exact Hn.
    + simpl in E. injection E as <- E.
      rewrite <- last_before_cons. simpl.
      replace (pos0 + S (length pre1)) with (S pos0 + length pre1) by lia.
      now apply Hbefore.
Qed.

(** A search finds nothing exactly when no offset has a match. *)
Lemma search_from_nomatch (r : regex) (s : str) :
  forall p pos0,
    search_from r p s pos0 = NoMatch <->
    forall pre s', s = pre ++ s' ->
      rmatch r Matched (MState (pos0 + length pre) (last_before p pre) s' [])
      = NoMatch.
Proof.
  induction s as [|c s IH]; intros p pos0; simpl; split.
  - intros H pre s' E. destruct pre; destruct s'; try discriminate.
    unfold last_before. simpl. rewrite Nat.add_0_r.
    destruct (rmatch r Matched (MState pos0 p [] [])); simpl in H; congruence.
  - intros H. specialize (H [] [] eq_refl). unfold last_before in H.
    simpl in H. rewrite Nat.add_0_r in H. now rewrite H.
  - intros H pre s' E.
    destruct (rmatch r Matched (MState pos0 p (c :: s) [])) eqn:E0;
      simpl in H; try discriminate.
    destruct pre as [|x pre].
    + simpl in E. subst s'. unfold last_before. simpl. now rewrite Nat.add_0_r.
    + simpl in E. injection E as <- E.
      rewrite <- last_before_cons. simpl.
      replace (pos0 + S (length pre)) with (S pos0 + length pre) by lia.
      now apply (proj1 (IH (Some c) (S pos0)) H).
  - intros H. pose proof (H [] (c :: s) eq_refl) as H0.
    unfold last_before in H0. simpl in H0. rewrite Nat.add_0_r in H0.
    rewrite H0. simpl. apply IH. intros pre s' E.
    specialize (H (c :: pre) s'). rewrite <- last_before_cons in H. simpl in H.
    replace (pos0 + S (length pre)) with (S pos0 + length pre) in H by lia.
    apply H. now rewrite E.
Qed.

Lemma char_before_app (content pre : str) (i : nat) (s' : str) :
  i <= length content -> skipn i content = pre ++ s' ->
  last_before (char_before content i) pre = char_before content (i + length pre).
Proof.
  intros Hi E.
  assert (Hc : content = firstn i content ++ pre ++ s')
    by (rewrite <- E; symmetry; apply firstn_skipn).
  assert (Hl : length (firstn i content) = i) by (rewrite length_firstn; lia).
  destruct pre as [|x pre] using rev_ind.
  - simpl. now rewrite Nat.add_0_r.
  - unfold last_before. rewrite rev_app_distr. simpl.
    rewrite length_app. simpl.
    replace (i + (length pre + 1)) with (S (i + length pre)) by lia.
    simpl.
    assert (Hn : nth_error (firstn i content ++ (pre ++ [x]) ++ s')
                   (i + length pre) = Some x).
    { rewrite nth_error_app2 by lia. rewrite Hl.
      replace (i + length pre - i) with (length pre) by lia.
      rewrite <- app_assoc, nth_error_app2 by lia.
      now rewrite Nat.sub_diag. }
    rewrite <- Hc in Hn. now rewrite Hn.
Qed.

(** ** The first comment line *)

Lemma rmatch_lit_prefix (s : str) (k : mstate -> outcome) :
  forall st,
    rmatch (lit s) k st
    = if prefixb s (rest st) then k (advance st s) else NoMatch.
Proof.
  induction s as [|c s IH]; intros st; [reflexivity|].
  change (lit (c :: s)) with (Seq (Cls (Ascii.eqb c)) (lit s)).
  rewrite rmatch_seq. cbn [rmatch prefixb advance].
  destruct (rest st) as [|x t] eqn:E; [reflexivity|].
  destruct (Ascii.eqb_spec c x) as [<-|]; [|reflexivity].
  rewrite IH. cbn [step rest tl andb]. reflexivity.
Qed.

Lemma rmatch_comment_pattern (st : mstate) :
  rmatch comment_pattern Matched st =
    if at_bol st then
      match marker_of (rest st) with
      | Some tok => Matched (close_group 1 (pos st) (advance st tok))
      | None => NoMatch
      end
    else NoMatch.
Proof.
  unfold comment_pattern.
  rewrite rmatch_seq. cbn [rmatch]. destruct (at_bol st); [|reflexivity].
  rewrite !rmatch_lit_prefix. unfold marker_of.
  destruct (prefixb (txt "#") (rest st)); [reflexivity|].
  destruct (prefixb (txt "//") (rest st)); reflexivity.
Qed.

Lemma marker_of_some (s tok : str) :
  marker_of s = Some tok ->
  (tok = txt "#" \/ tok = txt "//") /\ exists t, s = tok ++ t.
Proof.
  unfold marker_of.
  destruct (prefixb (txt "#") s) eqn:E1.
  - intros H. injection H as <-. split; [now left|now apply prefixb_true].
  - destruct (prefixb (txt "//") s) eqn:E2; [|discriminate].
    intros H. injection H as <-. split; [now right|now apply prefixb_true].
Qed.

(** The state of the search at offset [index + length pre]. *)
Lemma search_state_at (content pre s' : str) (index : nat) :
  index <= length content -> skipn index content = pre ++ s' ->
  let q := index + length pre in
  at_bol (MState q (last_before (char_before content index) pre) s' [])
  = line_start content q
  /\ s' = skipn q content /\ q <= length content.
Proof.
  intros Hi E q. split; [|split].
  - unfold at_bol, line_start. cbn [prev].
    now rewrite (char_before_app content pre index s' Hi E).
  - unfold q. rewrite Nat.add_comm, <- skipn_skipn, E.
    now rewrite skipn_app, skipn_all, Nat.sub_diag.
  - assert (L : length (skipn index content) = length pre + length s')
      by (rewrite E; apply length_app).
    rewrite length_skipn in L. unfold q. lia.
Qed.

Lemma split_at_offset (content : str) (index q : nat) :
  index <= q <= length content ->
  exists pre s', skipn index content = pre ++ s' /\ q = index + length pre.
Proof.
  intros Hq.
  exists (firstn (q - index) (skipn index content)),
         (skipn (q - index) (skipn index content)).
  split; [symmetry; apply firstn_skipn|].
  rewrite length_firstn, length_skipn. lia.
Qed.

Lemma comment_line_at_state (content pre s' : str) (index : nat) :
  index <= length content -> skipn index content = pre ++ s' ->
  rmatch comment_pattern Matched
    (MState (index + length pre) (last_before (char_before content index) pre)
            s' [])
  = if comment_line_at content (index + length pre) then
      match marker_of s' with
      | Some tok =>
          Matched (close_group 1 (index + length pre)
                     (advance (MState (index + length pre)
                                 (last_before (char_before content index) pre)
                                 s' []) tok))
      | None => NoMatch
      end
    else NoMatch.
Proof.
  intros Hi E. destruct (search_state_at content pre s' index Hi E)
    as (Hbol & Hs & _).
  rewrite rmatch_comment_pattern, Hbol. unfold comment_line_at.
  cbn [rest pos]. rewrite <- Hs.
  destruct (line_start content (index + length pre)); [|reflexivity].
  destruct (marker_of s'); reflexivity.
Qed.

(** What the search for the comment pattern finds: the first line start, at
    or after [index], where a marker stands. *)
Lemma search_comment_pattern (content : str) (index : nat) :
  index <= length content ->
  (search comment_pattern content index = NoMatch
   /\ forall q, index <= q <= length content ->
        comment_line_at content q = false)
  \/ exists q tok m,
       index <= q <= length content
       /\ comment_line_at content q = true
       /\ (forall q', index <= q' < q -> comment_line_at content q' = false)
       /\ marker_of (skipn q content) = Some tok
       /\ search comment_pattern content index = Matched m
       /\ caps m = [(1, (q, q + length tok))].
Proof.
  intros Hi. unfold search. rewrite (Nat.min_l _ _ Hi).
  destruct (search_from comment_pattern (char_before content index)
              (skipn index content) index) as [m| |] eqn:Hs.
  - right. apply search_from_leftmost in Hs as (pre & s' & E & Hm & Hbefore).
    destruct (search_state_at content pre s' index Hi E) as (_ & Hs' & Hq).
    rewrite (comment_line_at_state content pre s' index Hi E) in Hm.
    destruct (comment_line_at content (index + length pre)) eqn:Hc;
      [|discriminate].
    destruct (marker_of s') as [tok|] eqn:Htok; [|discriminate].
    injection Hm as <-.
    exists (index + length pre), tok. eexists.
    split; [lia|]. split; [exact Hc|]. split.
    { intros q' Hq'.
      assert (Hsplit : exists pre1 pre2, pre = pre1 ++ pre2 /\ pre2 <> []
                                         /\ q' = index + length pre1).
      { exists (firstn (q' - index) pre), (skipn (q' - index) pre).
        split; [symmetry; apply firstn_skipn|]. split.
        - intros Hn. assert (L : length (skipn (q' - index) pre) = 0)
            by now rewrite Hn.
          rewrite length_skipn in L. lia.
        - rewrite length_firstn. lia. }
      destruct Hsplit as (pre1 & pre2 & Ep & Hne & ->).
      specialize (Hbefore pre1 pre2 Ep Hne).
      assert (E' : skipn index content = pre1 ++ pre2 ++ s')
        by (rewrite E, Ep; now rewrite <- app_assoc).
      rewrite (comment_line_at_state content pre1 (pre2 ++ s') index Hi E')
        in Hbefore.
      destruct (comment_line_at content (index + length pre1)) eqn:Hc';
        [|reflexivity].
      exfalso. unfold comment_line_at in Hc'.
      apply andb_true_iff in Hc' as [_ Hc'].
      destruct (search_state_at content pre1 (pre2 ++ s') index Hi E')
        as (_ & Hs1 & _).
      rewrite <- Hs1 in Hc'.
      destruct (marker_of (pre2 ++ s')); discriminate. }
    split; [now rewrite <- Hs'|]. split; [reflexivity|].
    cbn [caps close_group]. rewrite advance_caps, advance_pos. reflexivity.
  - left. split; [reflexivity|]. intros q Hq.
    destruct (split_at_offset content index q Hq) as (pre & s' & E & ->).
    pose proof (proj1 (search_from_nomatch comment_pattern _ _ _) Hs pre s' E)
      as Hn.
    rewrite (comment_line_at_state content pre s' index Hi E) in Hn.
    destruct (comment_line_at content (index + length pre)) eqn:Hc;
      [|reflexivity].
    exfalso. unfold comment_line_at in Hc.
    apply andb_true_iff in Hc as [_ Hc].
    destruct (search_state_at content pre s' index Hi E) as (_ & Hs1 & _).
    rewrite <- Hs1 in Hc. destruct (marker_of s'); discriminate.
  - now apply search_from_not_exhausted in Hs.
Qed.

(** ** Helpers for the block extractor *)

Lemma search_clamp (r : regex) (content : str) (index : nat) :
  search r content index = search r content (Nat.min index (length content)).
Proof.
  unfold search. cbv zeta. now rewrite <- Nat.min_assoc, Nat.min_id.
Qed.

Lemma slice_of_prefix (content tok t : str) (q : nat) :
  skipn q content = tok ++ t -> slice content q (q + length tok) = tok.
Proof.
  intros E. unfold slice. rewrite E.
  replace (q + length tok - q) with (length tok) by lia.
  now rewrite firstn_app, firstn_all, Nat.sub_diag, app_nil_r.
Qed.

(** ** Scanning after a prefix *)

Lemma find_aux_shift (sub s : str) (i n : nat) :
  find_aux sub s (n + i) = option_map (fun j => n + j) (find_aux sub s i).
Proof.
  revert i; induction s as [|x s IH]; intros i; simpl.
  - destruct (prefixb sub []); reflexivity.
  - destruct (prefixb sub (x :: s)); [reflexivity|].
    rewrite <- IH. f_equal. lia.
Qed.

Lemma skipn_app_plus (pre rest : str) (a : nat) :
  skipn (length pre + a) (pre ++ rest) = skipn a rest.
Proof. induction pre as [|x pre IH]; [reflexivity|exact IH]. Qed.

Lemma find_shift (pre rest sub : str) (i : nat) :
  find (pre ++ rest) sub (length pre + i)
  = option_map (fun j => length pre + j) (find rest sub i).
Proof.
  unfold find. rewrite length_app.
  destruct (length rest <? i) eqn:E.
  - apply Nat.ltb_lt in E.
    replace (length pre + length rest <? length pre + i) with true
      by (symmetry; apply Nat.ltb_lt; lia).
    reflexivity.
  - apply Nat.ltb_ge in E.
    replace (length pre + length rest <? length pre + i) with false
      by (symmetry; apply Nat.ltb_ge; lia).
    rewrite skipn_app_plus. apply find_aux_shift.
Qed.

(** The step depends on the text from the offset on only. *)
Lemma next_line_shift (pre rest : str) (i : nat) :
  get_index_of_next_line (pre ++ rest) (length pre + i)
  = length pre + get_index_of_next_line rest i.
Proof.
  unfold get_index_of_next_line. rewrite !find_shift, length_app.
  destruct (find rest [LF] i) as [a|], (find rest [CR] i) as [b|],
    (find rest [CR; LF] i) as [c|]; cbn [option_map add_found fold_right found_at];
    try reflexivity;
    repeat match goal with
    | |- context [?x =? ?y] => destruct (Nat.eqb_spec x y)
    end; lia.
Qed.

Lemma slice_shift (pre rest : str) (a b : nat) :
  slice (pre ++ rest) (length pre + a) (length pre + b) = slice rest a b.
Proof.
  unfold slice. rewrite skipn_app_plus. f_equal. lia.
Qed.

Lemma is_comment_line_shift (pre rest : str) (i : nat) :
  is_comment_line (pre ++ rest) (length pre + i) = is_comment_line rest i.
Proof. now rewrite !is_comment_line_eq, nth_error_app_at. Qed.

Lemma is_coding_line_shift (pre rest : str) (i : nat) :
  is_coding_line (pre ++ rest) (length pre + i) = is_coding_line rest i.
Proof.
  unfold is_coding_line. now rewrite next_line_shift, slice_shift.
Qed.

Lemma is_shebang_line_shift (pre rest : str) (i : nat) :
  is_shebang_line (pre ++ rest) (length pre + i) = is_shebang_line rest i.
Proof.
  unfold is_shebang_line.
  now rewrite <- Nat.add_assoc, slice_shift.
Qed.

Lemma is_empty_line_shift (pre rest : str) (i : nat) :
  is_empty_line (pre ++ rest) (length pre + i) = is_empty_line rest i.
Proof.
  unfold is_empty_line. rewrite next_line_shift.
  destruct (Nat.eqb_spec (get_index_of_next_line rest i) (i + 1));
    [apply Nat.eqb_eq|apply Nat.eqb_neq]; lia.
Qed.

Lemma scan_coding_loop_shift (pre rest : str) (fuel i : nat) :
  scan_past_coding_and_shebang_lines_loop fuel (pre ++ rest) (length pre + i)
  = shift_result (length pre)
      (scan_past_coding_and_shebang_lines_loop fuel rest i).
Proof.
  revert i; induction fuel as [|fuel IH]; intros i; [reflexivity|].
  cbn [scan_past_coding_and_shebang_lines_loop].
  rewrite is_comment_line_shift, is_coding_line_shift, is_shebang_line_shift,
    next_line_shift.
  destruct (is_comment_line rest i) as [c| |]; cbn [bind shift_result];
    try reflexivity.
  destruct (c && _); [apply IH|reflexivity].
Qed.

(** More fuel than needed changes nothing. *)
Lemma scan_coding_loop_more_fuel (content : str) (fuel fuel' i : nat) :
  length content - i < fuel -> fuel <= fuel' ->
  scan_past_coding_and_shebang_lines_loop fuel' content i
  = scan_past_coding_and_shebang_lines_loop fuel content i.
Proof.
  revert fuel' i; induction fuel as [|fuel IH]; intros fuel' i Hf Hle; [lia|].
  destruct fuel' as [|fuel']; [lia|].
  cbn [scan_past_coding_and_shebang_lines_loop]. rewrite is_comment_line_eq.
  destruct (nth_error content i) as [c|] eqn:Ec; cbn [bind]; [|reflexivity].
  apply nth_error_lt in Ec.
  destruct (_ && _); [|reflexivity].
  apply IH; [|lia].
  pose proof (get_index_of_next_line_gt content i Ec). lia.
Qed.

(** ** The Preamble Scanner, line by line *)

Lemma is_shebang_line_of_line (l rest : str) :
  single_line l = true ->
  is_shebang_line (l ++ LF :: rest) 0 = prefixb (txt "#!") l.
Proof.
  intros Hs. unfold is_shebang_line, slice.
  destruct l as [|a [|b l]]; cbn [app skipn firstn Nat.add Nat.sub txt
                                   list_ascii_of_string str_eqb prefixb].
  - reflexivity.
  - rewrite (Ascii.eqb_sym a "#").
    destruct (Ascii.eqb "#" a); [|reflexivity]. cbn [andb].
    destruct rest; reflexivity.
  - rewrite (Ascii.eqb_sym a "#"), (Ascii.eqb_sym b "!").
    destruct (Ascii.eqb "#" a), (Ascii.eqb "!" b); reflexivity.
Qed.

Lemma scan_coding_preamble_line (l rest : str) :
  single_line l = true -> is_preamble_line l = true ->
  scan_past_coding_and_shebang_lines (l ++ LF :: rest)
  = shift_result (length l + 1) (scan_past_coding_and_shebang_lines rest).
Proof.
  intros Hs Hp. unfold is_preamble_line in Hp.
  apply andb_true_iff in Hp as [Hhash Hp].
  apply starts_with_cons in Hhash as [l' ->].
  remember (scan_past_coding_and_shebang_lines rest) as R eqn:ER.
  unfold scan_past_coding_and_shebang_lines.
  cbn [scan_past_coding_and_shebang_lines_loop].
  rewrite is_comment_line_eq. cbn [app nth_error bind].
  change (Ascii.eqb "#" "#") with true. cbn [andb].
  pose proof (next_line_of_line [] ("#"%char :: l') rest Hs) as Hnext.
  cbn [app length Nat.add] in Hnext.
  assert (Hcoding : is_coding_line (("#"%char :: l') ++ LF :: rest) 0
                    || is_shebang_line (("#"%char :: l') ++ LF :: rest) 0 = true).
  { rewrite (is_shebang_line_of_line _ rest Hs).
    unfold is_coding_line. cbn [app]. rewrite Hnext.
    replace (slice ("#"%char :: l' ++ LF :: rest) 0 (S (length l' + 1)))
      with (("#"%char :: l') ++ [LF]).
    - exact Hp.
    - unfold slice. cbn [skipn Nat.sub firstn app]. f_equal.
      replace (length l' + 1) with (length (l' ++ [LF]))
        by (rewrite length_app; reflexivity).
      replace (l' ++ LF :: rest) with ((l' ++ [LF]) ++ rest)
        by (now rewrite <- app_assoc).
      now rewrite firstn_app, firstn_all, Nat.sub_diag, app_nil_r. }
  cbn [app] in Hcoding. rewrite Hcoding, Hnext.
  pose proof (scan_coding_loop_shift ("#"%char :: l' ++ [LF]) rest
                (length ("#"%char :: l' ++ LF :: rest)) 0) as Hshift.
  rewrite Nat.add_0_r in Hshift.
  replace (("#"%char :: l' ++ [LF]) ++ rest) with ("#"%char :: l' ++ LF :: rest)
    in Hshift by (cbn [app]; now rewrite <- app_assoc).
  replace (length ("#"%char :: l' ++ [LF])) with (S (length l' + 1)) in Hshift
    by (cbn [length]; now rewrite length_app).
  rewrite Hshift. cbn [length]. f_equal. subst R.
  unfold scan_past_coding_and_shebang_lines.
  apply scan_coding_loop_more_fuel; [lia|].
  rewrite length_app. cbn [length]. lia.
Qed.

Lemma shift_result_add (n m : nat) (r : result nat) :
  shift_result n (shift_result m r) = shift_result (n + m) r.
Proof. destruct r; cbn; try reflexivity. f_equal. lia. Qed.

Lemma scan_coding_preamble (lines : list str) (rest : str) :
  forallb (fun l => single_line l && is_preamble_line l) lines = true ->
  scan_past_coding_and_shebang_lines (lines_text lines ++ rest)
  = shift_result (length (lines_text lines))
      (scan_past_coding_and_shebang_lines rest).
Proof.
  induction lines as [|l ls IH]; intros H.
  - cbn [lines_text app length].
    destruct (scan_past_coding_and_shebang_lines rest); reflexivity.
  - cbn [forallb] in H. apply andb_true_iff in H as [Hl Hls].
    apply andb_true_iff in Hl as [Hs Hp].
    cbn [lines_text]. rewrite <- app_assoc, <- app_comm_cons.
    rewrite (scan_coding_preamble_line l _ Hs Hp), (IH Hls), shift_result_add.
    f_equal. rewrite length_app. cbn [length]. lia.
Qed.

Lemma scan_past_empty_lines_loop_first (content : str) (fuel index : nat) :
  length content - index < fuel ->
  exists r, scan_past_empty_lines_loop fuel content index = Ok r
            /\ index <= r /\ is_empty_line content r = false
            /\ forall q, index <= q < r -> is_empty_line content q = true.
Proof.
  revert index; induction fuel as [|fuel IH]; intros index Hf; [lia|].
  simpl. destruct (is_empty_line content index) eqn:E.
  - pose proof E as E'. apply is_empty_line_iff in E'.
    pose proof (get_index_of_next_line_le content index).
    destruct (IH (get_index_of_next_line content index) ltac:(lia))
      as (r & Hr & Hle & He & Hall).
    exists r. repeat split; auto; try lia.
    intros q Hq. destruct (Nat.eq_dec q index) as [->|]; [assumption|].
    apply Hall. lia.
  - exists index. repeat split; auto. intros q Hq. lia.
Qed.

Lemma get_index_of_next_line_past_end (content : str) (index : nat) :
  length content <= index ->
  get_index_of_next_line content index = length content.
Proof.
  intros Hle.
  destruct (get_index_of_next_line_step content index)
    as [[_ ->]|(p & Hp & _ & [[H _]|[(H & _)|(H & _)]])]; [reflexivity| | |];
    apply nth_error_lt in H; lia.
Qed.

(** ** The registries *)

(** What the loop of [identify_license] answers. *)
Lemma identify_license_loop_lookup (U : str)
  (items : list (str * LicenseEntryPoint)) (c : str) (part : license_part) :
  (exists before name lic after,
     items = before ++ (name, lic) :: after
     /\ getattr lic part = c
     /\ (forall e, In e before -> getattr (snd e) part <> c)
     /\ identify_license_loop U items (Some c) part = name)
  \/ ((forall e, In e items -> getattr (snd e) part <> c)
      /\ identify_license_loop U items (Some c) part = U).
Proof.
  induction items as [|[n l] items IH]; cbn [identify_license_loop].
  - right. split; [intros e []|reflexivity].
  - destruct (str_eqb (getattr l part) c) eqn:E.
    + left. exists [], n, l, items. apply str_eqb_eq in E.
      split; [reflexivity|]. split; [exact E|].
      split; [intros e []|reflexivity].
    + apply str_eqb_neq in E.
      destruct IH as [(before & name & lic & after & -> & Hc & Hb & Hr)|[Hall Hr]].
      * left. exists ((n, l) :: before), name, lic, after.
        split; [reflexivity|]. split; [exact Hc|]. split; [|exact Hr].
        intros e [<-|He]; [exact E|now apply Hb].
      * right. split; [|exact Hr].
        intros e [<-|He]; [exact E|now apply Hall].
Qed.

(** What the loop of [identify_copyright] answers. *)
Lemma identify_copyright_loop_lookup (U : str) (items : list (str * str))
  (name : str) :
  (exists before key after,
     items = before ++ (key, name) :: after
     /\ (forall e, In e before -> snd e <> name)
     /\ identify_copyright_loop U items (Some name) = key)
  \/ ((forall e, In e items -> snd e <> name)
      /\ identify_copyright_loop U items (Some name) = U).
Proof.
  induction items as [|[k n] items IH]; cbn [identify_copyright_loop].
  - right. split; [intros e []|reflexivity].
  - destruct (str_eqb name n) eqn:E.
    + left. apply str_eqb_eq in E. subst n. exists [], k, items.
      split; [reflexivity|]. split; [intros e []|reflexivity].
    + apply str_eqb_neq in E.
      destruct IH as [(before & key & after & -> & Hb & Hr)|[Hall Hr]].
      * left. exists ((k, n) :: before), key, after.
        split; [reflexivity|]. split; [|exact Hr].
        intros e [<-|He]; [cbn; congruence|now apply Hb].
      * right. split; [|exact Hr].
        intros e [<-|He]; [cbn; congruence|now apply Hall].
Qed.

(** The Source-File Classifier on a file that starts with a commented
    statement. *)
Lemma SourceDescriptor_parse_statement
  (U : str) (names : list (str * str)) (licenses : list (str * LicenseEntryPoint))
  (k : marker) (rest_lines : list str)
  (ws1 : str) (t : year_token) (more : list (str * year_token))
  (ws2 name code : str) :
  let statement := copyright_statement ws1 t more ws2 name in
  let text := comment_text k (statement :: rest_lines) ++ code in
  let tail := match rest_lines with
              | [] => []
              | _ => [LF] ++ join [LF] rest_lines
              end in
  is_spacing ws1 = true -> token_ok t = true -> more_ok more = true ->
  is_spacing ws2 = true -> is_holder_name name = true ->
  forallb single_line (statement :: rest_lines) = true ->
  (k = Hash -> is_coding_line text 0 = false) ->
  prefixb (marker_text k) code = false ->
  SourceDescriptor_parse U names licenses (SourceDescriptor true) text
  = Ok (Descriptor SOURCE_FILETYPE true (Some text) (Some name)
          (Some (years_text t more))
          (Some (identify_copyright_loop U names (Some name)))
          (Some (identify_license_loop U licenses (Some (placeholder ++ tail))
                   part_file_header))).
Proof.
  intros statement text tail Hws1 Ht Hmore Hws2 Hname Hlines Hcoding Hcode.
  assert (Htail : ends_line tail = true)
    by (unfold tail; destruct rest_lines; reflexivity).
  assert (Hne : statement :: rest_lines <> []) by discriminate.
  pose proof (get_comment_block_comment_text k _ code Hne Hlines Hcode) as Hblock.
  fold text in Hblock. rewrite join_cons in Hblock. fold tail in Hblock.
  destruct (copyright_statement_spans ws1 t more ws2 name tail
              Hws1 Ht Hmore Hws2 Hname Htail)
    as (b & c & d & e & Hs & Hy & Hn & Hrest).
  fold statement in Hs, Hy, Hn, Hrest.
  pose proof (scan_coding_comment_text k _ code Hne Hcoding) as Hscan1.
  pose proof (scan_empty_comment_text k _ code Hne Hlines) as Hscan2.
  fold text in Hscan1, Hscan2.
  assert (Htext : exists c0 text', text = c0 :: text')
    by (unfold text; destruct k; simpl; eauto).
  destruct Htext as (c0 & text' & Htext).
  assert (Hb : exists b0 block', statement ++ tail = b0 :: block')
    by (unfold statement, copyright_statement; simpl; eauto).
  destruct Hb as (b0 & block' & Hb).
  rewrite Htext in Hscan1, Hscan2, Hblock. rewrite Hb in Hblock, Hs.
  pose proof (SourceDescriptor_parse_found U names licenses c0 text' 0 0 b0
                block' _ _ _ _ Hscan1 Hscan2 Hblock Hs) as Hparse.
  rewrite <- Htext in Hparse. rewrite <- Hb in Hparse.
  cbn [fst snd] in Hparse. rewrite !zslice_of_nat, zslice_from_of_nat in Hparse.
  rewrite Hy, Hn, Hrest in Hparse. exact Hparse.
Qed.

Lemma contains_of_slice (content w : str) (a : nat) :
  slice content a (a + length w) = w -> a <= length content ->
  contains w content = true.
Proof.
  intros Hs Ha. unfold contains.
  destruct (find content w 0) as [j|] eqn:E; [reflexivity|exfalso].
  pose proof (find_none content w 0 E a ltac:(lia)) as Hn.
  assert (Hp : prefixb w (skipn a content) = true).
  { rewrite prefixb_firstn. apply str_eqb_eq.
    unfold slice in Hs. now replace (a + length w - a) with (length w) in Hs by lia. }
  congruence.
Qed.

Lemma nth_error_slice (content : str) (d e q : nat) :
  d <= q < e -> nth_error (slice content d e) (q - d) = nth_error content q.
Proof.
  intros Hq. unfold slice. rewrite nth_error_firstn.
  replace (q - d <? e - d) with true by (symmetry; apply Nat.ltb_lt; lia).
  rewrite nth_error_skipn. f_equal. lia.
Qed.

(** ** A statement after other text *)

Lemma copyright_pattern_eq :
  copyright_pattern
  = Seq Bol (Seq (opt (Cls not_nl_cr)) (Seq (Star (Cls is_space))
      (Seq (Group 1 (lit (txt "Copyright"))) after_word))).
Proof. reflexivity. Qed.

(** From the end of the word on, the match of a statement is settled. *)
Lemma after_word_match (s1 : mstate) (ws1 : str) (t : year_token)
  (more : list (str * year_token)) (ws2 name tail : str) :
  is_spacing ws1 = true -> token_ok t = true -> more_ok more = true ->
  is_spacing ws2 = true -> is_holder_name name = true ->
  ends_line tail = true ->
  rest s1 = ws1 ++ years_text t more ++ ws2 ++ name ++ tail ->
  exists m,
    rmatch after_word Matched s1 = Matched m
    /\ caps m =
         (3, (pos s1 + length ws1 + length (years_text t more) + length ws2,
              pos s1 + length ws1 + length (years_text t more) + length ws2
              + length name))
         :: (2, (pos s1 + length ws1,
                 pos s1 + length ws1 + length (years_text t more)))
         :: caps s1.
Proof.
  intros Hws1 Ht Hmore Hws2 Hname Htail E1.
  destruct (is_spacing_inv _ Hws1) as (Hne1 & Hsp1 & _).
  destruct (is_spacing_inv _ Hws2) as (Hne2 & Hsp2 & c2 & u2 & Ews2 & Hc2).
  destruct (is_holder_name_inv _ Hname) as (Hnen & Hnn & cn & un & Ename & Hcn).
  assert (Hyears : exists cy uy, years_text t more = cy :: uy
                                 /\ is_space cy = false).
  { destruct (token_text_head t Ht) as (c & u & E & Hc).
    exists c, (u ++ more_text more). unfold years_text. now rewrite E. }
  destruct Hyears as (cy & uy & Eyears & Hcy).
  set (s2 := advance s1 ws1).
  pose proof (advance_rest ws1 s1 _ E1) as E2. fold s2 in E2.
  set (s3 := close_group 2 (pos s2) (advance s2 (years_text t more))).
  assert (E3 : rest s3 = ws2 ++ name ++ tail)
    by (apply (advance_rest (years_text t more) s2 _ E2)).
  set (s4 := advance s3 ws2).
  pose proof (advance_rest ws2 s3 _ E3) as E4. fold s4 in E4.
  set (s5 := close_group 3 (pos s4) (advance s4 name)).
  assert (E5 : rest s5 = tail) by (apply (advance_rest name s4 _ E4)).
  exists s5. split.
  - unfold after_word. rewrite rmatch_seq.
    apply (rmatch_plus_cls is_space _ s5 ws1 s1 _ E1 Hne1 Hsp1).
    { rewrite Eyears. simpl. now rewrite Hcy. }
    fold s2. rewrite rmatch_seq, rmatch_group.
    apply (rmatch_years_list _ s5 t more s2 (ws2 ++ name ++ tail)).
    + intros st' Hs. apply starts_with_cons in Hs as [r' Hs].
      rewrite rmatch_seq. unfold plus. rewrite rmatch_seq.
      apply rmatch_cls_fail. cbn [close_group rest]. now rewrite Hs.
    + exact Ht.
    + exact Hmore.
    + exact E2.
    + rewrite Ews2. simpl. now apply space_not_comma.
    + fold s3. rewrite rmatch_seq.
      apply (rmatch_plus_cls is_space _ s5 ws2 s3 _ E3 Hne2 Hsp2).
      { rewrite Ename. simpl. now rewrite Hcn. }
      fold s4. rewrite rmatch_seq, rmatch_group.
      apply (rmatch_plus_cls not_nl_cr _ s5 name s4 _ E4 Hnen Hnn).
      { destruct tail as [|x tl]; [reflexivity|].
        simpl in Htail. apply Ascii.eqb_eq in Htail. now subst x. }
      fold s5. apply rmatch_eol. unfold at_eol. rewrite E5. exact Htail.
  - unfold s5, s4, s3, s2.
    cbn [caps close_group pos].
    rewrite !advance_caps. cbn [caps close_group pos].
    rewrite !advance_caps. cbn [caps close_group pos].
    rewrite !advance_pos. cbn [caps close_group pos].
    rewrite !advance_pos. cbn [caps close_group pos].
    repeat f_equal; lia.
Qed.

(** The match of the pattern at the start of a statement. *)
Lemma copyright_pattern_at_statement (st0 : mstate) (ws1 : str) (t : year_token)
  (more : list (str * year_token)) (ws2 name tail : str) :
  is_spacing ws1 = true -> token_ok t = true -> more_ok more = true ->
  is_spacing ws2 = true -> is_holder_name name = true ->
  ends_line tail = true ->
  at_bol st0 = true ->
  rest st0 = copyright_statement ws1 t more ws2 name ++ tail ->
  exists m, rmatch copyright_pattern Matched st0 = Matched m.
Proof.
  intros Hws1 Ht Hmore Hws2 Hname Htail Hbol E.
  assert (E0 : rest st0
               = txt "Copyright" ++ ws1 ++ years_text t more ++ ws2 ++ name ++ tail).
  { rewrite E. unfold copyright_statement. now rewrite <- !app_assoc. }
  set (s1 := close_group 1 (pos st0) (advance st0 (txt "Copyright"))).
  assert (E1 : rest s1 = ws1 ++ years_text t more ++ ws2 ++ name ++ tail)
    by (apply (advance_rest (txt "Copyright") st0 _ E0)).
  destruct (after_word_match s1 ws1 t more ws2 name tail Hws1 Ht Hmore Hws2
              Hname Htail E1) as (m & Hm & _).
  exists m. rewrite copyright_pattern_eq.
  rewrite rmatch_seq, rmatch_bol by exact Hbol.
  rewrite rmatch_seq. unfold opt. rewrite rmatch_alt.
  rewrite (rmatch_cls not_nl_cr _ st0 "C" _ E0 eq_refl).
  assert (Efail : rest (advance st0 ["C"%char])
                  = txt "opyright" ++ ws1 ++ years_text t more ++ ws2
                    ++ name ++ tail)
    by (apply (advance_rest ["C"%char] st0); exact E0).
  rewrite rmatch_seq, rmatch_star.
  rewrite rmatch_cls_fail by (rewrite Efail; reflexivity).
  cbn [orelse].
  rewrite rmatch_seq, rmatch_group, (rmatch_lit_fail "C" (txt "opyright"))
    by (rewrite Efail; reflexivity).
  cbn [orelse]. rewrite rmatch_eps, rmatch_seq.
  apply (rmatch_star_cls is_space _ m [] st0 _ E0 eq_refl eq_refl).
  cbn [advance].
  rewrite rmatch_seq, rmatch_group, (rmatch_lit (txt "Copyright") _ st0 _ E0).
  fold s1. exact Hm.
Qed.

Lemma reach_eps_inv (st st' : mstate) : reach Eps st st' -> st' = st.
Proof. inversion 1; subst; reflexivity. Qed.

Lemma copyright_pattern_split (st0 m : mstate) :
  rmatch copyright_pattern Matched st0 = Matched m ->
  exists s2 s3 t4,
    at_bol st0 = true
    /\ reach (opt (Cls not_nl_cr)) st0 s2
    /\ reach (Star (Cls is_space)) s2 s3
    /\ reach (lit (txt "Copyright")) s3 t4
    /\ rmatch after_word Matched (close_group 1 (pos s3) t4) = Matched m.
Proof.
  rewrite copyright_pattern_eq, rmatch_seq. intros H.
  apply rmatch_sound in H as (s1 & H1 & H).
  apply reach_bol_inv in H1 as [-> Hbol].
  rewrite rmatch_seq in H. apply rmatch_sound in H as (s2 & H2 & H).
  rewrite rmatch_seq in H. apply rmatch_sound in H as (s3 & H3 & H).
  rewrite rmatch_seq in H. apply rmatch_sound in H as (s4 & H4 & H).
  apply reach_group_inv in H4 as (t4 & H4 & ->).
  exists s2, s3, t4. repeat split; assumption.
Qed.

Lemma nth_error_word (k : nat) :
  1 <= k < 9 -> nth_error (txt "Copyright") k <> Some "C"%char.
Proof.
  intros Hk. do 9 (destruct k as [|k]; [try lia; discriminate|]). lia.
Qed.

Lemma slice_in_prefix (pre x : str) (a b : nat) :
  b <= length pre -> slice (pre ++ x) a b = slice pre a b.
Proof.
  intros Hb. unfold slice. rewrite skipn_app, firstn_app, length_skipn.
  replace (b - a - (length pre - a)) with 0 by lia.
  cbn [firstn]. now rewrite app_nil_r.
Qed.

(** Where the word of the first statement stands: a match that starts in
    text without the word, before a statement, has its word at the start of
    the statement. *)
Lemma word_offset (A o w R pre u : str) :
  A ++ o ++ w ++ txt "Copyright" ++ R = pre ++ txt "Copyright" ++ u ->
  length A <= length pre -> length o <= 1 ->
  forallb is_space w = true ->
  contains (txt "Copyright") pre = false ->
  length A + length o + length w = length pre.
Proof.
  intros E HA Ho Hw Hno.
  set (content := pre ++ txt "Copyright" ++ u) in *.
  set (a := length A + length o + length w).
  assert (Hword : forall k, k < 9 ->
            nth_error content (a + k) = nth_error (txt "Copyright") k).
  { intros k Hk. rewrite <- E. unfold a.
    replace (A ++ o ++ w ++ txt "Copyright" ++ R)
      with ((A ++ o ++ w) ++ txt "Copyright" ++ R)
      by (now rewrite <- !app_assoc).
    replace (length A + length o + length w) with (length (A ++ o ++ w))
      by (rewrite !length_app; lia).
    rewrite nth_error_app_at. apply nth_error_app1. exact Hk. }
  assert (Hstmt : forall k, k < 9 ->
            nth_error content (length pre + k) = nth_error (txt "Copyright") k).
  { intros k Hk. unfold content. rewrite nth_error_app_at.
    apply nth_error_app1. exact Hk. }
  assert (Hspace : forall q x, length A + length o <= q < a ->
            nth_error content q = Some x -> is_space x = true).
  { intros q x Hq Hx. rewrite <- E in Hx.
    replace (A ++ o ++ w ++ txt "Copyright" ++ R)
      with ((A ++ o) ++ w ++ txt "Copyright" ++ R) in Hx
      by (now rewrite <- !app_assoc).
    replace q with (length (A ++ o) + (q - length (A ++ o))) in Hx
      by (rewrite length_app; lia).
    rewrite nth_error_app_at, nth_error_app1 in Hx
      by (rewrite length_app; unfold a in Hq; lia).
    rewrite forallb_forall in Hw. apply Hw. eapply nth_error_In. exact Hx. }
  destruct (Nat.lt_trichotomy a (length pre)) as [Hlt|[Heq|Hgt]];
    [|exact Heq|]; exfalso.
  - destruct (le_lt_dec (a + 9) (length pre)) as [Hin|Hover].
    + (* the word would stand inside [pre] *)
      assert (Hs : slice content a (a + length (txt "Copyright"))
                   = txt "Copyright").
      { assert (Hc : content = (A ++ o ++ w) ++ txt "Copyright" ++ R)
          by (rewrite <- E; now rewrite <- !app_assoc).
        rewrite Hc. unfold a.
        replace (length A + length o + length w) with (length (A ++ o ++ w))
          by (rewrite !length_app; lia).
        rewrite slice_app_at. now rewrite firstn_app, firstn_all, Nat.sub_diag,
          app_nil_r. }
      unfold content in Hs. rewrite slice_in_prefix in Hs by exact Hin.
      rewrite (contains_of_slice pre _ a Hs ltac:(lia)) in Hno. discriminate.
    + (* the word would overlap the start of the statement *)
      pose proof (Hword (length pre - a) ltac:(lia)) as H1.
      pose proof (Hstmt 0 ltac:(lia)) as H2.
      replace (a + (length pre - a)) with (length pre + 0) in H1 by lia.
      rewrite H2 in H1. symmetry in H1.
      now apply (nth_error_word (length pre - a) ltac:(lia)).
  - (* the C of the statement would be read before the word *)
    pose proof (Hstmt 0 ltac:(lia)) as HC. rewrite Nat.add_0_r in HC.
    destruct (le_lt_dec (length A + length o) (length pre)) as [Hws|Hopt].
    + specialize (Hspace (length pre) "C"%char ltac:(lia) HC). discriminate.
    + pose proof (Hstmt 1 ltac:(lia)) as Ho'.
      destruct (le_lt_dec a (length pre + 1)) as [Hends|Hmore].
      * pose proof (Hword 0 ltac:(lia)) as H0.
        replace (a + 0) with (length pre + 1) in H0 by lia.
        rewrite Ho' in H0. discriminate.
      * specialize (Hspace (length pre + 1) "o"%char ltac:(lia) Ho').
        discriminate.
Qed.

Lemma app_eq_length (a b c d : str) :
  a ++ b = c ++ d -> length a = length c -> a = c /\ b = d.
Proof.
  revert c; induction a as [|x a IH]; intros [|y c] E L; simpl in *;
    try discriminate; auto.
  injection E as -> E. injection L as L.
  destruct (IH c E L) as [-> ->]. auto.
Qed.

Lemma app_prefix_split (pre x pre0 s' : str) :
  pre ++ x = pre0 ++ s' -> length pre < length pre0 ->
  exists pre2, pre0 = pre ++ pre2 /\ pre2 <> [] /\ x = pre2 ++ s'.
Proof.
  revert pre0; induction pre as [|c pre IH]; intros pre0 E L.
  - exists pre0. simpl in *. repeat split; auto.
    intros ->. simpl in L. lia.
  - destruct pre0 as [|c0 pre0]; [simpl in L; lia|].
    simpl in E. injection E as -> E. simpl in L.
    destruct (IH pre0 E ltac:(lia)) as (pre2 & -> & Hne & Hx).
    exists pre2. auto.
Qed.

Lemma at_bol_after (pre s : str) (q : nat) :
  at_bol (MState q (last_before None pre) s []) = ends_with_line_feed pre.
Proof.
  unfold at_bol, last_before, ends_with_line_feed. cbn [prev].
  destruct (rev pre); reflexivity.
Qed.

(** The match found in a text that holds a statement after text without the
    word: its groups are those of the statement. *)
Lemma copyright_statement_after_text (pre ws1 : str) (t : year_token)
  (more : list (str * year_token)) (ws2 name tail : str) :
  contains (txt "Copyright") pre = false ->
  ends_with_line_feed pre = true ->
  is_spacing ws1 = true -> token_ok t = true -> more_ok more = true ->
  is_spacing ws2 = true -> is_holder_name name = true ->
  ends_line tail = true ->
  exists m,
    search copyright_pattern
      (pre ++ copyright_statement ws1 t more ws2 name ++ tail) 0 = Matched m
    /\ caps m =
         [(3, (length pre + 9 + length ws1 + length (years_text t more)
               + length ws2,
               length pre + 9 + length ws1 + length (years_text t more)
               + length ws2 + length name));
          (2, (length pre + 9 + length ws1,
               length pre + 9 + length ws1 + length (years_text t more)));
          (1, (length pre, length pre + 9))].
Proof.
  intros Hno Hnl Hws1 Ht Hmore Hws2 Hname Htail.
  set (statement := copyright_statement ws1 t more ws2 name).
  set (u := ws1 ++ years_text t more ++ ws2 ++ name ++ tail).
  assert (Estmt : statement ++ tail = txt "Copyright" ++ u)
    by (unfold statement, copyright_statement, u; now rewrite <- !app_assoc).
  set (content := pre ++ statement ++ tail).
  assert (Hat : forall q,
            exists m0, rmatch copyright_pattern Matched
                         (MState q (last_before None pre) (statement ++ tail) [])
                       = Matched m0).
  { intros q. apply (copyright_pattern_at_statement _ ws1 t more ws2 name tail);
      auto. rewrite at_bol_after. exact Hnl. }
  unfold search. change (Nat.min 0 (length content)) with 0.
  change (skipn 0 content) with content. cbn [char_before].
  destruct (search_from copyright_pattern None content 0) as [m| |] eqn:Hs.
  - exists m. split; [reflexivity|].
    apply search_from_leftmost in Hs as (pre0 & s' & E & Hm & Hbefore).
    cbn [Nat.add] in Hm.
    assert (Hle : length pre0 <= length pre).
    { destruct (le_lt_dec (length pre0) (length pre)) as [|Hlt]; [assumption|].
      exfalso. unfold content in E.
      destruct (app_prefix_split _ _ _ _ E Hlt) as (pre2 & -> & Hne & Hx).
      specialize (Hbefore pre pre2 eq_refl Hne). rewrite <- Hx in Hbefore.
      destruct (Hat (0 + length pre)) as [m0 Hm0]. congruence. }
    apply copyright_pattern_split in Hm
      as (s2 & s3 & t4 & _ & Hopt & Hws & Hlit & Hrest).
    (* what was read before the word *)
    assert (Ho : exists o, rest (MState (length pre0) (last_before None pre0) s' [])
                           = o ++ rest s2
                           /\ pos s2 = length pre0 + length o /\ length o <= 1).
    { apply reach_alt_inv in Hopt as [H|H].
      - apply reach_cls_inv in H as (c & cs & Ec & _ & ->).
        exists [c]. cbn [rest pos step app length] in *. repeat split; auto; lia.
      - apply reach_eps_inv in H as ->. exists []. cbn. repeat split; auto; lia. }
    destruct Ho as (o & Eo & Po & Lo). cbn [rest] in Eo.
    destruct (reach_star_cls _ _ _ Hws) as (w & Ew & Pw & Hw).
    destruct (reach_lit _ _ _ Hlit) as [El Pl].
    assert (Econtent : pre0 ++ o ++ w ++ txt "Copyright" ++ rest t4
                       = pre ++ txt "Copyright" ++ u).
    { rewrite <- El, <- Ew, <- Eo, <- E. unfold content. now rewrite Estmt. }
    pose proof (word_offset pre0 o w (rest t4) pre u Econtent Hle Lo Hw Hno)
      as Hoff.
    assert (Epre : (pre0 ++ o ++ w) ++ txt "Copyright" ++ rest t4
                   = pre ++ txt "Copyright" ++ u)
      by (rewrite <- Econtent; now rewrite <- !app_assoc).
    apply app_eq_length in Epre as [_ Eu]; [|rewrite !length_app; lia].
    apply app_inv_head in Eu.
    assert (Hcaps : caps t4 = []).
    { rewrite (reach_no_group _ _ _ Hlit), (reach_no_group _ _ _ Hws),
        (reach_no_group _ _ _ Hopt); reflexivity. }
    destruct (after_word_match (close_group 1 (pos s3) t4) ws1 t more ws2 name
                tail Hws1 Ht Hmore Hws2 Hname Htail Eu) as (m' & Hm' & Hc').
    rewrite Hrest in Hm'. injection Hm' as <-.
    rewrite Hc'. cbn [caps close_group pos]. rewrite Hcaps.
    change (length (txt "Copyright")) with 9 in Pl.
    repeat f_equal; lia.
  - exfalso.
    pose proof (proj1 (search_from_nomatch copyright_pattern content None 0) Hs
                  pre (statement ++ tail) eq_refl) as Hn.
    destruct (Hat (0 + length pre)) as [m0 Hm0]. congruence.
  - now apply search_from_not_exhausted in Hs.
Qed.

Lemma identify_license_loop_first_part (U : str)
  (before after : list (str * LicenseEntryPoint)) (lname : str)
  (lic : LicenseEntryPoint) (part : license_part) :
  forallb (fun e => negb (str_eqb (getattr (snd e) part) (getattr lic part)))
          before = true ->
  identify_license_loop U (before ++ (lname, lic) :: after)
    (Some (getattr lic part)) part = lname.
Proof.
  induction before as [|[n l] before IH]; intros H; simpl.
  - now rewrite str_eqb_refl.
  - simpl in H. apply andb_true_iff in H as [H1 H2].
    apply negb_true_iff in H1. rewrite H1. now apply IH.
Qed.

(** The spans of a statement that follows text without the word. *)
Lemma copyright_statement_after_text_spans (pre ws1 : str) (t : year_token)
  (more : list (str * year_token)) (ws2 name tail : str) :
  contains (txt "Copyright") pre = false ->
  ends_with_line_feed pre = true ->
  is_spacing ws1 = true -> token_ok t = true -> more_ok more = true ->
  is_spacing ws2 = true -> is_holder_name name = true ->
  ends_line tail = true ->
  let content := pre ++ copyright_statement ws1 t more ws2 name ++ tail in
  exists a a' b c d e : nat,
    _search_copyright_information content =
      Ok (Some (Z.of_nat a, Z.of_nat a'), Some (Z.of_nat b, Z.of_nat c),
          Some (Z.of_nat d, Z.of_nat e))
    /\ slice_to content a = pre
    /\ slice content a a' = txt "Copyright"
    /\ slice content b c = years_text t more
    /\ slice content d e = name
    /\ slice_from content e = tail.
Proof.
  intros Hno Hnl Hws1 Ht Hmore Hws2 Hname Htail content.
  destruct (copyright_statement_after_text pre ws1 t more ws2 name tail
              Hno Hnl Hws1 Ht Hmore Hws2 Hname Htail) as (m & Hs & Hc).
  fold content in Hs.
  do 6 eexists. split; [exact (search_copyright_of_caps _ _ _ _ _ _ _ _ Hs Hc)|].
  unfold content, copyright_statement. rewrite <- !app_assoc.
  repeat split.
  - unfold slice_to. now rewrite firstn_app, firstn_all, Nat.sub_diag, app_nil_r.
  - apply slice_app_mid; [reflexivity|]. reflexivity.
  - rewrite (app_assoc pre), (app_assoc (pre ++ _) ws1).
    apply slice_app_mid; rewrite ?length_app; simpl; lia.
  - rewrite (app_assoc pre), (app_assoc (pre ++ _) ws1),
      (app_assoc ((pre ++ _) ++ ws1)), (app_assoc (((pre ++ _) ++ ws1) ++ _)).
    apply slice_app_mid; rewrite ?length_app; simpl; lia.
  - rewrite (app_assoc pre), (app_assoc (pre ++ _) ws1),
      (app_assoc ((pre ++ _) ++ ws1)), (app_assoc (((pre ++ _) ++ ws1) ++ _)),
      (app_assoc ((((pre ++ _) ++ ws1) ++ _) ++ ws2)).
    apply slice_from_app. rewrite !length_app. simpl. lia.
Qed.

Lemma join_after_lines (pre_lines : list str) (l : str) (ls : list str) :
  join [LF] (pre_lines ++ l :: ls) = lines_text pre_lines ++ join [LF] (l :: ls).
Proof.
  induction pre_lines as [|p ps IH]; [reflexivity|].
  cbn [app lines_text].
  destruct (ps ++ l :: ls) as [|x xs] eqn:E; [destruct ps; discriminate|].
  change (join [LF] (p :: x :: xs)) with (p ++ [LF] ++ join [LF] (x :: xs)).
  rewrite IH, <- app_assoc. reflexivity.
Qed.

Lemma lines_text_ends (lines : list str) :
  ends_with_line_feed (lines_text lines) = true.
Proof.
  unfold ends_with_line_feed.
  induction lines as [|l ls IH] using rev_ind; [reflexivity|].
  assert (E : lines_text (ls ++ [l]) = (lines_text ls ++ l) ++ [LF]).
  { clear IH. induction ls as [|x ls IH]; cbn [app lines_text].
    - reflexivity.
    - rewrite IH. now rewrite <- !app_assoc. }
  rewrite E, rev_app_distr. reflexivity.
Qed.

(** The Source-File Classifier on a file whose comment block holds lines
    without the word before a statement. *)
Lemma SourceDescriptor_parse_after_lines
  (U : str) (names : list (str * str)) (licenses : list (str * LicenseEntryPoint))
  (k : marker) (pre_lines rest_lines : list str)
  (ws1 : str) (t : year_token) (more : list (str * year_token))
  (ws2 name code : str) :
  let statement := copyright_statement ws1 t more ws2 name in
  let text := comment_text k (pre_lines ++ statement :: rest_lines) ++ code in
  contains (txt "Copyright") (lines_text pre_lines) = false ->
  is_spacing ws1 = true -> token_ok t = true -> more_ok more = true ->
  is_spacing ws2 = true -> is_holder_name name = true ->
  forallb single_line (pre_lines ++ statement :: rest_lines) = true ->
  (k = Hash -> is_coding_line text 0 = false) ->
  prefixb (marker_text k) code = false ->
  SourceDescriptor_parse U names licenses (SourceDescriptor true) text
  = Ok (Descriptor SOURCE_FILETYPE true (Some text) (Some name)
          (Some (years_text t more))
          (Some (identify_copyright_loop U names (Some name)))
          (Some (identify_license_loop U licenses
                   (Some (join [LF] (placeholder :: rest_lines)))
                   part_file_header))).
Proof.
  intros statement text Hno Hws1 Ht Hmore Hws2 Hname Hlines Hcoding Hcode.
  set (tail := match rest_lines with
               | [] => []
               | _ => [LF] ++ join [LF] rest_lines
               end).
  assert (Htail : ends_line tail = true)
    by (unfold tail; destruct rest_lines; reflexivity).
  assert (Hne : pre_lines ++ statement :: rest_lines <> [])
    by (destruct pre_lines; discriminate).
  pose proof (get_comment_block_comment_text k _ code Hne Hlines Hcode) as Hblock.
  fold text in Hblock.
  rewrite join_after_lines, join_cons in Hblock. fold tail in Hblock.
  destruct (copyright_statement_after_text_spans (lines_text pre_lines)
              ws1 t more ws2 name tail Hno (lines_text_ends pre_lines)
              Hws1 Ht Hmore Hws2 Hname Htail)
    as (a & a' & b & c & d & e & Hs & _ & _ & Hy & Hn & Hrest).
  fold statement in Hs, Hy, Hn, Hrest.
  pose proof (scan_coding_comment_text k _ code Hne Hcoding) as Hscan1.
  pose proof (scan_empty_comment_text k _ code Hne Hlines) as Hscan2.
  fold text in Hscan1, Hscan2.
  assert (Htext : exists c0 text', text = c0 :: text').
  { unfold text. destruct pre_lines; destruct k; simpl; eauto. }
  destruct Htext as (c0 & text' & Htext).
  assert (Hb : exists b0 block',
            lines_text pre_lines ++ statement ++ tail = b0 :: block').
  { unfold statement, copyright_statement.
    destruct (lines_text pre_lines); simpl; eauto. }
  destruct Hb as (b0 & block' & Hb).
  rewrite Htext in Hscan1, Hscan2, Hblock. rewrite Hb in Hblock, Hs.
  pose proof (SourceDescriptor_parse_found U names licenses c0 text' 0 0 b0
                block' _ _ _ _ Hscan1 Hscan2 Hblock Hs) as Hparse.
  rewrite <- Htext in Hparse. rewrite <- Hb in Hparse.
  cbn [fst snd] in Hparse. rewrite !zslice_of_nat, zslice_from_of_nat in Hparse.
  rewrite Hy, Hn, Hrest in Hparse. rewrite join_cons. exact Hparse.
Qed.

(** ** Paths *)

Lemma find_aux_none_any (sub s : str) (i j : nat) :
  find_aux sub s i = None -> find_aux sub s j = None.
Proof.
  revert i j; induction s as [|x s IH]; intros i j; simpl.
  - destruct (prefixb sub []); [discriminate|reflexivity].
  - destruct (prefixb sub (x :: s)); [discriminate|]. apply IH.
Qed.

Lemma contains_false_find_aux (sub s : str) (i : nat) :
  contains sub s = false -> find_aux sub s i = None.
Proof.
  unfold contains, find. simpl.
  destruct (find_aux sub s 0) eqn:E; [discriminate|].
  intros _. exact (find_aux_none_any sub s 0 i E).
Qed.

Lemma rfind_aux_none (sub s : str) (i : nat) (last : Z) :
  find_aux sub s i = None -> rfind_aux sub s i last = last.
Proof.
  revert i last; induction s as [|x s IH]; intros i last; simpl.
  - destruct (prefixb sub []); [discriminate|reflexivity].
  - destruct (prefixb sub (x :: s)); [discriminate|]. apply IH.
Qed.

Lemma rfind_aux_last (sub pre s : str) (i : nat) (last : Z) :
  prefixb sub s = true ->
  find_aux sub (tl s) 0 = None ->
  s <> [] ->
  rfind_aux sub (pre ++ s) i last = Z.of_nat (i + length pre).
Proof.
  intros Hp Hn Hs. revert i last; induction pre as [|x pre IH]; intros i last.
  - destruct s as [|c s]; [congruence|]. cbn [app rfind_aux]. rewrite Hp.
    rewrite (rfind_aux_none sub s (S i)); [simpl; f_equal; lia|].
    exact (find_aux_none_any sub s 0 (S i) Hn).
  - cbn [app rfind_aux]. rewrite IH. simpl length. f_equal. lia.
Qed.

Lemma rfind_none (s sub : str) :
  contains sub s = false -> rfind s sub = (-1)%Z.
Proof.
  intros H. unfold rfind. apply rfind_aux_none.
  now apply contains_false_find_aux.
Qed.

Lemma rfind_last_char (pre s : str) (c : ascii) :
  contains [c] s = false ->
  rfind (pre ++ c :: s) [c] = Z.of_nat (length pre).
Proof.
  intros H. unfold rfind.
  rewrite (rfind_aux_last [c] pre (c :: s) 0 (-1)%Z).
  - reflexivity.
  - simpl. now rewrite Ascii.eqb_refl.
  - simpl tl. now apply contains_false_find_aux.
  - discriminate.
Qed.

Lemma skipn_app_exact (pre s : str) : skipn (length pre) (pre ++ s) = s.
Proof. induction pre; simpl; auto. Qed.

Lemma basename_plain (name : str) :
  contains sep name = false -> basename name = name.
Proof.
  intros H. unfold basename, zslice_from, slice_from, norm_index.
  rewrite (rfind_none name sep H). reflexivity.
Qed.

Lemma basename_last (dir name : str) :
  contains sep name = false -> basename (dir ++ sep ++ name) = name.
Proof.
  intros H. unfold basename, zslice_from, slice_from.
  change sep with ["/"%char] in *.
  change (["/"%char] ++ name) with ("/"%char :: name).
  rewrite (rfind_last_char dir name "/"%char H).
  replace (Z.of_nat (length dir) + 1)%Z with (Z.of_nat (length (dir ++ ["/"%char])))
    by (rewrite length_app; simpl; lia).
  rewrite norm_index_of_nat.
  replace (dir ++ "/"%char :: name) with ((dir ++ ["/"%char]) ++ name)
    by (now rewrite <- app_assoc).
  apply skipn_app_exact.
Qed.

(** ** The choice of the classifier *)

Lemma parse_as_missing
  (U : str) (names : list (str * str)) (licenses : list (str * LicenseEntryPoint))
  (t : filetype) (text : str) :
  parse_as U names licenses t false text = Ok (new_descriptor t false).
Proof. destruct t; reflexivity. Qed.

Lemma parse_as_empty
  (U : str) (names : list (str * str)) (licenses : list (str * LicenseEntryPoint))
  (t : filetype) :
  parse_as U names licenses t true []
  = Ok (set_content (new_descriptor t true) (Some [])).
Proof. destruct t; reflexivity. Qed.

Lemma LicenseDescriptor_parse_total
  (U : str) (names : list (str * str)) (licenses : list (str * LicenseEntryPoint))
  (present : bool) (text : str) :
  exists d,
    LicenseDescriptor_parse U names licenses (LicenseDescriptor present) text
    = Ok d.
Proof.
  destruct present; [|eexists; reflexivity].
  destruct text as [|c text]; [eexists; reflexivity|].
  destruct (search_copyright_total (c :: text)) as [Hs|(cs & ys & ns & Hs)].
  - rewrite (LicenseDescriptor_parse_not_found U names licenses c text Hs). eauto.
  - rewrite (LicenseDescriptor_parse_found U names licenses c text cs ys ns Hs).
    eauto.
Qed.

Lemma ContributingDescriptor_parse_total
  (U : str) (licenses : list (str * LicenseEntryPoint))
  (present : bool) (text : str) :
  exists d,
    ContributingDescriptor_parse U licenses (ContributingDescriptor present) text
    = Ok d.
Proof.
  destruct present; [|eexists; reflexivity].
  destruct text as [|c text]; eexists; reflexivity.
Qed.

Lemma parse_as_result
  (U : str) (names : list (str * str)) (licenses : list (str * LicenseEntryPoint))
  (t : filetype) (present : bool) (text : str) :
  (exists d, parse_as U names licenses t present text = Ok d)
  \/ (parse_as U names licenses t present text = Raise IndexError
      /\ t = SOURCE_FILETYPE).
Proof.
  destruct t; cbn [parse_as].
  - destruct (SourceDescriptor_parse_result U names licenses present text)
      as [H|H]; [left|right]; auto.
  - left. apply ContributingDescriptor_parse_total.
  - left. apply LicenseDescriptor_parse_total.
Qed.

(** ** The report *)

Lemma lookup_group_cons (n g : nat) (sp : nat * nat) (c : list (nat * (nat * nat))) :
  lookup_group n c <> None -> lookup_group n ((g, sp) :: c) <> None.
Proof. simpl. destruct (g =? n); [discriminate|auto]. Qed.

(** A group that is closed stays closed. *)
Lemma reach_keeps_group (n : nat) (r : regex) (st st' : mstate) :
  reach r st st' ->
  lookup_group n (caps st) <> None -> lookup_group n (caps st') <> None.
Proof.
  induction 1 as [st|p st c cs E Hp|a b st st1 st2 _ IH1 _ IH2
                  |a b st st' _ IH|a b st st' _ IH|a st
                  |a st st1 st2 _ IH1 _ IH2|g a st st' _ IH|st Hb|st He];
    intros Hg; auto.
  cbn [close_group caps]. apply lookup_group_cons. auto.
Qed.

Lemma error_re_group_1 (exts : list str) (line : str) (m : mstate) :
  search (error_re exts) line 0 = Matched m ->
  exists file, group_text line m 1 = Some file.
Proof.
  intros H. apply search_matched_at in H as (st0 & _ & _ & Hr).
  unfold error_re in Hr.
  apply reach_seq_inv in Hr as (st1 & H1 & H2).
  apply reach_group_inv in H1 as (st1' & _ & E1).
  assert (Hg : lookup_group 1 (caps m) <> None).
  { apply (reach_keeps_group 1 _ _ _ H2). subst st1. simpl. discriminate. }
  unfold group_text. destruct (lookup_group 1 (caps m)) as [[a b]|]; [eauto|].
  now elim Hg.
Qed.

Lemma error_count_cons (f : str) (errors : list error_data) (r : report_type) :
  error_count ((f, errors) :: r) = length errors + error_count r.
Proof. reflexivity. Qed.

Lemma test_count_cons (f : str) (errors : list error_data) (r : report_type) :
  test_count ((f, errors) :: r) = Nat.max (length errors) 1 + test_count r.
Proof. reflexivity. Qed.

Lemma error_count_report_append (r : report_type) (file : str) (e : error_data) :
  error_count (report_append r file e) = S (error_count r).
Proof.
  induction r as [|[f errors] r IH]; [reflexivity|].
  cbn [report_append]. destruct (str_eqb f file); rewrite !error_count_cons.
  - rewrite length_app. simpl. lia.
  - rewrite IH. lia.
Qed.

Lemma no_empty_list_report_append (r : report_type) (file : str) (e : error_data) :
  no_empty_list r -> no_empty_list (report_append r file e).
Proof.
  unfold no_empty_list. induction r as [|[f errors] r IH]; intros Hr file' errors'.
  - simpl. intros [E|[]]. inversion E. discriminate.
  - cbn [report_append]. destruct (str_eqb f file).
    + intros [E|Hin].
      * inversion E. destruct errors; discriminate.
      * apply (Hr file' errors'). now right.
    + intros [E|Hin].
      * apply (Hr file' errors'). now left.
      * apply (IH (fun f' e' H => Hr f' e' (or_intror H)) file' errors' Hin).
Qed.


Section Report.

Variable exts : list str.

Let re := error_re exts.

Lemma report_line_step (st : report_state) (line : str) :
  exists st',
    report_line re st line = Ok st'
    /\ file_seen st' = file_seen st || is_error_line re line
    /\ error_count (report st')
       = error_count (report st)
         + (if file_seen st && is_error_line re line then 1 else 0)
    /\ (file_seen st = false -> report st' = report st)
    /\ (no_empty_list (report st) -> no_empty_list (report st')).
Proof.
  unfold report_line, is_error_line, file_seen.
  destruct (search re line 0) as [m| |] eqn:Hs.
  - destruct (error_re_group_1 exts line m Hs) as (file & Hf).
    destruct (current_file st) as [f|] eqn:Ef; eexists; (split; [reflexivity|]);
      cbn [current_file report]; rewrite Hf.
    + rewrite error_count_report_append. cbn [andb orb].
      split; [reflexivity|]. split; [lia|]. split; [discriminate|].
      apply no_empty_list_report_append.
    + cbn [andb orb]. repeat split; auto; lia.
  - eexists. split; [reflexivity|]. cbn [current_file report].
    rewrite orb_false_r, andb_false_r. repeat split; auto; lia.
  - now apply search_not_exhausted in Hs.
Qed.

Lemma report_lines_count (lines : list str) (st : report_state) :
  exists st',
    report_lines re st lines = Ok st'
    /\ file_seen st'
       = file_seen st || (0 <? length (filter (is_error_line re) lines))
    /\ error_count (report st')
         + (if file_seen st then 0 else if file_seen st' then 1 else 0)
       = error_count (report st) + length (filter (is_error_line re) lines)
    /\ (file_seen st' = false -> report st' = report st)
    /\ (no_empty_list (report st) -> no_empty_list (report st')).
Proof.
  revert st; induction lines as [|line lines IH]; intros st.
  - exists st. cbn [report_lines filter length Nat.ltb Nat.leb].
    rewrite orb_false_r. repeat split; auto. destruct (file_seen st); lia.
  - destruct (report_line_step st line) as (st1 & E1 & S1 & C1 & R1 & N1).
    destruct (IH st1) as (st2 & E2 & S2 & C2 & R2 & N2).
    exists st2. cbn [report_lines]. rewrite E1. cbn [bind].
    split; [exact E2|].
    assert (Hlen : length (filter (is_error_line re) (line :: lines))
                   = (if is_error_line re line then 1 else 0)
                     + length (filter (is_error_line re) lines))
      by (cbn [filter]; destruct (is_error_line re line); reflexivity).
    assert (Hz : (0 <? length (filter (is_error_line re) (line :: lines)))
                 = is_error_line re line
                   || (0 <? length (filter (is_error_line re) lines)))
      by (rewrite Hlen; destruct (is_error_line re line); reflexivity).
    rewrite Hz, Hlen. clear Hz Hlen.
    split; [rewrite S2, S1; now rewrite orb_assoc|].
    split.
    + rewrite S2 in *. rewrite S1 in *.
      destruct (file_seen st), (is_error_line re line),
        (0 <? length (filter (is_error_line re) lines));
        cbn [orb andb] in *; lia.
    + split.
      * intros H2. assert (H1 : file_seen st1 = false)
          by (rewrite S2 in H2; now apply orb_false_iff in H2).
        assert (H0 : file_seen st = false)
          by (rewrite S1 in H1; now apply orb_false_iff in H1).
        rewrite (R2 H2). exact (R1 H0).
      * auto.
Qed.

Lemma report_output_count (st : report_state) (output : str) :
  exists st',
    report_output re st output = Ok st'
    /\ file_seen st' = file_seen st || (0 <? error_lines re output)
    /\ error_count (report st')
       = error_count (report st) + error_lines re output
         + (if file_seen st then 1 else 0)
    /\ (file_seen st' = false -> report st' = report st)
    /\ (no_empty_list (report st) -> no_empty_list (report st')).
Proof.
  unfold report_output, error_lines.
  destruct (report_lines_count (splitlines output) st)
    as (st1 & E1 & S1 & C1 & R1 & N1).
  rewrite E1. cbn [bind]. eexists. split; [reflexivity|].
  unfold file_seen in *.
  destruct (current_file st1) as [f|] eqn:Ef; cbn [current_file report].
  - rewrite error_count_report_append.
    split; [exact S1|]. split.
    + destruct (current_file st); lia.
    + split; [discriminate|].
      intros H. apply no_empty_list_report_append. auto.
  - rewrite Ef. split; [exact S1|]. split.
    + destruct (current_file st); [discriminate|].
      cbn [orb] in S1.
      destruct (length (filter (is_error_line re) (splitlines output)));
        [lia|discriminate].
    + auto.
Qed.

Lemma report_outputs_app (st : report_state) (a b : list str) :
  report_outputs re st (a ++ b)
  = (st' <- report_outputs re st a ;; report_outputs re st' b).
Proof.
  revert st; induction a as [|o a IH]; intros st; [reflexivity|].
  cbn [app report_outputs].
  destruct (report_output re st o) as [st1| |]; cbn [bind]; auto.
Qed.

Lemma report_outputs_seen (outputs : list str) (st : report_state) :
  file_seen st = true ->
  exists st',
    report_outputs re st outputs = Ok st'
    /\ error_count (report st')
       = error_count (report st) + total_error_lines re outputs
         + length outputs.
Proof.
  revert st; induction outputs as [|o outputs IH]; intros st Hst.
  - exists st. split; [reflexivity|]. unfold total_error_lines. simpl. lia.
  - destruct (report_output_count st o) as (st1 & E1 & S1 & C1 & _).
    rewrite Hst in S1, C1. cbn [orb] in S1.
    destruct (IH st1 S1) as (st2 & E2 & C2).
    exists st2. cbn [report_outputs]. rewrite E1. cbn [bind].
    split; [exact E2|]. rewrite C2, C1.
    unfold total_error_lines. cbn [map length].
    change (list_sum (error_lines re o :: map (error_lines re) outputs))
      with (error_lines re o + list_sum (map (error_lines re) outputs)).
    lia.
Qed.

Lemma report_outputs_clean (outputs : list str) (st : report_state) :
  file_seen st = false ->
  forallb (fun o => error_lines re o =? 0) outputs = true ->
  exists st',
    report_outputs re st outputs = Ok st'
    /\ file_seen st' = false /\ report st' = report st.
Proof.
  revert st; induction outputs as [|o outputs IH]; intros st Hst Hc.
  - exists st. auto.
  - cbn [forallb] in Hc. apply andb_true_iff in Hc as [Ho Hc].
    apply Nat.eqb_eq in Ho.
    destruct (report_output_count st o) as (st1 & E1 & S1 & _ & R1 & _).
    rewrite Hst, Ho in S1. cbn in S1.
    destruct (IH st1 S1 Hc) as (st2 & E2 & S2 & R2).
    exists st2. cbn [report_outputs]. rewrite E1. cbn [bind].
    split; [exact E2|]. split; [exact S2|]. rewrite R2. auto.
Qed.


End Report.

(** ** Messages and names *)

Lemma basename_after_prefix (prefix name : str) :
  is_directory_prefix prefix = true -> contains sep name = false ->
  basename (prefix ++ name) = name.
Proof.
  unfold is_directory_prefix. intros Hp Hn.
  destruct (rev prefix) as [|c l] eqn:E.
  - apply (f_equal (@rev ascii)) in E. rewrite rev_involutive in E. subst prefix.
    now apply basename_plain.
  - apply (f_equal (@rev ascii)) in E. rewrite rev_involutive in E. subst prefix.
    apply Ascii.eqb_eq in Hp. subst c. cbn [rev]. rewrite <- app_assoc.
    exact (basename_last (rev l) name Hn).
Qed.

Lemma find_aux_not_prefix (c : ascii) (s : str) (i : nat) :
  find_aux [c] s i = None -> forall x, In x s -> x <> c.
Proof.
  revert i; induction s as [|y s IH]; intros i H x Hin; [destruct Hin|].
  simpl in H. destruct (Ascii.eqb_spec c y) as [->|Hne]; [discriminate|].
  simpl in H. destruct Hin as [<-|Hin]; [congruence|]. eauto.
Qed.

Lemma contains_false_in (c : ascii) (s : str) :
  contains [c] s = false -> forall x, In x s -> x <> c.
Proof.
  intros H. apply (find_aux_not_prefix c s 0).
  now apply contains_false_find_aux.
Qed.

Lemma lstrip_stop (c x : ascii) (s : str) :
  x <> c -> lstrip c (x :: s) = x :: s.
Proof.
  intros H. simpl. destruct (Ascii.eqb_spec x c); [contradiction|reflexivity].
Qed.

Lemma firstn_app_exact (a b : str) : firstn (length a) (a ++ b) = a.
Proof. induction a; simpl; congruence. Qed.

Lemma dirname_of_folder (prefix folder name : str) :
  folder <> [] ->
  contains sep folder = false -> contains sep name = false ->
  dirname (prefix ++ folder ++ sep ++ name) = prefix ++ folder.
Proof.
  intros Hne Hf Hn. unfold dirname, zslice_to, slice_to.
  change sep with ["/"%char] in *.
  change (["/"%char] ++ name) with ("/"%char :: name).
  rewrite app_assoc, (rfind_last_char (prefix ++ folder) name "/"%char Hn).
  replace (Z.of_nat (length (prefix ++ folder)) + 1)%Z
    with (Z.of_nat (length ((prefix ++ folder) ++ ["/"%char])))
    by (rewrite (length_app (prefix ++ folder)); simpl; lia).
  rewrite norm_index_of_nat.
  replace ((prefix ++ folder) ++ "/"%char :: name)
    with (((prefix ++ folder) ++ ["/"%char]) ++ name)
    by (now rewrite <- (app_assoc (prefix ++ folder))).
  rewrite firstn_app_exact.
  destruct (rev folder) as [|x l] eqn:E.
  { apply (f_equal (@rev ascii)) in E. rewrite rev_involutive in E.
    now elim Hne. }
  assert (Hx : x <> "/"%char).
  { apply (contains_false_in "/"%char folder Hf). apply in_rev.
    rewrite E. now left. }
  destruct ((prefix ++ folder) ++ ["/"%char]) as [|h t] eqn:Eh.
  { apply (f_equal (@length ascii)) in Eh. rewrite length_app in Eh.
    simpl in Eh. lia. }
  rewrite <- Eh. clear h t Eh.
  assert (Hs : str_eqb ((prefix ++ folder) ++ ["/"%char])
                 (repeat "/"%char (length ((prefix ++ folder) ++ ["/"%char])))
               = false).
  { destruct (str_eqb _ _) eqn:Es; [|reflexivity].
    apply str_eqb_eq in Es.
    assert (Hin : In x ((prefix ++ folder) ++ ["/"%char])).
    { apply in_or_app. left. apply in_or_app. right. apply in_rev.
      rewrite E. now left. }
    rewrite Es in Hin. apply repeat_spec in Hin. contradiction. }
  rewrite Hs. cbn [negb]. unfold rstrip.
  rewrite rev_app_distr. cbn [rev app lstrip]. rewrite Ascii.eqb_refl.
  rewrite rev_app_distr, E. cbn [app].
  rewrite (lstrip_stop _ _ _ Hx).
  change (x :: l ++ rev prefix) with ((x :: l) ++ rev prefix).
  rewrite <- E, <- rev_app_distr. apply rev_involutive.
Qed.

Lemma endswith_app (s suffix : str) : endswith (s ++ suffix) suffix = true.
Proof.
  unfold endswith. rewrite rev_app_distr.
  induction (rev suffix) as [|c l IH]; [reflexivity|].
  simpl. now rewrite Ascii.eqb_refl.
Qed.

Lemma strip_suffix (s suffix : str) :
  suffix <> [] ->
  zslice (s ++ suffix) 0 (- Z.of_nat (length suffix)) = s.
Proof.
  intros Hne. unfold zslice, slice, norm_index.
  assert (0 < length suffix) by (destruct suffix; [congruence|simpl; lia]).
  destruct (Z.ltb_spec (- Z.of_nat (length suffix)) 0); [|lia].
  cbn [Z.ltb Z.compare Z.to_nat skipn]. rewrite length_app.
  replace (Z.to_nat (Z.max 0 (- Z.of_nat (length suffix)
                              + Z.of_nat (length s + length suffix))) - 0)
    with (length s) by lia.
  apply firstn_app_exact.
Qed.

Lemma contains_false_of_in (c : ascii) (s : str) :
  (forall x, In x s -> x <> c) -> contains [c] s = false.
Proof.
  intros H. unfold contains, find. cbn [length Nat.ltb Nat.leb skipn].
  assert (Hn : forall i, find_aux [c] s i = None).
  { induction s as [|y s IH]; intros i; [reflexivity|].
    simpl. destruct (Ascii.eqb_spec c y) as [->|Hne].
    - now elim (H y (or_introl eq_refl)).
    - simpl. apply IH. intros x Hx. apply H. now right. }
  now rewrite Hn.
Qed.

Lemma contains_false_app (c : ascii) (a b : str) :
  contains [c] a = false -> contains [c] b = false ->
  contains [c] (a ++ b) = false.
Proof.
  intros Ha Hb. apply contains_false_of_in. intros x Hx.
  apply in_app_or in Hx as [Hx|Hx];
    [exact (contains_false_in c a Ha x Hx)|exact (contains_false_in c b Hb x Hx)].
Qed.

(** ** What the years group reads *)

Lemma reach_year (st st' : mstate) :
  reach year st st' ->
  exists y, is_year y = true /\ rest st = y ++ rest st'
            /\ pos st' = pos st + length y.
Proof.
  unfold year, rep4. intros H.
  apply reach_seq_inv in H as (s1 & H1 & H).
  apply reach_seq_inv in H as (s2 & H2 & H).
  apply reach_seq_inv in H as (s3 & H3 & H4).
  apply reach_cls_inv in H1 as (a & r1 & E1 & Ha & ->).
  apply reach_cls_inv in H2 as (b & r2 & E2 & Hb & ->).
  apply reach_cls_inv in H3 as (c & r3 & E3 & Hc & ->).
  apply reach_cls_inv in H4 as (d & r4 & E4 & Hd & ->).
  cbn [step rest pos] in *. subst r1 r2 r3.
  exists [a; b; c; d]. cbn [is_year]. rewrite Ha, Hb, Hc, Hd.
  split; [reflexivity|]. split; [exact E1|]. simpl. lia.
Qed.

Lemma reach_year_or_year_range (st st' : mstate) :
  reach year_or_year_range st st' ->
  exists t, token_ok t = true /\ rest st = token_text t ++ rest st'
            /\ pos st' = pos st + length (token_text t).
Proof.
  unfold year_or_year_range. intros H.
  apply reach_alt_inv in H as [H|H].
  - apply reach_year in H as (y & Hy & E & P). exists (Year y). auto.
  - unfold year_range in H.
    apply reach_seq_inv in H as (s1 & H1 & H).
    apply reach_seq_inv in H as (s2 & H2 & H3).
    apply reach_year in H1 as (y1 & Hy1 & E1 & P1).
    apply reach_lit in H2 as [E2 P2].
    apply reach_year in H3 as (y2 & Hy2 & E3 & P3).
    exists (YearRange y1 y2). cbn [token_ok token_text].
    rewrite Hy1, Hy2. split; [reflexivity|].
    rewrite E1, E2, E3, !length_app, <- !app_assoc.
    split; [reflexivity|]. simpl in *. lia.
Qed.

Lemma reach_years_more (st st' : mstate) :
  reach years_more st st' ->
  exists ws t, forallb is_space ws = true /\ token_ok t = true
               /\ rest st = more_text [(ws, t)] ++ rest st'
               /\ pos st' = pos st + length (more_text [(ws, t)]).
Proof.
  unfold years_more. intros H.
  apply reach_seq_inv in H as (s1 & H1 & H).
  apply reach_seq_inv in H as (s2 & H2 & H3).
  apply reach_lit in H1 as [E1 P1].
  apply reach_star_cls in H2 as (ws & E2 & P2 & Hws).
  apply reach_year_or_year_range in H3 as (t & Ht & E3 & P3).
  exists ws, t. split; [exact Hws|]. split; [exact Ht|].
  cbn [more_text]. rewrite app_nil_r, E1, E2, E3, !length_app, <- !app_assoc.
  split; [reflexivity|]. simpl in *. lia.
Qed.

Lemma more_text_app (a b : list (str * year_token)) :
  more_text (a ++ b) = more_text a ++ more_text b.
Proof.
  induction a as [|[ws t] a IH]; [reflexivity|].
  cbn [app more_text]. now rewrite IH, <- !app_assoc.
Qed.

Lemma reach_star_years_more (st st' : mstate) :
  reach (Star years_more) st st' ->
  exists more, more_ok more = true /\ rest st = more_text more ++ rest st'
               /\ pos st' = pos st + length (more_text more).
Proof.
  remember (Star years_more) as r eqn:Er.
  induction 1 as [ | | | | |a st|a st st1 st2 H1 _ _ IH2| | | ];
    try discriminate.
  - exists []. simpl. repeat split; auto; lia.
  - injection Er as ->. destruct (IH2 eq_refl) as (more & Hm & Em & Pm).
    apply reach_years_more in H1 as (ws & t & Hws & Ht & E1 & P1).
    exists ((ws, t) :: more).
    change ((ws, t) :: more) with ([(ws, t)] ++ more).
    rewrite more_text_app, length_app, <- app_assoc, <- Em.
    split; [|split; [exact E1|lia]].
    unfold more_ok in *. cbn [app forallb fst snd]. now rewrite Hws, Ht, Hm.
Qed.

Lemma reach_years_list (st st' : mstate) :
  reach years_list st st' ->
  exists t more, token_ok t = true /\ more_ok more = true
                 /\ rest st = years_text t more ++ rest st'
                 /\ pos st' = pos st + length (years_text t more).
Proof.
  unfold years_list. intros H.
  apply reach_seq_inv in H as (s1 & H1 & H2).
  apply reach_year_or_year_range in H1 as (t & Ht & E1 & P1).
  apply reach_star_years_more in H2 as (more & Hm & E2 & P2).
  exists t, more. split; [exact Ht|]. split; [exact Hm|].
  unfold years_text. rewrite length_app, <- app_assoc, <- E2.
  split; [exact E1|lia].
Qed.

(** The second group of every match of the copyright pattern is a list of
    years. *)
Lemma copyright_pattern_years (content : str) (st0 m : mstate) :
  in_text content st0 ->
  reach copyright_pattern st0 m ->
  exists b c t more,
    lookup_group 2 (caps m) = Some (b, c)
    /\ token_ok t = true /\ more_ok more = true
    /\ slice content b c = years_text t more.
Proof.
  intros Hi0 H. unfold copyright_pattern in H.
  apply reach_seq_inv in H as (s1 & H1 & H).
  apply reach_bol_inv in H1 as [-> _].
  apply reach_seq_inv in H as (s2 & H2 & H).
  apply reach_seq_inv in H as (s3 & H3 & H).
  apply reach_seq_inv in H as (s4 & H4 & H).
  apply reach_seq_inv in H as (s5 & H5 & H).
  apply reach_seq_inv in H as (s6 & H6 & H).
  apply reach_seq_inv in H as (s7 & H7 & H).
  apply reach_seq_inv in H as (s8 & H8 & H).
  apply reach_eol_inv in H as [-> _].
  apply reach_group_inv in H6 as (t6 & H6 & ->).
  apply reach_group_inv in H8 as (t8 & H8 & ->).
  destruct (reach_in_text _ _ _ _ Hi0 H2) as (Hi2 & _ & _).
  destruct (reach_in_text _ _ _ _ Hi2 H3) as (Hi3 & _ & _).
  destruct (reach_in_text _ _ _ _ Hi3 H4) as (Hi4 & _ & _).
  destruct (reach_in_text _ _ _ _ Hi4 H5) as (Hi5 & _ & _).
  destruct (reach_in_text _ _ _ _ Hi5 H6) as (Hi6 & _ & Hs6).
  destruct (reach_years_list _ _ H6) as (t & more & Ht & Hm & E6 & _).
  exists (pos s5), (pos t6), t, more.
  split.
  - cbn [close_group caps lookup_group Nat.eqb].
    rewrite (reach_no_group _ _ _ H8 eq_refl), (reach_no_group _ _ _ H7 eq_refl).
    reflexivity.
  - split; [exact Ht|]. split; [exact Hm|].
    exact (slice_unique _ _ _ _ Hs6 E6).
Qed.

(** ** The shape of what the matcher returns *)

Lemma search_copyright_shape (content : str) :
  _search_copyright_information content = Ok (None, None, None)
  \/ exists (a b c d e : nat) (t : year_token) (more : list (str * year_token)),
       _search_copyright_information content =
         Ok (Some (Z.of_nat a, Z.of_nat (a + 9)), Some (Z.of_nat b, Z.of_nat c),
             Some (Z.of_nat d, Z.of_nat e))
       /\ slice content a (a + 9) = txt "Copyright"
       /\ token_ok t = true /\ more_ok more = true
       /\ slice content b c = years_text t more
       /\ a + 9 < b /\ b + 4 <= c /\ c < d /\ d < e /\ e <= length content
       /\ forallb is_space (slice content (a + 9) b) = true
       /\ forallb is_space (slice content c d) = true
       /\ forallb not_nl_cr (slice content d e) = true
       /\ (e = length content \/ nth_error content e = Some LF).
Proof.
  unfold _search_copyright_information.
  destruct (search copyright_pattern content 0) as [m| |] eqn:Hs.
  - right. apply search_matched_at in Hs as (st0 & Hi & Hc & Hr).
    destruct (copyright_pattern_match content st0 m Hi Hc Hr)
      as (a & b & c & d & e & Hcaps & Hword & Hrest).
    destruct (copyright_pattern_years content st0 m Hi Hr)
      as (b' & c' & t & more & Hl & Ht & Hm & Hy).
    rewrite Hcaps in Hl. cbn in Hl. injection Hl as <- <-.
    exists a, b, c, d, e, t, more. unfold span. rewrite Hcaps. cbn [lookup_group Nat.eqb].
    split; [reflexivity|]. split; [exact Hword|].
    split; [exact Ht|]. split; [exact Hm|]. split; [exact Hy|exact Hrest].
  - now left.
  - now apply search_not_exhausted in Hs.
Qed.

Lemma first_license_with_loop (U : str)
  (licenses : list (str * LicenseEntryPoint)) (part : license_part) (s : str) :
  first_license_with U licenses part s
    (Some (identify_license_loop U licenses (Some s) part)).
Proof.
  destruct (identify_license_loop_lookup U licenses s part)
    as [(before & key & lic & after & E & Hc & Hb & Hr)|[Hall Hr]].
  - left. exists before, key, lic, after. rewrite Hr. auto.
  - right. rewrite Hr. auto.
Qed.

(** The last-character line: the test holds and the scan goes to the end. *)
Lemma scan_past_empty_lines_last_character (content : str) (index : nat)
  (c : ascii) :
  nth_error content index = Some c -> c <> LF -> c <> CR ->
  S index = length content ->
  scan_past_empty_lines content index = Ok (length content).
Proof.
  intros Hc Hn Hr Hlen.
  pose proof (is_empty_line_last_character content index c Hc Hn Hr Hlen) as He.
  assert (Hnext : get_index_of_next_line content index = length content)
    by (apply is_empty_line_iff in He; lia).
  assert (Hend : is_empty_line content (length content) = false).
  { destruct (is_empty_line content (length content)) eqn:E; [|reflexivity].
    apply is_empty_line_iff in E.
    rewrite get_index_of_next_line_past_end in E by lia. lia. }
  unfold scan_past_empty_lines.
  destruct (length content) as [|n] eqn:El; [lia|].
  cbn [scan_past_empty_lines_loop]. rewrite He, Hnext.
  cbn [scan_past_empty_lines_loop]. now rewrite Hend.
Qed.

(** When the test for an empty line holds. *)
Lemma is_empty_line_cases (content : str) (index : nat) :
  is_empty_line content index = true
  <-> (nth_error content index = Some LF
       \/ (nth_error content index = Some CR
           /\ nth_error content (S index) <> Some LF)
       \/ (S index = length content
           /\ exists c, nth_error content index = Some c
                        /\ c <> LF /\ c <> CR)).
Proof.
  split.
  - intros He. apply is_empty_line_iff in He.
    destruct (get_index_of_next_line_step content index)
      as [[Hall Hr]|(p & Hp & Hbefore & Hcase)].
    + right. right. rewrite Hr in He. split; [lia|].
      destruct (nth_error content index) as [c|] eqn:Ec.
      * exists c. split; [reflexivity|]. exact (Hall index c (le_n _) Ec).
      * apply nth_error_None in Ec. lia.
    + destruct Hcase as [[H Hr]|[(H & H' & Hr)|(H & H' & Hr)]];
        rewrite Hr in He.
      * assert (p = index) by lia. subst p. now left.
      * lia.
      * assert (p = index) by lia. subst p. right. left. auto.
  - intros [H|[[H H']|(Hlen & c & Hc & Hn & Hr)]].
    + apply is_empty_line_iff.
      now rewrite (next_line_at_terminator content index LF H (or_introl eq_refl)).
    + apply is_empty_line_iff.
      rewrite (next_line_at_terminator content index CR H (or_intror eq_refl)).
      destruct (nth_error content (S index)) as [d|]; [|reflexivity].
      destruct (Ascii.eqb_spec d LF) as [->|]; [congruence|reflexivity].
    + exact (is_empty_line_last_character content index c Hc Hn Hr Hlen).
Qed.

(** The License-File Classifier on a statement that follows text without
    the word. *)
Lemma LicenseDescriptor_parse_after_text
  (U : str) (names : list (str * str)) (licenses : list (str * LicenseEntryPoint))
  (pre ws1 : str) (t : year_token) (more : list (str * year_token))
  (ws2 name tail : str) :
  let text := pre ++ copyright_statement ws1 t more ws2 name ++ tail in
  contains (txt "Copyright") pre = false ->
  ends_with_line_feed pre = true ->
  is_spacing ws1 = true -> token_ok t = true -> more_ok more = true ->
  is_spacing ws2 = true -> is_holder_name name = true ->
  ends_line tail = true ->
  LicenseDescriptor_parse U names licenses (LicenseDescriptor true) text
  = Ok (Descriptor LICENSE_FILETYPE true (Some text) (Some name)
          (Some (years_text t more)) (Some U)
          (Some (identify_license_loop U licenses
                   (Some (pre ++ placeholder ++ tail)) part_license_file))).
Proof.
  intros text Hno Hnl Hws1 Ht Hmore Hws2 Hname Htail.
  destruct (copyright_statement_after_text_spans pre ws1 t more ws2 name tail
              Hno Hnl Hws1 Ht Hmore Hws2 Hname Htail)
    as (a & a' & b & c & d & e & Hs & Hpre & _ & Hy & Hn & Hrest).
  fold text in Hs, Hpre, Hy, Hn, Hrest.
  assert (Htext : exists c0 text', text = c0 :: text').
  { unfold text, copyright_statement. destruct pre; simpl; eauto. }
  destruct Htext as (c0 & text' & Htext).
  pose proof Hs as Hs'. rewrite Htext in Hs'.
  pose proof (LicenseDescriptor_parse_found U names licenses c0 text' _ _ _ Hs')
    as Hparse.
  rewrite <- Htext in Hparse. cbn [fst snd] in Hparse.
  rewrite !zslice_of_nat, zslice_from_of_nat in Hparse.
  unfold zslice_to in Hparse. rewrite norm_index_of_nat in Hparse.
  rewrite Hy, Hn, Hrest, Hpre in Hparse. exact Hparse.
Qed.

(** * The claims about the scanners *)

(** C8. One step of [get_index_of_next_line] moves past exactly one logical
    line.  With [p] the offset of the first line feed or carriage return at
    or after [index]: the step returns [p + 1] when a line feed is at [p],
    [p + 2] when a carriage return followed by a line feed is at [p] (the
    lone carriage return and the pair are then found at the same offset and
    count as one boundary), [p + 1] when a carriage return not followed by a
    line feed is at [p], and the length of the content when there is no
    terminator from [index] on. *)
Theorem get_index_of_next_line_one_logical_line (content : str) (index : nat) :
  let r := get_index_of_next_line content index in
  ((forall q c, index <= q -> nth_error content q = Some c -> c <> LF /\ c <> CR)
   /\ r = length content)
  \/ exists p,
       index <= p
       /\ (forall q c, index <= q < p -> nth_error content q = Some c ->
                       c <> LF /\ c <> CR)
       /\ ((nth_error content p = Some LF /\ r = p + 1)
           \/ (nth_error content p = Some CR
               /\ nth_error content (S p) = Some LF /\ r = p + 2)
           \/ (nth_error content p = Some CR
               /\ nth_error content (S p) <> Some LF /\ r = p + 1)).
Proof. exact (get_index_of_next_line_step content index). Qed.

(** C9, as the code has it. [is_empty_line] holds exactly when the next
    line starts one character further, that is when a line feed is at the
    offset, or a carriage return not followed by a line feed, or the last
    character of the content, whatever it is.  An empty line terminated by a
    carriage return and a line feed is therefore not skipped:
    [scan_past_empty_lines] returns the offset it was given.  An empty line
    terminated by a lone line feed or a lone carriage return is skipped, and
    so is a last line of one character without terminator, up to the end of
    the content. *)
Theorem scan_past_empty_lines_stops_at_crlf (content : str) (index : nat) :
  (is_empty_line content index = true
   <-> get_index_of_next_line content index = index + 1)
  /\ (is_empty_line content index = true
      <-> (nth_error content index = Some LF
           \/ (nth_error content index = Some CR
               /\ nth_error content (S index) <> Some LF)
           \/ (S index = length content
               /\ exists c, nth_error content index = Some c
                            /\ c <> LF /\ c <> CR)))
  /\ (nth_error content index = Some CR ->
      nth_error content (S index) = Some LF ->
      is_empty_line content index = false
      /\ scan_past_empty_lines content index = Ok index)
  /\ (nth_error content index = Some LF
      \/ (nth_error content index = Some CR
          /\ nth_error content (S index) <> Some LF) ->
      is_empty_line content index = true
      /\ exists r, scan_past_empty_lines content index = Ok r /\ index < r)
  /\ (forall c, nth_error content index = Some c -> c <> LF -> c <> CR ->
      S index = length content ->
      is_empty_line content index = true
      /\ scan_past_empty_lines content index = Ok (length content)).
Proof.
  split; [apply is_empty_line_iff|].
  split; [apply is_empty_line_cases|]. split; [|split].
  - intros Hr Hn.
    assert (E : is_empty_line content index = false).
    { unfold is_empty_line.
      rewrite (next_line_at_terminator content index CR Hr (or_intror eq_refl)).
      rewrite Hn. simpl. apply Nat.eqb_neq. lia. }
    split; [assumption|].
    unfold scan_past_empty_lines. simpl. now rewrite E.
  - intros H.
    assert (E : get_index_of_next_line content index = index + 1).
    { destruct H as [H|[H H']].
      - now rewrite (next_line_at_terminator content index LF H (or_introl eq_refl)).
      - rewrite (next_line_at_terminator content index CR H (or_intror eq_refl)).
        destruct (nth_error content (S index)) as [d|]; [|reflexivity].
        destruct (Ascii.eqb_spec d LF) as [->|]; [congruence|reflexivity]. }
    split; [now apply is_empty_line_iff|].
    destruct (scan_past_empty_lines_loop_total content (length content)
                (index + 1)) as (r & Hr & Hle & _).
    { pose proof (get_index_of_next_line_le content index). lia. }
    exists r. split; [|lia].
    unfold scan_past_empty_lines. simpl.
    replace (is_empty_line content index) with true
      by (symmetry; now apply is_empty_line_iff).
    now rewrite E.
  - intros c Hc Hn Hr Hlen. split.
    + exact (is_empty_line_last_character content index c Hc Hn Hr Hlen).
    + exact (scan_past_empty_lines_last_character content index c Hc Hn Hr Hlen).
Qed.

Lemma scan_past_empty_lines_stops_at_crlf_witness :
  (is_empty_line crlf_then_x 0 = false
   /\ scan_past_empty_lines crlf_then_x 0 = Ok 0)
  /\ (is_empty_line lf_then_x 0 = true
      /\ exists r, scan_past_empty_lines lf_then_x 0 = Ok r /\ 0 < r)
  /\ (is_empty_line one_character_file 0 = true
      /\ scan_past_empty_lines one_character_file 0 = Ok 1).
Proof.
  split; [|split].
  - apply (proj1 (proj2 (proj2
             (scan_past_empty_lines_stops_at_crlf crlf_then_x 0))));
      reflexivity.
  - apply (proj1 (proj2 (proj2 (proj2
             (scan_past_empty_lines_stops_at_crlf lf_then_x 0))))).
    left. reflexivity.
  - apply (proj2 (proj2 (proj2 (proj2
             (scan_past_empty_lines_stops_at_crlf one_character_file 0))))
             "x"%char); [reflexivity|discriminate|discriminate|reflexivity].
Defined.

(** C9, as stated, fails: blank lines ended by a lone line feed or carriage
    return are not the only lines skipped.  On a content of one character
    that is no terminator, the line at offset 0 is not blank, yet the test
    holds and the scan moves past it. *)
Lemma one_character_line_is_skipped :
  nth_error one_character_file 0 = Some "x"%char
  /\ is_empty_line one_character_file 0 = true
  /\ scan_past_empty_lines one_character_file 0 = Ok 1
  /\ scan_past_empty_lines one_character_file 0 <> Ok 0.
Proof. repeat split. discriminate. Qed.

(** C7. The comment-line test of the Preamble Scanner does not recognize
    the two-slash convention: the slice it compares with the two slashes is
    one character long, so the test answers whether the character at the
    offset is a hash sign.  An encoding line written with two slashes is not
    skipped, while the same line written with a hash sign is. *)
Theorem is_comment_line_misses_two_slashes :
  (forall content index,
     is_comment_line content index =
       match nth_error content index with
       | Some c => Ok (Ascii.eqb c "#")
       | None => Raise IndexError
       end)
  /\ is_comment_line slash_coding_file 0 = Ok false
  /\ is_coding_line slash_coding_file 0 = true
  /\ scan_past_coding_and_shebang_lines slash_coding_file = Ok 0
  /\ scan_past_coding_and_shebang_lines hash_coding_file = Ok 24.
Proof.
  split; [exact is_comment_line_eq|repeat split; reflexivity].
Qed.

(** C6. The Preamble Scanner raises on the empty string.  Its loop starts
    with the comment-line test, which subscripts the content at the offset:
    at an offset that is not inside the content the test raises
    [IndexError], where the two other tests of the loop slice and answer
    false.  So the scanner raises on the empty string instead of returning
    0, and also whenever the lines it skips run to the end of the content,
    as on a file made of an interpreter line; the Source-File Classifier
    then raises too.  Only the test for empty content in [parse] keeps the
    classifier from raising on an empty file. *)
Theorem scanner_raises_at_end_of_content :
  scan_past_coding_and_shebang_lines [] = Raise IndexError
  /\ scan_past_coding_and_shebang_lines [] <> Ok 0
  /\ (forall content index,
        length content <= index ->
        is_comment_line content index = Raise IndexError
        /\ is_shebang_line content index = false
        /\ is_coding_line content index = false)
  /\ scan_past_coding_and_shebang_lines shebang_only_file = Raise IndexError
  /\ (forall U names licenses,
        SourceDescriptor_parse U names licenses (SourceDescriptor true)
          shebang_only_file = Raise IndexError
        /\ exists d,
             SourceDescriptor_parse U names licenses (SourceDescriptor true) []
             = Ok d).
Proof.
  split; [reflexivity|]. split; [discriminate|]. split; [|split].
  - intros content index Hle.
    assert (Hskip : skipn index content = [])
      by (apply skipn_all2; exact Hle).
    split; [|split].
    + rewrite is_comment_line_eq.
      now rewrite (proj2 (nth_error_None content index) Hle).
    + unfold is_shebang_line, slice. now rewrite Hskip, firstn_nil.
    + unfold is_coding_line, slice. now rewrite Hskip, firstn_nil.
  - reflexivity.
  - intros U names licenses. split; [reflexivity|].
    eexists. reflexivity.
Qed.

(** * The claims about the Copyright Pattern Matcher *)

(** C4. On a well-formed single-line copyright statement (the word, white
    space, a year or year range followed by any number of further ones after
    commas, white space, a holder name), alone or followed by further lines,
    the Copyright Pattern Matcher succeeds, and its years and name spans are
    exactly the years, the whole comma list unsplit, and the holder name. *)
Theorem copyright_statement_recovered (ws1 : str) (t : year_token)
  (more : list (str * year_token)) (ws2 name tail : str) :
  is_spacing ws1 = true -> token_ok t = true -> more_ok more = true ->
  is_spacing ws2 = true -> is_holder_name name = true ->
  ends_line tail = true ->
  let content := copyright_statement ws1 t more ws2 name ++ tail in
  exists cs ys ns,
    _search_copyright_information content = Ok (Some cs, Some ys, Some ns)
    /\ zslice content (fst ys) (snd ys) = years_text t more
    /\ zslice content (fst ns) (snd ns) = name.
Proof.
  intros Hws1 Ht Hmore Hws2 Hname Htail content.
  destruct (copyright_statement_spans ws1 t more ws2 name tail Hws1 Ht Hmore
              Hws2 Hname Htail) as (b & c & d & e & Hs & Hy & Hn & _).
  fold content in Hs, Hy, Hn.
  do 3 eexists. split; [exact Hs|].
  cbn [fst snd]. now rewrite !zslice_of_nat.
Qed.

Lemma copyright_statement_recovered_witness :
  (exists cs ys ns,
     _search_copyright_information jane_doe_2019 = Ok (Some cs, Some ys, Some ns)
     /\ zslice jane_doe_2019 (fst ys) (snd ys) = txt "2019"
     /\ zslice jane_doe_2019 (fst ns) (snd ns) = txt "Jane Doe")
  /\ (exists cs ys ns,
     _search_copyright_information jane_doe_range = Ok (Some cs, Some ys, Some ns)
     /\ zslice jane_doe_range (fst ys) (snd ys) = txt "2015-2019"
     /\ zslice jane_doe_range (fst ns) (snd ns) = txt "Jane Doe")
  /\ (exists cs ys ns,
     _search_copyright_information jane_doe_list = Ok (Some cs, Some ys, Some ns)
     /\ zslice jane_doe_list (fst ys) (snd ys) = txt "2015, 2017, 2019"
     /\ zslice jane_doe_list (fst ns) (snd ns) = txt "Jane Doe")
  /\ (exists cs ys ns,
     _search_copyright_information notice_tail = Ok (Some cs, Some ys, Some ns)
     /\ zslice notice_tail (fst ys) (snd ys) = txt "2015"
     /\ zslice notice_tail (fst ns) (snd ns) = txt "Foo Corp").
Proof.
  split; [|split; [|split]].
  - exact (copyright_statement_recovered (txt " ") (Year (txt "2019")) []
             (txt " ") (txt "Jane Doe") []
             eq_refl eq_refl eq_refl eq_refl eq_refl eq_refl).
  - exact (copyright_statement_recovered (txt " ")
             (YearRange (txt "2015") (txt "2019")) []
             (txt " ") (txt "Jane Doe") []
             eq_refl eq_refl eq_refl eq_refl eq_refl eq_refl).
  - exact (copyright_statement_recovered (txt " ") (Year (txt "2015"))
             [(txt " ", Year (txt "2017")); (txt " ", Year (txt "2019"))]
             (txt " ") (txt "Jane Doe") []
             eq_refl eq_refl eq_refl eq_refl eq_refl eq_refl).
  - exact (copyright_statement_recovered (txt " ") (Year (txt "2015")) []
             (txt " ") (txt "Foo Corp")
             (LF :: txt "Licensed under the terms.")
             eq_refl eq_refl eq_refl eq_refl eq_refl eq_refl).
Defined.

(** C5, as the code has it. The three spans come together or not at all.
    When the matcher succeeds, the first span is the span of the word
    Copyright alone, nine characters long; the second span covers the years,
    a year or year range followed by any number of further ones, each after
    a comma and any white space; it starts after the white space that
    follows the word.  The third span covers the holder name: it starts
    after the white space that follows the years and runs to the end of its
    line. *)
Theorem copyright_spans_together (content : str) :
  _search_copyright_information content = Ok (None, None, None)
  \/ exists (a b c d e : nat) (t : year_token) (more : list (str * year_token)),
       _search_copyright_information content =
         Ok (Some (Z.of_nat a, Z.of_nat (a + 9)), Some (Z.of_nat b, Z.of_nat c),
             Some (Z.of_nat d, Z.of_nat e))
       /\ zslice content (Z.of_nat a) (Z.of_nat (a + 9)) = txt "Copyright"
       /\ token_ok t = true /\ more_ok more = true
       /\ zslice content (Z.of_nat b) (Z.of_nat c) = years_text t more
       /\ a + 9 < b /\ b + 4 <= c /\ c < d /\ d < e /\ e <= length content
       /\ forallb is_space (slice content (a + 9) b) = true
       /\ forallb is_space (slice content c d) = true
       /\ forallb not_nl_cr (slice content d e) = true
       /\ (e = length content \/ nth_error content e = Some LF).
Proof.
  destruct (search_copyright_shape content)
    as [H|(a & b & c & d & e & t & more & Hs & Hword & Ht & Hm & Hy & Hrest)].
  - now left.
  - right. exists a, b, c, d, e, t, more. rewrite !zslice_of_nat.
    split; [exact Hs|]. split; [exact Hword|]. split; [exact Ht|].
    split; [exact Hm|]. split; [exact Hy|exact Hrest].
Qed.

(** C5, as stated, fails: on [Copyright 2019 Jane Doe] the first span is the
    word, not the statement. *)
Lemma first_span_is_the_word_only :
  _search_copyright_information jane_doe_2019
    = Ok (Some (0, 9), Some (10, 14), Some (15, 23))%Z
  /\ zslice jane_doe_2019 0 9 = txt "Copyright"
  /\ zslice jane_doe_2019 0 9 <> jane_doe_2019.
Proof. repeat split. discriminate. Qed.

(** * The claims about the classifiers *)

(** C1. The License-File Classifier runs the holder lookup before the
    statement is extracted, so the lookup sees no name: on every non-empty
    License file the copyright identifier is the sentinel, also when the
    holder name found afterwards is a registered canonical name.  On
    [foo_license_file] the name recorded is [Foo Corp], registered under
    [foo], and the identifier is the sentinel, though the lookup run on the
    recorded name answers [foo]; the Source-File Classifier, which extracts
    first, resolves the same statement to [foo]. *)
Theorem license_holder_lookup_before_extraction :
  (forall U names licenses c text,
     exists d,
       LicenseDescriptor_parse U names licenses (LicenseDescriptor true) (c :: text)
       = Ok d
       /\ copyright_identifier d = Some U
       /\ ((_search_copyright_information (c :: text) = Ok (None, None, None)
            /\ copyright_years d = None /\ copyright_name d = None)
           \/ exists cs ys ns,
                _search_copyright_information (c :: text)
                = Ok (Some cs, Some ys, Some ns)
                /\ copyright_years d = Some (zslice (c :: text) (fst ys) (snd ys))
                /\ copyright_name d = Some (zslice (c :: text) (fst ns) (snd ns))))
  /\ (exists d,
        LicenseDescriptor_parse unknown sample_names sample_licenses
          (LicenseDescriptor true) foo_license_file = Ok d
        /\ copyright_years d = Some (txt "2015")
        /\ copyright_name d = Some (txt "Foo Corp")
        /\ copyright_identifier d = Some unknown
        /\ identify_copyright_loop unknown sample_names (copyright_name d)
           = txt "foo")
  /\ (exists d,
        SourceDescriptor_parse unknown sample_names sample_licenses
          (SourceDescriptor true) foo_source_file = Ok d
        /\ copyright_name d = Some (txt "Foo Corp")
        /\ copyright_identifier d = Some (txt "foo")).
Proof.
  split; [|split].
  - intros U names licenses c text.
    destruct (search_copyright_total (c :: text)) as [H|(cs & ys & ns & H)].
    + rewrite (LicenseDescriptor_parse_not_found U names licenses c text H).
      eexists. split; [reflexivity|]. split; [reflexivity|].
      left. repeat split. exact H.
    + rewrite (LicenseDescriptor_parse_found U names licenses c text cs ys ns H).
      eexists. split; [reflexivity|]. split; [reflexivity|].
      right. exists cs, ys, ns. repeat split. exact H.
  - eexists. split; [vm_compute; reflexivity|]. repeat split.
  - eexists. split; [vm_compute; reflexivity|]. repeat split.
Qed.

(** C2, as the code has it. On a License file with non-empty content in
    which the matcher finds no statement, the license identifier is set to
    the sentinel: [identify_license] is still called, with an absent content
    that no template is compared with.  No years and no name are recorded.
    The license identifier keeps its initial absent value exactly when the
    file is missing or empty. *)
Theorem license_without_statement_is_unknown
  (U : str) (names : list (str * str)) (licenses : list (str * LicenseEntryPoint))
  (file_exists : bool) (text : str) :
  exists d,
    LicenseDescriptor_parse U names licenses (LicenseDescriptor file_exists) text
    = Ok d
    /\ (file_exists = true -> text <> [] ->
        _search_copyright_information text = Ok (None, None, None) ->
        license_identifier d = Some U
        /\ copyright_years d = None /\ copyright_name d = None)
    /\ (license_identifier d = None <-> file_exists = false \/ text = []).
Proof.
  destruct file_exists.
  - destruct text as [|c text].
    + eexists. split; [reflexivity|]. split; [congruence|].
      split; auto.
    + destruct (search_copyright_total (c :: text)) as [H|(cs & ys & ns & H)].
      * rewrite (LicenseDescriptor_parse_not_found U names licenses c text H).
        eexists. split; [reflexivity|]. split; [auto|].
        simpl. split; [discriminate|]. intros [?|?]; discriminate.
      * rewrite (LicenseDescriptor_parse_found U names licenses c text cs ys ns H).
        eexists. split; [reflexivity|]. split; [congruence|].
        simpl. split; [discriminate|]. intros [?|?]; discriminate.
  - eexists. split; [reflexivity|]. split; [discriminate|].
    split; auto.
Qed.

Lemma license_without_statement_is_unknown_witness :
  exists d,
    LicenseDescriptor_parse unknown sample_names sample_licenses
      (LicenseDescriptor true) plain_license_file = Ok d
    /\ license_identifier d = Some unknown
    /\ copyright_years d = None /\ copyright_name d = None.
Proof.
  destruct (license_without_statement_is_unknown unknown sample_names
              sample_licenses true plain_license_file) as (d & Hd & H & _).
  exists d. split; [exact Hd|].
  apply H; [reflexivity|discriminate|reflexivity].
Defined.

(** C2, as stated, fails: on a License file without statement the license
    identifier is not left unset. *)
Lemma license_identifier_set_without_statement :
  _search_copyright_information plain_license_file = Ok (None, None, None)
  /\ exists d,
       LicenseDescriptor_parse unknown sample_names sample_licenses
         (LicenseDescriptor true) plain_license_file = Ok d
       /\ license_identifier d = Some unknown
       /\ license_identifier d <> None.
Proof.
  split; [reflexivity|].
  eexists. split; [vm_compute; reflexivity|]. split; [reflexivity|discriminate].
Qed.

(** C10. When a copyright statement is found in the comment block of a
    Source file, the string compared with the file-header template of each
    registered license is the literal placeholder followed by the content of
    the block after the holder name, that is from the end of the line of the
    name on: the license identifier is the key of the first license whose
    file header equals that string, and the sentinel when none does.  What
    the block holds before the statement is discarded.  The License-File
    Classifier on the same content compares, with the license-file
    templates, the content before the word Copyright, the placeholder and
    the content after the name.  So for a comment block whose lines before a
    well-formed statement do not hold the word, the Source file is compared
    without those lines and the License file with them. *)
Theorem source_normalized_drops_text_before :
  (forall (U : str) (names : list (str * str))
          (licenses : list (str * LicenseEntryPoint))
          (c : ascii) (text : str) (index index' : nat) (b : ascii)
          (block : str) (off : option nat) (cs ys ns : Z * Z),
     scan_past_coding_and_shebang_lines (c :: text) = Ok index ->
     scan_past_empty_lines (c :: text) index = Ok index' ->
     get_comment_block (c :: text) index' = Ok (Some (b :: block), off) ->
     _search_copyright_information (b :: block)
     = Ok (Some cs, Some ys, Some ns) ->
     exists (word_start name_start name_end : nat) (d d' : FileDescriptor),
       cs = (Z.of_nat word_start, Z.of_nat (word_start + 9))
       /\ ns = (Z.of_nat name_start, Z.of_nat name_end)
       /\ slice (b :: block) word_start (word_start + 9) = txt "Copyright"
       /\ (name_end = length (b :: block)
           \/ nth_error (b :: block) name_end = Some LF)
       /\ SourceDescriptor_parse U names licenses (SourceDescriptor true)
            (c :: text) = Ok d
       /\ copyright_name d = Some (slice (b :: block) name_start name_end)
       /\ first_license_with U licenses part_file_header
            (txt "{copyright}" ++ slice_from (b :: block) name_end)
            (license_identifier d)
       /\ LicenseDescriptor_parse U names licenses (LicenseDescriptor true)
            (b :: block) = Ok d'
       /\ first_license_with U licenses part_license_file
            (slice_to (b :: block) word_start ++ txt "{copyright}"
             ++ slice_from (b :: block) name_end)
            (license_identifier d'))
  /\ (forall (U : str) (names : list (str * str))
             (licenses : list (str * LicenseEntryPoint))
             (k : marker) (pre_lines rest_lines : list str)
             (ws1 : str) (t : year_token) (more : list (str * year_token))
             (ws2 name code : str),
        let statement := copyright_statement ws1 t more ws2 name in
        let lines := pre_lines ++ statement :: rest_lines in
        contains (txt "Copyright") (lines_text pre_lines) = false ->
        is_spacing ws1 = true -> token_ok t = true -> more_ok more = true ->
        is_spacing ws2 = true -> is_holder_name name = true ->
        forallb single_line lines = true ->
        (k = Hash -> is_coding_line (comment_text k lines ++ code) 0 = false) ->
        prefixb (marker_text k) code = false ->
        exists d d' : FileDescriptor,
          SourceDescriptor_parse U names licenses (SourceDescriptor true)
            (comment_text k lines ++ code) = Ok d
          /\ first_license_with U licenses part_file_header
               (txt "{copyright}" ++ after_first_line rest_lines)
               (license_identifier d)
          /\ LicenseDescriptor_parse U names licenses (LicenseDescriptor true)
               (join [LF] lines) = Ok d'
          /\ first_license_with U licenses part_license_file
               (lines_text pre_lines ++ txt "{copyright}"
                ++ after_first_line rest_lines)
               (license_identifier d')).
Proof.
  split.
  - intros U names licenses c text index index' b block off cs ys ns
      H1 H2 H3 H4.
    destruct (search_copyright_shape (b :: block))
      as [Hn|(a & yb & yc & nd & e & t & more & Hs & Hword & _ & _ & _ & _ & _
              & _ & _ & _ & _ & _ & _ & Hend)];
      [rewrite Hn in H4; discriminate|].
    rewrite Hs in H4. injection H4 as <- <- <-.
    exists a, nd, e. eexists. eexists.
    split; [reflexivity|]. split; [reflexivity|].
    split; [exact Hword|]. split; [exact Hend|].
    split.
    { exact (SourceDescriptor_parse_found U names licenses c text index index'
               b block off _ _ _ H1 H2 H3 Hs). }
    split; [cbn [copyright_name fst snd]; now rewrite zslice_of_nat|].
    split.
    { cbn [license_identifier snd]. rewrite zslice_from_of_nat.
      apply first_license_with_loop. }
    split.
    { exact (LicenseDescriptor_parse_found U names licenses b block _ _ _ Hs). }
    cbn [license_identifier fst snd]. rewrite zslice_from_of_nat.
    unfold zslice_to. rewrite norm_index_of_nat.
    apply first_license_with_loop.
  - intros U names licenses k pre_lines rest_lines ws1 t more ws2 name code
      statement lines Hno Hws1 Ht Hmore Hws2 Hname Hlines Hcoding Hcode.
    assert (Htail : ends_line (after_first_line rest_lines) = true)
      by (destruct rest_lines; reflexivity).
    eexists. eexists.
    split.
    { exact (SourceDescriptor_parse_after_lines U names licenses k pre_lines
               rest_lines ws1 t more ws2 name code Hno Hws1 Ht Hmore Hws2
               Hname Hlines Hcoding Hcode). }
    split.
    { cbn [license_identifier]. rewrite join_cons.
      apply first_license_with_loop. }
    split.
    { unfold lines. rewrite join_after_lines, join_cons.
      exact (LicenseDescriptor_parse_after_text U names licenses
               (lines_text pre_lines) ws1 t more ws2 name
               (after_first_line rest_lines) Hno (lines_text_ends pre_lines)
               Hws1 Ht Hmore Hws2 Hname Htail). }
    cbn [license_identifier]. apply first_license_with_loop.
Qed.

Lemma source_normalized_drops_text_before_witness :
  (exists (word_start name_start name_end : nat) (d d' : FileDescriptor),
     (7, 16)%Z = (Z.of_nat word_start, Z.of_nat (word_start + 9))
     /\ (22, 30)%Z = (Z.of_nat name_start, Z.of_nat name_end)
     /\ slice notice_block word_start (word_start + 9) = txt "Copyright"
     /\ (name_end = length notice_block
         \/ nth_error notice_block name_end = Some LF)
     /\ SourceDescriptor_parse unknown sample_names two_licenses
          (SourceDescriptor true) notice_source_file = Ok d
     /\ copyright_name d = Some (slice notice_block name_start name_end)
     /\ first_license_with unknown two_licenses part_file_header
          (txt "{copyright}" ++ slice_from notice_block name_end)
          (license_identifier d)
     /\ LicenseDescriptor_parse unknown sample_names two_licenses
          (LicenseDescriptor true) notice_block = Ok d'
     /\ first_license_with unknown two_licenses part_license_file
          (slice_to notice_block word_start ++ txt "{copyright}"
           ++ slice_from notice_block name_end)
          (license_identifier d'))
  /\ (exists d d' : FileDescriptor,
        SourceDescriptor_parse unknown sample_names two_licenses
          (SourceDescriptor true) notice_source_file = Ok d
        /\ first_license_with unknown two_licenses part_file_header
             (txt "{copyright}" ++ [LF] ++ txt "Licensed under the terms.")
             (license_identifier d)
        /\ LicenseDescriptor_parse unknown sample_names two_licenses
             (LicenseDescriptor true) notice_block = Ok d'
        /\ first_license_with unknown two_licenses part_license_file
             (txt "Notice" ++ [LF] ++ txt "{copyright}" ++ [LF]
              ++ txt "Licensed under the terms.")
             (license_identifier d'))
  /\ (exists d,
        SourceDescriptor_parse unknown sample_names two_licenses
          (SourceDescriptor true) notice_source_file = Ok d
        /\ license_identifier d = Some (txt "terms"))
  /\ (exists d',
        LicenseDescriptor_parse unknown sample_names two_licenses
          (LicenseDescriptor true) notice_block = Ok d'
        /\ license_identifier d' = Some (txt "notice")).
Proof.
  split; [|split; [|split]].
  - exact (proj1 source_normalized_drops_text_before unknown sample_names
             two_licenses "#"%char (tl notice_source_file) 0 0
             "N"%char (tl notice_block) (Some 2) (7, 16)%Z (17, 21)%Z
             (22, 30)%Z eq_refl eq_refl eq_refl eq_refl).
  - exact (proj2 source_normalized_drops_text_before unknown sample_names
             two_licenses Hash [txt "Notice"]
             [txt "Licensed under the terms."]
             (txt " ") (Year (txt "2015")) [] (txt " ") (txt "Foo Corp") []
             eq_refl eq_refl eq_refl eq_refl eq_refl eq_refl eq_refl
             (fun _ => eq_refl) eq_refl).
  - eexists. split; [vm_compute; reflexivity|reflexivity].
  - eexists. split; [vm_compute; reflexivity|reflexivity].
Defined.

(** C3, as the code has it. Take a registered license whose file-header
    template is the placeholder followed by further lines, and that is the
    first of the registry with that template; replace the placeholder by a
    well-formed single-line copyright statement; present the lines as the
    comment lines of a source file, in either convention, the first of which
    is not taken for an encoding line.  The Source-File Classifier extracts
    the substituted text as the comment block, finds the statement,
    re-normalizes the block to the exact template and assigns the
    identifier of that license; the years and the name recorded are those of
    the statement. *)
Theorem file_header_round_trip
  (U : str) (names : list (str * str))
  (before after : list (str * LicenseEntryPoint)) (lname : str)
  (lic : LicenseEntryPoint) (k : marker) (rest_lines : list str)
  (ws1 : str) (t : year_token) (more : list (str * year_token))
  (ws2 name code : str) :
  let statement := copyright_statement ws1 t more ws2 name in
  let text := comment_text k (statement :: rest_lines) ++ code in
  file_header lic = join [LF] (placeholder :: rest_lines) ->
  forallb (fun e => negb (str_eqb (file_header (snd e)) (file_header lic)))
          before = true ->
  is_spacing ws1 = true -> token_ok t = true -> more_ok more = true ->
  is_spacing ws2 = true -> is_holder_name name = true ->
  forallb single_line (statement :: rest_lines) = true ->
  (k = Hash -> is_coding_line text 0 = false) ->
  prefixb (marker_text k) code = false ->
  exists d block cs ys ns,
    get_comment_block text 0
    = Ok (Some block, Some (length (marker_text k) + 1))
    /\ block = substitute (file_header lic) statement
    /\ _search_copyright_information block = Ok (Some cs, Some ys, Some ns)
    /\ placeholder ++ zslice_from block (snd ns) = file_header lic
    /\ SourceDescriptor_parse U names (before ++ (lname, lic) :: after)
         (SourceDescriptor true) text = Ok d
    /\ license_identifier d = Some lname
    /\ copyright_years d = Some (years_text t more)
    /\ copyright_name d = Some name.
Proof.
  intros statement text Hheader Hfirst Hws1 Ht Hmore Hws2 Hname Hlines
    Hcoding Hcode.
  set (tail := match rest_lines with [] => [] | _ => [LF] ++ join [LF] rest_lines end).
  assert (Htemplate : file_header lic = placeholder ++ tail)
    by (rewrite Hheader; apply join_cons).
  assert (Htail : ends_line tail = true)
    by (unfold tail; destruct rest_lines; reflexivity).
  assert (Hne : statement :: rest_lines <> []) by discriminate.
  pose proof (get_comment_block_comment_text k _ code Hne Hlines Hcode) as Hblock.
  fold text in Hblock. rewrite join_cons in Hblock. fold tail in Hblock.
  destruct (copyright_statement_spans ws1 t more ws2 name tail
              Hws1 Ht Hmore Hws2 Hname Htail) as (b & c & d & e & Hs & Hy & Hn & Hrest).
  fold statement in Hs, Hy, Hn, Hrest.
  pose proof (scan_coding_comment_text k _ code Hne Hcoding) as Hscan1.
  pose proof (scan_empty_comment_text k _ code Hne Hlines) as Hscan2.
  fold text in Hscan1, Hscan2.
  assert (Htext : exists c0 text', text = c0 :: text')
    by (unfold text; destruct k; simpl; eauto).
  destruct Htext as (c0 & text' & Htext).
  assert (Hb : exists b0 block', statement ++ tail = b0 :: block')
    by (unfold statement, copyright_statement; simpl; eauto).
  destruct Hb as (b0 & block' & Hb).
  rewrite Htext in Hscan1, Hscan2, Hblock. rewrite Hb in Hblock, Hs.
  pose proof (SourceDescriptor_parse_found U names
                (before ++ (lname, lic) :: after) c0 text' 0 0 b0 block' _
                _ _ _ Hscan1 Hscan2 Hblock Hs) as Hparse.
  rewrite <- Htext in Hparse, Hblock. rewrite <- Hb in Hparse, Hblock, Hs.
  cbn [fst snd] in Hparse. rewrite !zslice_of_nat, zslice_from_of_nat in Hparse.
  rewrite Hy, Hn, Hrest, <- Htemplate in Hparse.
  pose proof (identify_license_loop_first U before after lname lic Hfirst) as Hid.
  eexists _, (statement ++ tail), _, _, _.
  split; [exact Hblock|].
  split; [rewrite Htemplate; symmetry; apply substitute_at_start|].
  split; [exact Hs|].
  split; [cbn [snd]; rewrite zslice_from_of_nat, Hrest; now symmetry|].
  split; [exact Hparse|].
  split; [cbn [license_identifier]; f_equal; exact Hid|].
  split; reflexivity.
Qed.

Lemma file_header_round_trip_witness :
  exists d,
    SourceDescriptor_parse unknown sample_names sample_licenses
      (SourceDescriptor true) foo_source_file = Ok d
    /\ license_identifier d = Some (txt "terms")
    /\ copyright_years d = Some (txt "2015")
    /\ copyright_name d = Some (txt "Foo Corp").
Proof.
  destruct (file_header_round_trip unknown sample_names [] [] (txt "terms")
              sample_license Hash [txt "Licensed under the terms."]
              (txt " ") (Year (txt "2015")) [] (txt " ") (txt "Foo Corp") []
              eq_refl eq_refl eq_refl eq_refl eq_refl eq_refl eq_refl eq_refl
              (fun _ => eq_refl) eq_refl)
    as (d & block & cs & ys & ns & _ & _ & _ & _ & Hd & Hl & Hy & Hn).
  exists d. repeat split; assumption.
Defined.

(** C3, as stated, fails.  A template that holds a line before the
    placeholder is not reproduced, since the text before the statement is
    discarded; and a text that goes on after the holder name on a further
    line stays in the normalized string.  Either way the classifier assigns
    the sentinel, not the identifier of the license. *)
Lemma file_header_round_trip_fails :
  (substitute (file_header notice_license) foo_statement = notice_block
   /\ comment_text Hash [txt "Notice"; foo_statement; txt "Licensed under the terms."]
      = notice_source_file
   /\ get_comment_block notice_source_file 0 = Ok (Some notice_block, Some 2)
   /\ exists d,
        SourceDescriptor_parse unknown sample_names [(txt "notice", notice_license)]
          (SourceDescriptor true) notice_source_file = Ok d
        /\ license_identifier d = Some unknown
        /\ license_identifier d <> Some (txt "notice"))
  /\ (get_comment_block reserved_source_file 0
      = Ok (Some (substitute (file_header sample_license) foo_statement_and_more),
            Some 2)
      /\ exists d,
           SourceDescriptor_parse unknown sample_names sample_licenses
             (SourceDescriptor true) reserved_source_file = Ok d
           /\ license_identifier d = Some unknown
           /\ license_identifier d <> Some (txt "terms")).
Proof.
  split.
  - split; [reflexivity|]. split; [reflexivity|]. split; [reflexivity|].
    eexists. split; [vm_compute; reflexivity|].
    split; [reflexivity|discriminate].
  - split; [reflexivity|].
    eexists. split; [vm_compute; reflexivity|].
    split; [reflexivity|discriminate].
Qed.

(** * Further properties of the parser *)

(** X1. [get_comment_block] does not raise.  It answers "not found" exactly
    when no line that starts at or after the offset starts with a hash sign
    or two slashes; otherwise the offset it returns is the one after the
    marker and one more character on the first such line. *)
Theorem get_comment_block_first_comment_line (content : str) (index : nat) :
  let i := Nat.min index (length content) in
  (get_comment_block content index = Ok (None, None)
   /\ forall q, i <= q <= length content -> comment_line_at content q = false)
  \/ exists q tok block,
       i <= q <= length content
       /\ comment_line_at content q = true
       /\ (forall q', i <= q' < q -> comment_line_at content q' = false)
       /\ marker_of (skipn q content) = Some tok
       /\ get_comment_block content index
          = Ok (Some block, Some (q + length tok + 1)).
Proof.
  intros i. unfold get_comment_block. rewrite search_clamp. fold i.
  destruct (search_comment_pattern content i ltac:(unfold i; lia))
    as [[Hs Hnone]|(q & tok & m & Hq & Hc & Hmin & Htok & Hs & Hcaps)];
    rewrite Hs.
  - left. split; [reflexivity|exact Hnone].
  - right. unfold group_text, group_start, span. rewrite Hcaps.
    cbn [lookup_group Nat.eqb fst]. rewrite Nat2Z.id.
    destruct (marker_of_some _ _ Htok) as (Hmark & t & Et).
    rewrite (slice_of_prefix content tok t q Et).
    assert (Hne : tok <> []) by (destruct Hmark as [-> | ->]; discriminate).
    destruct (get_comment_block_loop_total content tok Hne
                (S (length content)) q) as [e He].
    { pose proof (get_index_of_next_line_le content q). lia. }
    rewrite He. cbn [bind].
    exists q, tok. eexists. repeat split; try assumption; lia.
Qed.

(** X2. Commenting and uncommenting: a file that starts with lines written
    after a marker and one space, followed by text that does not start with
    that marker, has those lines, joined by line feeds, as its comment
    block.  A line that uses the other marker ends the block. *)
Theorem get_comment_block_of_comment_text (k : marker) (lines : list str)
  (code : str) :
  lines <> [] -> forallb single_line lines = true ->
  prefixb (marker_text k) code = false ->
  get_comment_block (comment_text k lines ++ code) 0
  = Ok (Some (join [LF] lines), Some (length (marker_text k) + 1)).
Proof. exact (get_comment_block_comment_text k lines code). Qed.

Lemma get_comment_block_of_comment_text_witness :
  get_comment_block slash_block_file 0
  = Ok (Some (txt "first" ++ [LF] ++ txt "second"), Some 3).
Proof.
  apply (get_comment_block_of_comment_text Slashes
           [txt "first"; txt "second"] (txt "# other marker"));
    [discriminate|reflexivity|reflexivity].
Defined.

(** X3. The Preamble Scanner skips the leading lines that start with a hash
    sign and hold an encoding declaration or start with the interpreter
    mark, one line at a time: its answer on such lines followed by [rest] is
    its answer on [rest], moved by the length of the lines skipped. *)
Theorem scan_skips_preamble_lines (lines : list str) (rest : str) :
  forallb (fun l => single_line l && is_preamble_line l) lines = true ->
  scan_past_coding_and_shebang_lines (lines_text lines ++ rest)
  = shift_result (length (lines_text lines))
      (scan_past_coding_and_shebang_lines rest).
Proof. exact (scan_coding_preamble lines rest). Qed.

Lemma scan_skips_preamble_lines_witness :
  scan_past_coding_and_shebang_lines script_file = Ok 47.
Proof.
  exact (eq_trans
           (scan_skips_preamble_lines
              [txt "#!/usr/bin/env python3"; txt "# -*- coding: utf-8 -*-"]
              (txt "# Copyright 2019 Jane Doe" ++ [LF]) eq_refl)
           eq_refl).
Defined.

(** X4. On a source file made only of lines the Preamble Scanner skips, the
    scanner reads the character after the last line and raises
    [IndexError], and so does the Source-File Classifier. *)
Theorem preamble_only_file_raises
  (U : str) (names : list (str * str)) (licenses : list (str * LicenseEntryPoint))
  (lines : list str) :
  lines <> [] ->
  forallb (fun l => single_line l && is_preamble_line l) lines = true ->
  scan_past_coding_and_shebang_lines (lines_text lines) = Raise IndexError
  /\ SourceDescriptor_parse U names licenses (SourceDescriptor true)
       (lines_text lines) = Raise IndexError.
Proof.
  intros Hne H.
  assert (Hscan : scan_past_coding_and_shebang_lines (lines_text lines)
                  = Raise IndexError).
  { pose proof (scan_coding_preamble lines [] H) as Hs.
    rewrite app_nil_r in Hs. rewrite Hs. reflexivity. }
  split; [exact Hscan|].
  unfold SourceDescriptor_parse.
  cbn [read SourceDescriptor new_descriptor file_exists negb set_content content].
  destruct (lines_text lines) as [|c text] eqn:E.
  - destruct lines as [|l ls]; [contradiction|].
    cbn [lines_text] in E. destruct l; discriminate.
  - rewrite Hscan. reflexivity.
Qed.

Lemma preamble_only_file_raises_witness :
  scan_past_coding_and_shebang_lines shebang_only_file = Raise IndexError
  /\ SourceDescriptor_parse unknown sample_names sample_licenses
       (SourceDescriptor true) shebang_only_file = Raise IndexError.
Proof.
  apply (preamble_only_file_raises unknown sample_names sample_licenses
           [txt "#!/bin/sh"]); [discriminate|reflexivity].
Defined.

(** X5. [scan_past_empty_lines] returns the first offset, from the one it is
    given on, at which [is_empty_line] does not hold: every offset it passes
    is an empty line, and scanning again from its answer changes nothing. *)
Theorem scan_past_empty_lines_first_non_empty (content : str) (index : nat) :
  exists r,
    scan_past_empty_lines content index = Ok r
    /\ index <= r
    /\ is_empty_line content r = false
    /\ (forall q, index <= q < r -> is_empty_line content q = true)
    /\ scan_past_empty_lines content r = Ok r.
Proof.
  destruct (scan_past_empty_lines_loop_first content (S (length content)) index
              ltac:(lia)) as (r & Hr & Hle & He & Hall).
  exists r. repeat split; auto.
  unfold scan_past_empty_lines. cbn [scan_past_empty_lines_loop].
  now rewrite He.
Qed.

(** X6. The line-advance step makes progress and stays inside the content:
    from an offset inside the content it returns a larger offset that is at
    most the length; from the length or beyond it returns the length. *)
Theorem get_index_of_next_line_progress (content : str) (index : nat) :
  (index < length content ->
   index < get_index_of_next_line content index <= length content)
  /\ (length content <= index ->
      get_index_of_next_line content index = length content).
Proof.
  split.
  - intros H. split; [now apply get_index_of_next_line_gt
                     |apply get_index_of_next_line_le].
  - apply get_index_of_next_line_past_end.
Qed.

Lemma get_index_of_next_line_progress_witness :
  0 < get_index_of_next_line crlf_then_x 0 <= 3
  /\ get_index_of_next_line crlf_then_x 5 = 3.
Proof.
  split.
  - apply (proj1 (get_index_of_next_line_progress crlf_then_x 0)).
    simpl. lia.
  - apply (proj2 (get_index_of_next_line_progress crlf_then_x 5)).
    simpl. lia.
Defined.

(** X7. The line-advance step reads the content from the offset on only:
    after a prefix, it answers as on the text without the prefix, moved by
    the length of the prefix. *)
Theorem get_index_of_next_line_after_prefix (pre rest : str) (i : nat) :
  get_index_of_next_line (pre ++ rest) (length pre + i)
  = length pre + get_index_of_next_line rest i.
Proof. exact (next_line_shift pre rest i). Qed.

(** X8. The Contributing-File Classifier compares the whole content with the
    contributing template of each registered license, in registry order: the
    license identifier is the key of the first license whose template equals
    the content, and the sentinel when none does.  No copyright field is
    set. *)
Theorem contributing_file_exact_match
  (U : str) (licenses : list (str * LicenseEntryPoint))
  (c : ascii) (text : str) :
  exists d,
    ContributingDescriptor_parse U licenses (ContributingDescriptor true)
      (c :: text) = Ok d
    /\ copyright_name d = None /\ copyright_years d = None
    /\ copyright_identifier d = None
    /\ ((exists before name lic after,
           licenses = before ++ (name, lic) :: after
           /\ contributing_file lic = c :: text
           /\ (forall e, In e before -> contributing_file (snd e) <> c :: text)
           /\ license_identifier d = Some name)
        \/ ((forall e, In e licenses -> contributing_file (snd e) <> c :: text)
            /\ license_identifier d = Some U)).
Proof.
  eexists. split; [reflexivity|]. do 3 (split; [reflexivity|]).
  cbn [license_identifier identify_license set_license_identifier].
  destruct (identify_license_loop_lookup U licenses (c :: text)
              part_contributing_file)
    as [(before & name & lic & after & E & Hc & Hb & Hr)|[Hall Hr]].
  - left. exists before, name, lic, after. repeat split; auto.
    f_equal. exact Hr.
  - right. split; [exact Hall|]. f_equal. exact Hr.
Qed.

(** X9. On a source file that starts with a commented well-formed statement,
    the Source-File Classifier records the years and the holder name of the
    statement; the copyright identifier is the key of the first registered
    holder whose canonical name equals the name, and the sentinel when no
    registered name does; the license identifier is looked up the same way
    with the placeholder followed by the lines after the statement. *)
Theorem source_statement_identifiers
  (U : str) (names : list (str * str)) (licenses : list (str * LicenseEntryPoint))
  (k : marker) (rest_lines : list str)
  (ws1 : str) (t : year_token) (more : list (str * year_token))
  (ws2 name code : str) :
  let statement := copyright_statement ws1 t more ws2 name in
  let text := comment_text k (statement :: rest_lines) ++ code in
  let normalized := join [LF] (placeholder :: rest_lines) in
  is_spacing ws1 = true -> token_ok t = true -> more_ok more = true ->
  is_spacing ws2 = true -> is_holder_name name = true ->
  forallb single_line (statement :: rest_lines) = true ->
  (k = Hash -> is_coding_line text 0 = false) ->
  prefixb (marker_text k) code = false ->
  exists d,
    SourceDescriptor_parse U names licenses (SourceDescriptor true) text = Ok d
    /\ copyright_years d = Some (years_text t more)
    /\ copyright_name d = Some name
    /\ ((exists before key after,
           names = before ++ (key, name) :: after
           /\ (forall e, In e before -> snd e <> name)
           /\ copyright_identifier d = Some key)
        \/ ((forall e, In e names -> snd e <> name)
            /\ copyright_identifier d = Some U))
    /\ ((exists before key lic after,
           licenses = before ++ (key, lic) :: after
           /\ file_header lic = normalized
           /\ (forall e, In e before -> file_header (snd e) <> normalized)
           /\ license_identifier d = Some key)
        \/ ((forall e, In e licenses -> file_header (snd e) <> normalized)
            /\ license_identifier d = Some U)).
Proof.
  intros statement text normalized Hws1 Ht Hmore Hws2 Hname Hlines Hcoding Hcode.
  pose proof (SourceDescriptor_parse_statement U names licenses k rest_lines
                ws1 t more ws2 name code Hws1 Ht Hmore Hws2 Hname Hlines
                Hcoding Hcode) as Hparse.
  cbv zeta in Hparse. rewrite <- join_cons in Hparse.
  fold statement text normalized in Hparse.
  eexists. split; [exact Hparse|]. do 2 (split; [reflexivity|]).
  cbn [copyright_identifier license_identifier]. split.
  - destruct (identify_copyright_loop_lookup U names name)
      as [(before & key & after & E & Hb & Hr)|[Hall Hr]].
    + left. exists before, key, after. repeat split; auto. f_equal. exact Hr.
    + right. split; [exact Hall|]. f_equal. exact Hr.
  - destruct (identify_license_loop_lookup U licenses normalized part_file_header)
      as [(before & key & lic & after & E & Hc & Hb & Hr)|[Hall Hr]].
    + left. exists before, key, lic, after. repeat split; auto.
      f_equal. exact Hr.
    + right. split; [exact Hall|]. f_equal. exact Hr.
Qed.

Lemma source_statement_identifiers_witness :
  exists d,
    SourceDescriptor_parse unknown sample_names sample_licenses
      (SourceDescriptor true) foo_source_file = Ok d
    /\ copyright_years d = Some (txt "2015")
    /\ copyright_name d = Some (txt "Foo Corp")
    /\ copyright_identifier d = Some (txt "foo")
    /\ license_identifier d = Some (txt "terms").
Proof.
  destruct (source_statement_identifiers unknown sample_names sample_licenses
              Hash [txt "Licensed under the terms."]
              (txt " ") (Year (txt "2015")) [] (txt " ") (txt "Foo Corp") []
              eq_refl eq_refl eq_refl eq_refl eq_refl eq_refl
              (fun _ => eq_refl) eq_refl)
    as (d & Hd & Hy & Hn & _ & _).
  exists d. split; [exact Hd|]. split; [exact Hy|]. split; [exact Hn|].
  change foo_source_file
    with (comment_text Hash
            [copyright_statement (txt " ") (Year (txt "2015")) [] (txt " ")
               (txt "Foo Corp"); txt "Licensed under the terms."] ++ [])
    in Hd.
  vm_compute in Hd. injection Hd as <-. split; reflexivity.
Defined.

(** X10. A text that does not hold the word Copyright has no copyright
    statement: the matcher answers "not found". *)
Theorem no_copyright_word_no_match (content : str) :
  contains (txt "Copyright") content = false ->
  _search_copyright_information content = Ok (None, None, None).
Proof.
  intros Hno. unfold _search_copyright_information.
  destruct (search copyright_pattern content 0) as [m| |] eqn:Hs.
  - exfalso. apply search_matched_at in Hs as (st0 & Hi & Hc & Hr).
    destruct (copyright_pattern_match content st0 m Hi Hc Hr)
      as (a & b & c & d & e & _ & Hw & H1 & H2 & H3 & H4 & H5 & _).
    rewrite (contains_of_slice content (txt "Copyright") a Hw ltac:(lia)) in Hno.
    discriminate.
  - reflexivity.
  - now apply search_not_exhausted in Hs.
Qed.

Lemma no_copyright_word_no_match_witness :
  _search_copyright_information plain_license_file = Ok (None, None, None).
Proof. exact (no_copyright_word_no_match plain_license_file eq_refl). Defined.

(** X11. The holder name must run to a line feed or to the end of the text,
    and holds no carriage return: in a text where every line feed follows a
    carriage return and that ends with a line terminator, no copyright
    statement is found. *)
Theorem crlf_text_has_no_match (content : str) :
  (forall e, nth_error content (S e) = Some LF -> nth_error content e = Some CR) ->
  (forall c, nth_error content (length content - 1) = Some c ->
             c = LF \/ c = CR) ->
  _search_copyright_information content = Ok (None, None, None).
Proof.
  intros Hcrlf Hlast. unfold _search_copyright_information.
  destruct (search copyright_pattern content 0) as [m| |] eqn:Hs.
  - exfalso. apply search_matched_at in Hs as (st0 & Hi & Hc & Hr).
    destruct (copyright_pattern_match content st0 m Hi Hc Hr)
      as (a & b & c & d & e & _ & _ & H1 & H2 & H3 & H4 & H5 & _ & _ & Hn & He).
    assert (Hx : exists x, nth_error content (e - 1) = Some x).
    { destruct (nth_error content (e - 1)) eqn:E; [eauto|].
      apply nth_error_None in E. lia. }
    destruct Hx as [x Hx].
    assert (Hin : In x (slice content d e)).
    { apply (nth_error_In _ (e - 1 - d)).
      rewrite nth_error_slice by lia. exact Hx. }
    rewrite forallb_forall in Hn. specialize (Hn x Hin).
    unfold not_nl_cr in Hn. apply andb_true_iff in Hn as [Hn1 Hn2].
    apply negb_true_iff in Hn1, Hn2.
    assert (Hbad : x = LF \/ x = CR).
    { destruct He as [->|He].
      - now apply Hlast.
      - right. replace e with (S (e - 1)) in He by lia.
        apply Hcrlf in He. congruence. }
    destruct Hbad as [-> | ->]; discriminate.
  - reflexivity.
  - now apply search_not_exhausted in Hs.
Qed.

Lemma crlf_text_has_no_match_witness :
  _search_copyright_information crlf_statement_file = Ok (None, None, None).
Proof.
  apply crlf_text_has_no_match.
  - intros e H.
    assert (e < 24) by (apply nth_error_lt in H; simpl in H; lia).
    do 24 (destruct e as [|e]; [try discriminate H; reflexivity|]). lia.
  - intros c H. simpl in H. injection H as <-. now left.
Defined.

(** X12. Round trip of a License file: take a registered license whose
    license-file template holds the placeholder at the start of a line,
    after text without the word Copyright and before the end of that line,
    and that is the first of the registry with that template; replace the
    placeholder by a well-formed statement.  The License-File Classifier
    records the years and the name of the statement, re-normalizes the
    content to the exact template and assigns the identifier of that
    license. *)
Theorem license_file_round_trip
  (U : str) (names : list (str * str))
  (before after : list (str * LicenseEntryPoint)) (lname : str)
  (lic : LicenseEntryPoint) (pre ws1 : str) (t : year_token)
  (more : list (str * year_token)) (ws2 name tail : str) :
  let statement := copyright_statement ws1 t more ws2 name in
  let text := pre ++ statement ++ tail in
  license_file lic = pre ++ placeholder ++ tail ->
  forallb (fun e => negb (str_eqb (license_file (snd e)) (license_file lic)))
          before = true ->
  contains (txt "Copyright") pre = false ->
  ends_with_line_feed pre = true ->
  is_spacing ws1 = true -> token_ok t = true -> more_ok more = true ->
  is_spacing ws2 = true -> is_holder_name name = true ->
  ends_line tail = true ->
  exists d cs ys ns,
    _search_copyright_information text = Ok (Some cs, Some ys, Some ns)
    /\ zslice_to text (fst cs) ++ placeholder ++ zslice_from text (snd ns)
       = license_file lic
    /\ LicenseDescriptor_parse U names (before ++ (lname, lic) :: after)
         (LicenseDescriptor true) text = Ok d
    /\ license_identifier d = Some lname
    /\ copyright_years d = Some (years_text t more)
    /\ copyright_name d = Some name.
Proof.
  intros statement text Htemplate Hfirst Hno Hnl Hws1 Ht Hmore Hws2 Hname Htail.
  destruct (copyright_statement_after_text_spans pre ws1 t more ws2 name tail
              Hno Hnl Hws1 Ht Hmore Hws2 Hname Htail)
    as (a & a' & b & c & d & e & Hs & Hpre & _ & Hy & Hn & Hrest).
  fold statement text in Hs, Hpre, Hy, Hn, Hrest.
  assert (Htext : exists c0 text', text = c0 :: text').
  { unfold text, statement, copyright_statement.
    destruct pre; simpl; eauto. }
  destruct Htext as (c0 & text' & Htext).
  pose proof Hs as Hs'. rewrite Htext in Hs'.
  pose proof (LicenseDescriptor_parse_found U names
                (before ++ (lname, lic) :: after) c0 text' _ _ _ Hs') as Hparse.
  rewrite <- Htext in Hparse. cbn [fst snd] in Hparse.
  rewrite !zslice_of_nat, zslice_from_of_nat in Hparse.
  unfold zslice_to in Hparse. rewrite norm_index_of_nat in Hparse.
  rewrite Hy, Hn, Hrest, Hpre, <- Htemplate in Hparse.
  pose proof (identify_license_loop_first_part U before after lname lic
                part_license_file Hfirst) as Hid.
  eexists _, _, _, _. split; [exact Hs|].
  split.
  { cbn [fst snd]. unfold zslice_to. rewrite norm_index_of_nat, zslice_from_of_nat.
    rewrite Hpre, Hrest. now symmetry. }
  split; [exact Hparse|].
  split; [cbn [license_identifier]; f_equal; exact Hid|].
  split; reflexivity.
Qed.

Lemma license_file_round_trip_witness :
  exists d,
    LicenseDescriptor_parse unknown sample_names sample_licenses
      (LicenseDescriptor true) foo_license_file = Ok d
    /\ license_identifier d = Some (txt "terms")
    /\ copyright_years d = Some (txt "2015")
    /\ copyright_name d = Some (txt "Foo Corp").
Proof.
  destruct (license_file_round_trip unknown sample_names [] [] (txt "terms")
              sample_license (txt "Terms" ++ [LF])
              (txt " ") (Year (txt "2015")) [] (txt " ") (txt "Foo Corp")
              (LF :: txt "All rights reserved.")
              eq_refl eq_refl eq_refl eq_refl eq_refl eq_refl eq_refl eq_refl
              eq_refl eq_refl)
    as (d & cs & ys & ns & _ & _ & Hd & Hl & Hy & Hn).
  exists d. repeat split; assumption.
Defined.

(** X13. What a comment block holds before the statement does not count for
    a Source file: when lines without the word Copyright come before a
    well-formed statement in the block, the years and the name recorded are
    those of the statement, and the license is looked up with the
    placeholder followed by the lines after the statement, as if the lines
    before were not there. *)
Theorem source_lines_before_statement_dropped
  (U : str) (names : list (str * str)) (licenses : list (str * LicenseEntryPoint))
  (k : marker) (pre_lines rest_lines : list str)
  (ws1 : str) (t : year_token) (more : list (str * year_token))
  (ws2 name code : str) :
  let statement := copyright_statement ws1 t more ws2 name in
  let text := comment_text k (pre_lines ++ statement :: rest_lines) ++ code in
  contains (txt "Copyright") (lines_text pre_lines) = false ->
  is_spacing ws1 = true -> token_ok t = true -> more_ok more = true ->
  is_spacing ws2 = true -> is_holder_name name = true ->
  forallb single_line (pre_lines ++ statement :: rest_lines) = true ->
  (k = Hash -> is_coding_line text 0 = false) ->
  prefixb (marker_text k) code = false ->
  exists d,
    SourceDescriptor_parse U names licenses (SourceDescriptor true) text = Ok d
    /\ copyright_years d = Some (years_text t more)
    /\ copyright_name d = Some name
    /\ license_identifier d
       = Some (identify_license_loop U licenses
                 (Some (join [LF] (placeholder :: rest_lines)))
                 part_file_header).
Proof.
  intros statement text Hno Hws1 Ht Hmore Hws2 Hname Hlines Hcoding Hcode.
  eexists. split.
  - exact (SourceDescriptor_parse_after_lines U names licenses k pre_lines
             rest_lines ws1 t more ws2 name code Hno Hws1 Ht Hmore Hws2 Hname
             Hlines Hcoding Hcode).
  - repeat split.
Qed.

Lemma source_lines_before_statement_dropped_witness :
  exists d,
    SourceDescriptor_parse unknown sample_names sample_licenses
      (SourceDescriptor true) notice_source_file = Ok d
    /\ copyright_years d = Some (txt "2015")
    /\ copyright_name d = Some (txt "Foo Corp")
    /\ license_identifier d = Some (txt "terms").
Proof.
  exact (source_lines_before_statement_dropped unknown sample_names
           sample_licenses Hash [txt "Notice"] [txt "Licensed under the terms."]
           (txt " ") (Year (txt "2015")) [] (txt " ") (txt "Foo Corp") []
           eq_refl eq_refl eq_refl eq_refl eq_refl eq_refl eq_refl
           (fun _ => eq_refl) eq_refl).
Defined.

(** X14. The classifier of a file is chosen by the last component of its
    path alone: the directories before the last slash change nothing. *)
Theorem determine_filetype_ignores_directories
  (ALL_FILETYPES : list (filetype * option str)) (dir name : str) :
  contains sep name = false ->
  determine_filetype ALL_FILETYPES (dir ++ sep ++ name)
  = determine_filetype ALL_FILETYPES name.
Proof.
  intros H. unfold determine_filetype.
  now rewrite (basename_last dir name H), (basename_plain name H).
Qed.

Lemma determine_filetype_ignores_directories_witness :
  determine_filetype sample_filetypes (txt "/ws/src/pkg" ++ sep ++ txt "LICENSE")
  = determine_filetype sample_filetypes (txt "LICENSE")
  /\ determine_filetype sample_filetypes (txt "LICENSE") = LICENSE_FILETYPE.
Proof.
  split; [|reflexivity].
  exact (determine_filetype_ignores_directories sample_filetypes
           (txt "/ws/src/pkg") (txt "LICENSE") eq_refl).
Defined.

(** X15. A path at which nothing exists, or an empty file, gives without
    exception a descriptor of the type its name selects with nothing
    identified: the license identifier stays unset, and for a type other
    than Contributing, whose descriptor has no such attribute, so do the
    name, the years and the copyright identifier. *)
Theorem parse_file_missing_or_empty
  (U : str) (names : list (str * str)) (licenses : list (str * LicenseEntryPoint))
  (ALL_FILETYPES : list (filetype * option str))
  (fs : str -> file_at) (path : str) :
  fs path = Missing \/ fs path = Readable [] ->
  exists d,
    parse_file U names licenses ALL_FILETYPES fs path = Ok d
    /\ file_type d = determine_filetype ALL_FILETYPES path
    /\ license_identifier d = None
    /\ (file_type d <> CONTRIBUTING_FILETYPE ->
        copyright_name d = None /\ copyright_years d = None
        /\ copyright_identifier d = None).
Proof.
  intros [H|H]; unfold parse_file; rewrite H.
  - rewrite parse_as_missing. eexists. split; [reflexivity|].
    repeat split.
  - rewrite parse_as_empty. eexists. split; [reflexivity|].
    repeat split.
Qed.

Lemma parse_file_missing_or_empty_witness :
  exists d,
    parse_file unknown sample_names sample_licenses sample_filetypes no_file
      (txt "/ws/LICENSE") = Ok d
    /\ file_type d = LICENSE_FILETYPE
    /\ license_identifier d = None
    /\ copyright_name d = None /\ copyright_years d = None
    /\ copyright_identifier d = None.
Proof.
  destruct (parse_file_missing_or_empty unknown sample_names sample_licenses
              sample_filetypes no_file (txt "/ws/LICENSE") (or_introl eq_refl))
    as (d & E & T & L & C).
  exists d. split; [exact E|]. split; [exact T|]. split; [exact L|].
  apply C. rewrite T. discriminate.
Defined.

(** X16. When the path exists and cannot be read, parsing raises what
    opening or reading raised.  Otherwise it returns a descriptor or raises
    IndexError, and it raises only when the name selects the Source type: a
    License or Contributing file that can be read never raises. *)
Theorem parse_file_outcomes
  (U : str) (names : list (str * str)) (licenses : list (str * LicenseEntryPoint))
  (ALL_FILETYPES : list (filetype * option str))
  (fs : str -> file_at) (path : str) :
  match fs path with
  | Unreadable =>
      parse_file U names licenses ALL_FILETYPES fs path = Raise ReadError
  | _ =>
      (exists d, parse_file U names licenses ALL_FILETYPES fs path = Ok d)
      \/ (parse_file U names licenses ALL_FILETYPES fs path = Raise IndexError
          /\ determine_filetype ALL_FILETYPES path = SOURCE_FILETYPE)
  end.
Proof.
  unfold parse_file.
  destruct (fs path) as [|text|]; [apply parse_as_result..|reflexivity].
Qed.

(** X17. The message of a line is what follows its last colon, without the
    character that comes right after that colon, whatever it is. *)
Theorem find_error_message_after_last_colon (head tail : str) :
  contains (txt ":") tail = false ->
  find_error_message (head ++ txt ":" ++ tail) = tl tail.
Proof.
  intros H. unfold find_error_message, zslice_from, slice_from.
  change (txt ":") with [":"%char] in *.
  change ([":"%char] ++ tail) with (":"%char :: tail).
  rewrite (rfind_last_char head tail ":"%char H).
  replace (Z.of_nat (length head) + 2)%Z with (Z.of_nat (length head + 2)) by lia.
  rewrite norm_index_of_nat, skipn_app_plus.
  destruct tail; reflexivity.
Qed.

Lemma find_error_message_after_last_colon_witness :
  find_error_message
    (txt "/ws/node.cpp:12:5: warning" ++ txt ":" ++ txt " use nullptr")
  = txt "use nullptr".
Proof.
  exact (find_error_message_after_last_colon (txt "/ws/node.cpp:12:5: warning")
           (txt " use nullptr") eq_refl).
Defined.

(** X18. On a line without any colon the message is the line without its
    first character. *)
Theorem find_error_message_without_colon (data : str) :
  contains (txt ":") data = false -> find_error_message data = tl data.
Proof.
  intros H. unfold find_error_message, zslice_from, slice_from.
  rewrite (rfind_none data (txt ":") H).
  destruct data; reflexivity.
Qed.

Lemma find_error_message_without_colon_witness :
  find_error_message (txt "warning") = txt "arning".
Proof.
  exact (find_error_message_without_colon (txt "warning") eq_refl).
Defined.

(** X19. The report holds one entry for each line with a location, and one
    more for every output that comes after the first output with such a
    line: the entry in progress is added again at the end of each later
    output. *)
Theorem report_entry_added_again_by_later_outputs
  (clean rest : list str) (output : str) :
  forallb (fun o => error_lines (error_re extensions) o =? 0) clean = true ->
  0 < error_lines (error_re extensions) output ->
  exists r,
    build_report (clean ++ output :: rest) = Ok r
    /\ error_count r
       = total_error_lines (error_re extensions) (output :: rest) + length rest.
Proof.
  intros Hclean Hout. unfold build_report.
  rewrite report_outputs_app.
  destruct (report_outputs_clean extensions clean initial_report_state
              eq_refl Hclean) as (st1 & E1 & S1 & R1).
  rewrite E1. cbn [bind report_outputs].
  destruct (report_output_count extensions st1 output)
    as (st2 & E2 & S2 & C2 & _).
  rewrite E2. cbn [bind].
  rewrite S1 in S2, C2. rewrite R1 in C2. cbn [orb] in S2.
  assert (S2' : file_seen st2 = true)
    by (rewrite S2; apply Nat.ltb_lt; exact Hout).
  destruct (report_outputs_seen extensions rest st2 S2') as (st3 & E3 & C3).
  rewrite E3. cbn [bind]. eexists. split; [reflexivity|].
  rewrite C3, C2. unfold total_error_lines. cbn [map].
  change (list_sum (error_lines (error_re extensions) output
                    :: map (error_lines (error_re extensions)) rest))
    with (error_lines (error_re extensions) output
          + list_sum (map (error_lines (error_re extensions)) rest)).
  change (error_count (report initial_report_state)) with 0. lia.
Qed.

Lemma report_entry_added_again_by_later_outputs_witness :
  exists r,
    build_report [clean_output; warning_output; clean_output] = Ok r
    /\ error_count r = 2.
Proof.
  destruct (report_entry_added_again_by_later_outputs [clean_output]
              [clean_output] warning_output) as (r & E & C).
  - vm_compute. reflexivity.
  - vm_compute. lia.
  - exists r. split; [exact E|]. rewrite C. vm_compute. reflexivity.
Defined.

(** X20. Outputs without any line with a location give an empty report. *)
Theorem report_of_outputs_without_location (outputs : list str) :
  forallb (fun o => error_lines (error_re extensions) o =? 0) outputs = true ->
  build_report outputs = Ok [].
Proof.
  intros H. unfold build_report.
  destruct (report_outputs_clean extensions outputs initial_report_state
              eq_refl H) as (st1 & E1 & _ & R1).
  rewrite E1. cbn [bind]. now rewrite R1.
Qed.

Lemma report_of_outputs_without_location_witness :
  build_report [clean_output; clean_output] = Ok [].
Proof.
  apply (report_of_outputs_without_location [clean_output; clean_output]).
  vm_compute. reflexivity.
Defined.


(** X22. In the xunit counters a file without error counts for one test:
    the number of tests is the number of failures plus the number of files
    without error, so there are never more failures than tests. *)
Theorem test_count_is_errors_and_files_without (r : report_type) :
  test_count r = error_count r + files_without_error r.
Proof.
  unfold files_without_error.
  induction r as [|[f errors] r IH]; [reflexivity|].
  rewrite test_count_cons, error_count_cons, IH. cbn [filter snd].
  destruct errors as [|e errors]; cbn [length]; lia.
Qed.

(** X23. The name of the test suite is the folder of the xunit file, a dot
    and the name of the file without its two suffixes. *)
Theorem testname_of_xunit_xml_file (prefix folder stem : str) :
  is_directory_prefix prefix = true ->
  0 < length folder ->
  contains sep folder = false -> contains sep stem = false ->
  testname (prefix ++ folder ++ sep ++ stem ++ txt ".xunit.xml")
  = folder ++ txt "." ++ stem.
Proof.
  intros Hp Hlen Hf Hs.
  assert (Hne : folder <> []) by (destruct folder; [simpl in Hlen; lia|discriminate]).
  assert (Hname : contains sep (stem ++ txt ".xunit.xml") = false)
    by (apply contains_false_app; [exact Hs|reflexivity]).
  unfold testname.
  rewrite (dirname_of_folder prefix folder _ Hne Hf Hname).
  rewrite (basename_after_prefix prefix folder Hp Hf).
  replace (prefix ++ folder ++ sep ++ stem ++ txt ".xunit.xml")
    with ((prefix ++ folder ++ sep) ++ stem ++ txt ".xunit.xml")
    by (now rewrite <- !app_assoc).
  rewrite (basename_after_prefix (prefix ++ folder ++ sep) _).
  - change (txt ".xunit.xml") with (txt ".xunit" ++ txt ".xml").
    rewrite (app_assoc stem), endswith_app, strip_suffix by discriminate.
    rewrite endswith_app, strip_suffix by discriminate.
    reflexivity.
  - unfold is_directory_prefix. rewrite !rev_app_distr. reflexivity.
  - exact Hname.
Qed.

Lemma testname_of_xunit_xml_file_witness :
  testname (txt "/ws/build/" ++ txt "pkg" ++ sep ++ txt "clang_tidy"
            ++ txt ".xunit.xml")
  = txt "pkg" ++ txt "." ++ txt "clang_tidy".
Proof.
  apply (testname_of_xunit_xml_file (txt "/ws/build/") (txt "pkg")
           (txt "clang_tidy")).
  - reflexivity.
  - simpl. lia.
  - reflexivity.
  - reflexivity.
Defined.
